(** * TaxaFormer: chart formatting over stored analysis results

    A shallow embedding of [db/supabase_db.py] (class [TaxaformerDB]): the
    five formatters that read a stored analysis job and reshape its
    sequence records into chart data (composition, heatmap, hierarchy,
    beta diversity, Sankey flow), followed by the properties the
    specification states about them.

    Conventions of the embedding.
    - A Python [str] is the list of its Unicode code points ([list N]);
      [py "..."] writes an ASCII literal.
    - A [dict] whose iteration order reaches the output ([Counter],
      [defaultdict], the nested tree dictionaries) is an association list
      in insertion order; a [dict] that is only looked up is a [gmap]; a
      [set] is a [gset].
    - Exceptions are explicit: every formatter returns a [result].
    - A Python [float] is an IEEE 754 binary64 number ([spec_float] of
      the Standard Library at precision 53): the percentages of the
      composition are computed in it, rounding included.  The
      dissimilarities that NumPy computes are read as exact rationals,
      with NumPy's [0/0 = nan] kept as a separate value. *)

From Stdlib Require Import Ascii String QArith Qabs Qpower Lqa SpecFloat.
From stdpp Require Import base option list gmap sets sorting strings.

#[local] Set Warnings "-clear-no-such-hyp".

Open Scope nat_scope.
Open Scope list_scope.

(* ===================================================================== *)
(** ** Python strings *)
(* ===================================================================== *)

Module PyStr.

Abbreviation str := (list N).

(** An ASCII literal as a [str]. *)
Definition py (s : string) : str := N_of_ascii <$> list_ascii_of_string s.

(** [str.isspace] on one code point: the table of CPython's
    [_PyUnicode_IsWhitespace]. *)
Definition is_space (c : N) : bool :=
  ((9 <=? c) && (c <=? 13) || (28 <=? c) && (c <=? 32)
   || (c =? 133) || (c =? 160) || (c =? 5760)
   || (8192 <=? c) && (c <=? 8202)
   || (c =? 8232) || (c =? 8233) || (c =? 8239) || (c =? 8287)
   || (c =? 12288))%N.

Fixpoint lstrip (s : str) : str :=
  match s with
  | c :: s' => if is_space c then lstrip s' else s
  | [] => []
  end.

Definition rstrip (s : str) : str := reverse (lstrip (reverse s)).

(** [s.strip()] *)
Definition strip (s : str) : str := rstrip (lstrip s).

(** [s.split(sep)] for a one-character separator: never empty, an empty
    segment between two adjacent separators and at either end. *)
Fixpoint split (sep : N) (s : str) : list str :=
  match s with
  | [] => [[]]
  | c :: s' =>
      if (c =? sep)%N then [] :: split sep s'
      else match split sep s' with
           | seg :: segs => (c :: seg) :: segs
           | [] => [[c]]
           end
  end.

(** [sep.join(segs)] *)
Fixpoint join (sep : N) (segs : list str) : str :=
  match segs with
  | [] => []
  | [seg] => seg
  | seg :: segs' => seg ++ sep :: join sep segs'
  end.

(** [s.lower()] on ASCII letters; other code points are left as they are.
    No string with a code point outside ASCII lowers to a rank name (the
    only such code point that lowers to an ASCII letter alone is the
    Kelvin sign, to "k"), so the rank lookups below find the same keys as
    in Python. *)
Definition lower_char (c : N) : N :=
  if ((65 <=? c) && (c <=? 90))%N then (c + 32)%N else c.

Definition lower (s : str) : str := lower_char <$> s.

(** Code-point lexicographic order, the order of [sorted] on [str]. *)
Fixpoint str_leb (a b : str) : bool :=
  match a, b with
  | [], _ => true
  | _ :: _, [] => false
  | x :: a', y :: b' =>
      if (x <? y)%N then true
      else if (x =? y)%N then str_leb a' b' else false
  end.

Definition str_le (a b : str) : Prop := str_leb a b = true.

Definition str_lt (a b : str) : Prop := str_le a b ∧ a ≠ b.

#[export] Instance str_le_dec a b : Decision (str_le a b).
Proof. unfold str_le. apply _. Defined.

(** [sorted(xs)] on strings. *)
Definition sorted (xs : list str) : list str := merge_sort str_le xs.

Definition semicolon : N := 59.

End PyStr.

Import PyStr.

(* ===================================================================== *)
(** ** Exceptions *)
(* ===================================================================== *)

(** [ValueError] is what the formatters raise themselves, and what
    scikit-learn raises for an input it rejects; [ZeroDivisionError] and
    [OverflowError] are what a division of two ints would raise,
    [IndexError] and [KeyError] what a list index or a dictionary index of
    the formatters would raise; [LibraryError] is any other exception
    raised inside a numeric library, which the formatters re-raise as it
    is ([except Exception: ... raise]). *)
Inductive exn :=
| ValueError (msg : str)
| ZeroDivisionError
| OverflowError
| IndexError
| KeyError (key : str)
| LibraryError (msg : str).

Inductive result (A : Type) :=
| OK (a : A)
| Raise (e : exn).

Arguments OK {A} a.
Arguments Raise {A} e.

#[export] Instance result_ret : MRet result := @OK.

#[export] Instance result_bind : MBind result := λ A B k r,
  match r with
  | OK a => k a
  | Raise e => Raise e
  end.

#[export] Instance result_fmap : FMap result := λ A B f r,
  match r with
  | OK a => OK (f a)
  | Raise e => Raise e
  end.

(** [[f(a) for a in l]], stopping at the first exception. *)
Fixpoint for_each {A B} (f : A → result B) (l : list A) : result (list B) :=
  match l with
  | [] => OK []
  | a :: l' => b ← f a; bs ← for_each f l'; OK (b :: bs)
  end.

(* ===================================================================== *)
(** ** Floats *)
(* ===================================================================== *)

Module PyFloat.

(** The quotient [a / b], [b] non-zero, read exactly. *)
Definition truediv (a b : Z) : Q := Qred (inject_Z a / inject_Z b).

Definition round_half_even (x : Q) : Z :=
  let n := Qnum x in
  let d := Zpos (Qden x) in
  let f := (n / d)%Z in
  match (2 * (n mod d) ?= d)%Z with
  | Lt => f
  | Gt => (f + 1)%Z
  | Eq => if Z.even f then f else (f + 1)%Z
  end.

(** A Python [float] is an IEEE 754 binary64 number. *)
Abbreviation float := spec_float.

Definition prec : Z := 53.
Definition emax : Z := 1024.

(** The number a finite float stands for. *)
Definition to_Q (x : float) : Q :=
  match x with
  | S754_finite s m e =>
      let v := (inject_Z (Z.pos m) * 2 ^ e)%Q in if s then (- v)%Q else v
  | _ => 0%Q
  end.

(** A Python int as the operand of a float operation. *)
Definition of_int (n : Z) : float :=
  match n with
  | Z0 => S754_zero false
  | Zpos p => S754_finite false p 0
  | Zneg p => S754_finite true p 0
  end.

(** The float nearest to the quotient of two ints. *)
Definition fdiv (a b : Z) : float := SFdiv prec emax (of_int a) (of_int b).

(** [a / b] on Python ints. *)
Definition int_truediv (a b : Z) : result float :=
  if (b =? 0)%Z then Raise ZeroDivisionError
  else
    match fdiv a b with
    | S754_infinity _ => Raise OverflowError
    | q => OK q
    end.

(** [x * y] on floats. *)
Definition fmul (x y : float) : float := SFmul prec emax x y.

(** The float that the decimal numeral [k * 10 ** -ndigits] denotes: the
    one nearest to it. *)
Definition decimal (k : Z) (ndigits : nat) : float :=
  fdiv k (10 ^ Z.of_nat ndigits).

(** [round(x, ndigits)] on a float, [ndigits >= 0]: the exact value of [x]
    is rounded to [ndigits] decimals, ties to even, and the decimal
    numeral is read back as a float; with more than 323 digits asked for,
    and for an infinity or a nan, [x] comes back as it is. *)
Definition round (x : float) (ndigits : nat) : float :=
  match x with
  | S754_finite s _ _ =>
      if 323 <? ndigits then x
      else
        match round_half_even (to_Q x * inject_Z (10 ^ Z.of_nat ndigits)) with
        | Z0 => S754_zero s
        | k => decimal k ndigits
        end
  | _ => x
  end.

(** A NumPy float64 scalar: division by zero does not raise, it gives
    [nan] (for [0/0]) or an infinity. *)
Inductive npfloat :=
| Fin (q : Q)
| NaN
| Inf (negative : bool).

Definition np_div (a b : Z) : npfloat :=
  if (b =? 0)%Z then
    if (a =? 0)%Z then NaN else Inf (a <? 0)%Z
  else Fin (truediv a b).

(** [1 - x] *)
Definition one_minus (x : npfloat) : npfloat :=
  match x with
  | Fin q => Fin (Qred (1 - q))
  | NaN => NaN
  | Inf s => Inf (negb s)
  end.

(** [0 <= x <= 1] *)
Definition in_unit_interval (x : npfloat) : Prop :=
  match x with
  | Fin q => (0 <= q)%Q ∧ (q <= 1)%Q
  | _ => False
  end.

End PyFloat.

Import PyFloat.

(* ===================================================================== *)
(** ** Counters *)
(* ===================================================================== *)

(** [collections.Counter] / [defaultdict(int)]: keys in insertion order. *)
Abbreviation counter K := (list (K * nat)).

Section Counter.
Context {K : Type} `{EqDecision K}.

(** [c[k] += 1] *)
Fixpoint incr (k : K) (c : counter K) : counter K :=
  match c with
  | [] => [(k, 1)]
  | (k', n) :: c' =>
      if decide (k = k') then (k', S n) :: c' else (k', n) :: incr k c'
  end.

(** [c.get(k, 0)] *)
Fixpoint count_of (k : K) (c : counter K) : nat :=
  match c with
  | [] => 0
  | (k', n) :: c' => if decide (k = k') then n else count_of k c'
  end.

(** The counter after [for k in ks: c[k] += 1]. *)
Definition count_all (ks : list K) : counter K :=
  foldl (λ c k, incr k c) [] ks.

Fixpoint insert_desc (x : K * nat) (l : list (K * nat)) : list (K * nat) :=
  match l with
  | [] => [x]
  | y :: l' => if y.2 <=? x.2 then x :: y :: l' else y :: insert_desc x l'
  end.

(** [c.most_common()]: [sorted(c.items(), key=itemgetter(1), reverse=True)],
    a stable sort, so equal counts keep their insertion order. *)
Definition most_common (c : counter K) : list (K * nat) :=
  foldr insert_desc [] c.

(** The order of [most_common]: larger counts first. *)
Definition by_count_desc (a b : K * nat) : Prop := b.2 ≤ a.2.

End Counter.

(* ===================================================================== *)
(** ** The job store and its records *)
(* ===================================================================== *)

(** One sequence record, as the analysis pipeline writes it: the taxonomy
    is a string; [taxonomy = None] is a record without the key.  (A null
    or a non-string value under the key is outside the model.) *)
Record sequence := Sequence { taxonomy : option str }.

Record analysis := Analysis { sequences : option (list sequence) }.

(** A row of table [analysis_jobs]. *)
Record job := Job {
  filename : option str;
  analysis_result : option analysis
}.

(** The table, keyed by job id. *)
Abbreviation store := (gmap str job).

(** [seq.get("taxonomy", "Unknown")] *)
Definition raw_lineage (s : sequence) : str :=
  default (py "Unknown") (taxonomy s).

(** [[p.strip() for p in taxonomy.split(";")]] *)
Definition parse_lineage (t : str) : list str :=
  strip <$> split semicolon t.

Definition parts_of (s : sequence) : list str := parse_lineage (raw_lineage s).

(** [job.get("analysis_result", {}).get("sequences", [])] *)
Definition job_sequences (j : job) : list sequence :=
  default [] (sequences (default (Analysis None) (analysis_result j))).

Definition not_found (job_id : str) : exn :=
  ValueError (py "No analysis found for job_id: " ++ job_id).

(** The fetch shared by the single-job formatters: the row's sequences, or
    the [ValueError] raised when [response.data] is empty.  (The query is
    taken to be answered: an error of the store client is outside the
    model.) *)
Definition fetch_sequences (db : store) (job_id : str) : result (list sequence) :=
  match db !! job_id with
  | None => Raise (not_found job_id)
  | Some j => OK (job_sequences j)
  end.

(* ===================================================================== *)
(** ** Taxonomic composition *)
(* ===================================================================== *)

Definition composition_rank_index : gmap str nat :=
  list_to_map [(py "domain", 0); (py "phylum", 1); (py "class", 2);
               (py "order", 3); (py "family", 4); (py "genus", 5);
               (py "species", 6)].

(** [idx = rank_index.get(rank.lower(), 1)] *)
Definition composition_idx (rank : str) : nat :=
  default 1 (composition_rank_index !! lower rank).

(** [parts[idx] if idx < len(parts) else "Unknown"] *)
Definition taxon_at (idx : nat) (parts : list str) : str :=
  default (py "Unknown") (parts !! idx).

Definition palette : list str :=
  py <$> ["#22D3EE"; "#10B981"; "#F59E0B"; "#EC4899"; "#A78BFA";
          "#3B82F6"; "#EF4444"; "#8B5CF6"; "#14B8A6"; "#F97316";
          "#06B6D4"; "#84CC16"; "#F43F5E"; "#6366F1"; "#64748B"]%string.

(** [while len(colors) < count: colors.extend(colors)]; every round doubles
    the list, so [count] rounds are more than enough. *)
Fixpoint extend_colors (fuel : nat) (colors : list str) (count : nat) : list str :=
  match fuel with
  | 0 => colors
  | S fuel' =>
      if length colors <? count
      then extend_colors fuel' (colors ++ colors) count
      else colors
  end.

Definition _generate_colors (count : nat) : list str :=
  take count (extend_colors count palette count).

Record entry := Entry {
  name : str;
  value : nat;
  percentage : float;
  color : str
}.

(** One round of the loop over [enumerate(rank_counts.most_common())]. *)
Definition composition_entry (total : nat) (colors : list str)
    (i : nat) (tc : str * nat) : result entry :=
  q ← int_truediv (Z.of_nat tc.2) (Z.of_nat total);
  let pct := round (fmul q (of_int 100)) 2 in
  match colors !! i with
  | None => Raise IndexError
  | Some c => OK (Entry tc.1 tc.2 pct c)
  end.

Definition composition_of (rank : str) (seqs : list sequence) : result (list entry) :=
  let idx := composition_idx rank in
  let rank_counts := count_all (taxon_at idx ∘ parts_of <$> seqs) in
  let total := sum_list (snd <$> rank_counts) in
  let colors := _generate_colors (length rank_counts) in
  for_each (λ it, composition_entry total colors it.1 it.2)
           (imap pair (most_common rank_counts)).

Definition get_taxonomic_composition (db : store) (job_id rank : str)
    : result (list entry) :=
  seqs ← fetch_sequences db job_id;
  composition_of rank seqs.

(* ===================================================================== *)
(** ** Heatmap *)
(* ===================================================================== *)

Definition heatmap_rank_index : gmap str nat :=
  list_to_map [(py "domain", 0); (py "phylum", 1); (py "class", 2);
               (py "order", 3); (py "family", 4); (py "genus", 5)].

(** [idx = rank_index.get(rank.lower(), 2)] *)
Definition heatmap_idx (rank : str) : nat :=
  default 2 (heatmap_rank_index !! lower rank).

Record heatmap := Heatmap {
  samples : list str;
  taxa : list str;
  matrix : list (list nat)
}.

(** The loop state: [heatmap_data["samples"]], [heatmap_data["taxa"]] and
    [sample_taxa_counts]. *)
Record heatmap_state := HeatmapState {
  hs_samples : list str;
  hs_taxa : gset str;
  hs_counts : gmap str (counter str)
}.

(** One round of [for job_id in job_ids]; a job that is not in the store
    is skipped ([continue]). *)
Definition heatmap_step (db : store) (rank : str)
    (st : heatmap_state) (job_id : str) : heatmap_state :=
  match db !! job_id with
  | None => st
  | Some j =>
      let sample_name := default (py "Unknown") (filename j) in
      let idx := heatmap_idx rank in
      let taxa_counts := count_all (taxon_at idx ∘ parts_of <$> job_sequences j) in
      HeatmapState (hs_samples st ++ [sample_name])
                   (hs_taxa st ∪ list_to_set taxa_counts.*1)
                   (<[sample_name := taxa_counts]> (hs_counts st))
  end.

Definition heatmap_row (st : heatmap_state) (taxa : list str) (sample : str)
    : result (list nat) :=
  match hs_counts st !! sample with
  | None => Raise (KeyError sample)
  | Some counts => OK ((λ taxon, count_of taxon counts) <$> taxa)
  end.

Definition get_heatmap_data (db : store) (job_ids : list str) (rank : str)
    : result heatmap :=
  let st := foldl (heatmap_step db rank) (HeatmapState [] ∅ ∅) job_ids in
  let taxa := sorted (elements (hs_taxa st)) in
  matrix ← for_each (heatmap_row st taxa) (hs_samples st);
  OK (Heatmap (hs_samples st) taxa matrix).

(* ===================================================================== *)
(** ** Hierarchy (Krona / sunburst) *)
(* ===================================================================== *)

(** A node of the working tree: [{"name", "value", "children": {...}}],
    the children dictionary in insertion order. *)
#[local] Unset Elimination Schemes.

Inductive node :=
| Node (nm : str) (v : nat) (children : list (str * node)).

Abbreviation dict := (list (str * node)).

Definition node_name (n : node) : str := let 'Node nm _ _ := n in nm.
Definition node_value (n : node) : nat := let 'Node _ v _ := n in v.
Definition node_children (n : node) : dict := let 'Node _ _ ch := n in ch.

(** [d.get(k)] *)
Fixpoint dict_get (k : str) (d : dict) : option node :=
  match d with
  | [] => None
  | (k', n) :: d' => if decide (k = k') then Some n else dict_get k d'
  end.

(** [d[k] = f(d.get(k))]: an existing key keeps its place, a new one goes
    to the end. *)
Fixpoint dict_update (k : str) (f : option node → node) (d : dict) : dict :=
  match d with
  | [] => [(k, f None)]
  | (k', n) :: d' =>
      if decide (k = k') then (k', f (Some n)) :: d'
      else (k', n) :: dict_update k f d'
  end.

(** The inner loop [for i, part in enumerate(parts)], run on the
    dictionary [current]: create the node when missing, count it, and go
    down into its children unless [part] is the last one. *)
Fixpoint add_lineage (parts : list str) (current : dict) : dict :=
  match parts with
  | [] => current
  | part :: rest =>
      dict_update part
        (λ o, let n := default (Node part 0 []) o in
              Node (node_name n) (S (node_value n))
                   match rest with
                   | [] => node_children n
                   | _ :: _ => add_lineage rest (node_children n)
                   end)
        current
  end.

(** [tree["children"]] after the loop over the sequences. *)
Definition build_tree (seqs : list sequence) : dict :=
  foldl (λ current s, add_lineage (parts_of s) current) [] seqs.

(** A node of the result; [None] children is a leaf. *)
Inductive hnode :=
| HNode (nm : str) (v : nat) (children : option (list hnode)).

#[local] Set Elimination Schemes.

Definition hname (n : hnode) : str := let 'HNode nm _ _ := n in nm.
Definition hvalue (n : hnode) : nat := let 'HNode _ v _ := n in v.
Definition hchildren (n : hnode) : option (list hnode) :=
  let 'HNode _ _ ch := n in ch.

Fixpoint dict_to_list (n : node) : hnode :=
  let 'Node nm v ch := n in
  let children :=
    (fix values (d : dict) : list hnode :=
       match d with
       | [] => []
       | (_, child) :: d' => dict_to_list child :: values d'
       end) ch in
  HNode nm v (match children with [] => None | _ :: _ => Some children end).

Record hierarchy := Hierarchy {
  h_name : str;
  h_children : list hnode
}.

Definition hierarchy_of (seqs : list sequence) : hierarchy :=
  Hierarchy (py "Life") ((dict_to_list ∘ snd) <$> build_tree seqs).

Definition get_hierarchical_data (db : store) (job_id : str) : result hierarchy :=
  seqs ← fetch_sequences db job_id;
  OK (hierarchy_of seqs).

(* ===================================================================== *)
(** ** Beta diversity *)
(* ===================================================================== *)

(** Modelled from the spec: [scipy.spatial.distance.braycurtis], which the
    source imports; the specification gives its formula,
    [sum(|a_k - b_k|) / sum(a_k + b_k)].  The quotient is a NumPy float
    division: [0/0] is [nan]. *)
Definition braycurtis (u v : list nat) : npfloat :=
  let l1_diff := zip_with (λ a b, Z.abs (Z.of_nat a - Z.of_nat b)) u v in
  let l1_sum := zip_with (λ a b, Z.abs (Z.of_nat a + Z.of_nat b)) u v in
  np_div (foldr Z.add 0%Z l1_diff) (foldr Z.add 0%Z l1_sum).

(** [np.zeros((n, n))], then [d[i][j] = braycurtis(matrix[i], matrix[j])]
    for every [i != j]. *)
Definition dissimilarity_matrix (n_samples : nat) (matrix : list (list nat))
    : list (list npfloat) :=
  (λ i, (λ j, if decide (i ≠ j)
              then braycurtis (default [] (matrix !! i)) (default [] (matrix !! j))
              else Fin 0)
        <$> seq 0 n_samples)
  <$> seq 0 n_samples.

(** The loop state: [sample_names], [abundance_vectors], [all_taxa]. *)
Record diversity_state := DiversityState {
  ds_names : list str;
  ds_vectors : list (counter str);
  ds_taxa : gset str
}.

(** One round of [for job_id in job_ids]; taxa are the raw lineage strings.
    A job that is not in the store is skipped ([continue]). *)
Definition diversity_step (db : store)
    (st : diversity_state) (job_id : str) : diversity_state :=
  match db !! job_id with
  | None => st
  | Some j =>
      let taxa_counts := count_all (raw_lineage <$> job_sequences j) in
      DiversityState (ds_names st ++ [default (py "Unknown") (filename j)])
                     (ds_vectors st ++ [taxa_counts])
                     (ds_taxa st ∪ list_to_set taxa_counts.*1)
  end.

Definition collect_samples (db : store) (job_ids : list str) : diversity_state :=
  foldl (diversity_step db) (DiversityState [] [] ∅) job_ids.

(** [matrix_data]: one row per sample over the sorted taxa. *)
Definition abundance_matrix (st : diversity_state) : list (list nat) :=
  let all_taxa := sorted (elements (ds_taxa st)) in
  (λ counts, (λ taxon, count_of taxon counts) <$> all_taxa) <$> ds_vectors st.

Record diversity := Diversity {
  d_samples : list str;
  d_dissimilarity : list (list npfloat);
  d_similarity : list (list npfloat);
  d_pcoa : list (list npfloat);
  d_explained_variance : list npfloat
}.

Section Diversity.

(** [PCA(n_components=2)] of scikit-learn is outside the repository: the
    pair of [fit_transform(matrix)] and [explained_variance_ratio_], or
    the exception the library raises. *)
Variable pca : list (list nat) → result (list (list npfloat) * list npfloat).

Definition calculate_beta_diversity (db : store) (job_ids : list str)
    : result diversity :=
  let st := collect_samples db job_ids in
  let matrix := abundance_matrix st in
  let n_samples := length (ds_names st) in
  let dis := dissimilarity_matrix n_samples matrix in
  fitted ← pca matrix;
  OK (Diversity (ds_names st) dis ((λ row : list npfloat, one_minus <$> row) <$> dis)
                fitted.1 fitted.2).

End Diversity.

(** Modelled from scikit-learn, which is outside the repository: what
    [PCA(n_components=2).fit_transform(X)] does with
    [X = np.array(matrix_data)] before any arithmetic.  Its input check
    rejects an array that is not two-dimensional (the empty list makes a
    one-dimensional array) and an array without features, and the fit
    rejects [n_components = 2] above [min(n_samples, n_features)]; each
    time with a [ValueError] whose message says what is wrong (the
    messages are cut to their opening words here).  An input that passes
    goes to the decomposition, [decompose], which is left open. *)
Definition PCA_fit_transform
    (decompose : list (list nat) → result (list (list npfloat) * list npfloat))
    (X : list (list nat)) : result (list (list npfloat) * list npfloat) :=
  match X with
  | [] => Raise (ValueError (py "Expected 2D array, got 1D array instead"))
  | row :: _ =>
      if length row =? 0 then
        Raise (ValueError (py "Found array with 0 feature(s)"))
      else if length X `min` length row <? 2 then
        Raise (ValueError (py "n_components=2 must be between 0 and min(n_samples, n_features)"))
      else decompose X
  end.

(* ===================================================================== *)
(** ** Sankey flow *)
(* ===================================================================== *)

Definition rank_names : list str :=
  py <$> ["Start"; "Domain"; "Phylum"; "Class"; "Order"]%string.

(** [parts[i] if i < len(parts) else f"Unknown {ranks[i]}"] *)
Definition level (parts : list str) (i : nat) : str :=
  default (py "Unknown " ++ default [] (rank_names !! i)) (parts !! i).

(** The loop state: [nodes_set] and [flows]. *)
Record flow_state := FlowState {
  nodes_set : gset str;
  flows : counter (str * str)
}.

(** One round of [for i in range(max_levels - 1)]. *)
Definition edge_step (parts : list str) (st : flow_state) (i : nat) : flow_state :=
  let source := level parts i in
  let target := level parts (i + 1) in
  FlowState ({[target]} ∪ ({[source]} ∪ nodes_set st))
            (incr (source, target) (flows st)).

(** One round of [for seq in sequences]. *)
Definition lineage_step (st : flow_state) (s : sequence) : flow_state :=
  let parts := py "Start" :: parts_of s in
  let max_levels := 5 `min` length parts in
  foldl (edge_step parts) st (seq 0 (max_levels - 1)).

Definition collect_flows (seqs : list sequence) : flow_state :=
  foldl lineage_step (FlowState {[py "Start"]} []) seqs.

Record link := Link {
  source : nat;
  target : nat;
  link_value : nat
}.

Record sankey := Sankey {
  nodes : list (nat * str);
  links : list link
}.

(** [d[name] = idx] *)
Definition add_index (d : gmap str nat) (it : nat * str) : gmap str nat :=
  <[it.2 := it.1]> d.

(** [{name: idx for idx, name in enumerate(nodes_list)}] *)
Definition node_indices (nodes_list : list str) : gmap str nat :=
  foldl add_index ∅ (imap pair nodes_list).

(** [d[k]] *)
Definition index_of (d : gmap str nat) (k : str) : result nat :=
  match d !! k with
  | None => Raise (KeyError k)
  | Some i => OK i
  end.

Definition make_link (d : gmap str nat) (flow : (str * str) * nat) : result link :=
  s ← index_of d flow.1.1;
  t ← index_of d flow.1.2;
  OK (Link s t flow.2).

(** The part of [get_sankey_data] after the loops, for one order
    [listed] in which [list(nodes_set)] enumerates the set. *)
Definition sankey_from (listed : list str) (fl : counter (str * str)) : result sankey :=
  let nodes_list := sorted listed in
  let indices := node_indices nodes_list in
  links ← for_each (make_link indices) fl;
  OK (Sankey (imap pair nodes_list) links).

Definition sankey_of (seqs : list sequence) : result sankey :=
  let st := collect_flows seqs in
  sankey_from (elements (nodes_set st)) (flows st).

Definition get_sankey_data (db : store) (job_id : str) : result sankey :=
  seqs ← fetch_sequences db job_id;
  sankey_of seqs.

(* ===================================================================== *)
(** ** Job retrieval and the HTTP surface *)
(* ===================================================================== *)

(** [get_job_by_id]: the row with that id, or [None]. *)
Definition get_job_by_id (db : store) (job_id : str) : option job :=
  db !! job_id.

(** The [detail] of an [HTTPException]: a literal, or [str(e)] of the
    exception that was caught. *)
Inductive detail :=
| Message (s : str)
| StrOf (e : exn).

(** What a handler does: return a body, which the framework then
    serialises (that step is outside the model), or raise
    [HTTPException], which the framework answers with that status and
    detail. *)
Inductive http (A : Type) :=
| Respond (body : A)
| HTTPException (status_code : nat) (d : detail).

Arguments Respond {A} body.
Arguments HTTPException {A} status_code d.

Definition comma : N := 44.

(** [local_api.py]: the database object always exists. *)
Module LocalApi.

(** [try: return f(...)  except Exception as e: raise HTTPException(500, str(e))] *)
Definition or_500 {A} (r : result A) : http A :=
  match r with
  | OK a => Respond a
  | Raise e => HTTPException 500 (StrOf e)
  end.

Definition get_composition (db : store) (job_id : str) (rank : option str)
    : http (list entry) :=
  or_500 (get_taxonomic_composition db job_id (default (py "phylum") rank)).

Definition get_hierarchy (db : store) (job_id : str) : http hierarchy :=
  or_500 (get_hierarchical_data db job_id).

Definition get_sankey (db : store) (job_id : str) : http sankey :=
  or_500 (get_sankey_data db job_id).

Definition get_heatmap (db : store) (job_ids : str) (rank : option str)
    : http heatmap :=
  or_500 (get_heatmap_data db (split comma job_ids) (default (py "class") rank)).

Definition get_diversity
    (pca : list (list nat) → result (list (list npfloat) * list npfloat))
    (db : store) (job_ids : str) : http diversity :=
  or_500 (calculate_beta_diversity pca db (split comma job_ids)).

Definition get_job (db : store) (job_id : str) : http job :=
  match get_job_by_id db job_id with
  | None => HTTPException 404 (Message (py "Job not found"))
  | Some j => Respond j
  end.

End LocalApi.

(** [backend/main_with_db.py]: the database object is [None] when it could
    not be set up at start. *)
Module Backend.

(** [if db is None: raise HTTPException(503, "Database not available")] *)
Definition with_db {T : Type} (db : option store) (k : store → http T) : http T :=
  match db with
  | None => HTTPException 503 (Message (py "Database not available"))
  | Some d => k d
  end.

Definition or_500 {A} (r : result A) : http A :=
  match r with
  | OK a => Respond a
  | Raise e => HTTPException 500 (StrOf e)
  end.

Definition get_composition (db : option store) (job_id : str) (rank : option str)
    : http (list entry) :=
  with_db db (λ d,
    or_500 (get_taxonomic_composition d job_id (default (py "phylum") rank))).

Definition get_hierarchy (db : option store) (job_id : str) : http hierarchy :=
  with_db db (λ d, or_500 (get_hierarchical_data d job_id)).

Definition get_sankey (db : option store) (job_id : str) : http sankey :=
  with_db db (λ d, or_500 (get_sankey_data d job_id)).

Definition get_heatmap (db : option store) (job_ids : str) (rank : option str)
    : http heatmap :=
  with_db db (λ d,
    or_500 (get_heatmap_data d (split comma job_ids) (default (py "class") rank))).

Definition get_diversity
    (pca : list (list nat) → result (list (list npfloat) * list npfloat))
    (db : option store) (job_ids : str) : http diversity :=
  with_db db (λ d, or_500 (calculate_beta_diversity pca d (split comma job_ids))).

Definition get_job (db : option store) (job_id : str) : http job :=
  with_db db (λ d,
    match get_job_by_id d job_id with
    | None => HTTPException 404 (Message (py "Job not found"))
    | Some j => Respond j
    end).

End Backend.

(* ===================================================================== *)
(** ** Vocabulary of the properties *)
(* ===================================================================== *)

Definition sumQ (l : list Q) : Q := foldr Qplus 0%Q l.

(** [x], in units of [2 ^ e], lies in [[m, m + 1)]. *)
Definition truncated (x : Q) (e m : Z) : Prop :=
  (0 ≤ m)%Z ∧ (inject_Z m * 2 ^ e <= x)%Q ∧ (x < inject_Z (m + 1) * 2 ^ e)%Q.

(** What [binary_round_aux] returns for a number [0 <= x < 2 ^ E]: zero or
    a positive float, at most four units of [2 ^ fexp E] away from [x]. *)
Definition near (x : Q) (E : Z) (r : float) : Prop :=
  match r with
  | S754_zero false => True
  | S754_finite false _ e => (e ≤ fexp prec emax E + 1)%Z
  | _ => False
  end
  ∧ (Qabs (to_Q r - x) <= 2 ^ (fexp prec emax E + 2))%Q.

(** The percentage of one entry. *)
Definition percentage_of (total count : nat) : float :=
  round (fmul (fdiv (Z.of_nat count) (Z.of_nat total)) (of_int 100)) 2.

(** The labels counted by [composition_of]: one per sequence record. *)
Definition labels_at (idx : nat) (seqs : list sequence) : list str :=
  taxon_at idx ∘ parts_of <$> seqs.

(** The labels of one lineage that the flow diagram looks at: the virtual
    "Start" and the first four levels. *)
Definition window (s : sequence) : list str :=
  py "Start" :: take 4 (parts_of s).

(** The pairs of neighbours of a list, in order. *)
Fixpoint consecutive {A} (l : list A) : list (A * A) :=
  match l with
  | [] => []
  | a :: l' =>
      match l' with
      | [] => []
      | b :: _ => (a, b) :: consecutive l'
      end
  end.

Definition edges_of (s : sequence) : list (str * str) := consecutive (window s).

Definition all_edges (seqs : list sequence) : list (str * str) :=
  mjoin (edges_of <$> seqs).

Definition label_set (seqs : list sequence) : gset str :=
  list_to_set (mjoin (window <$> seqs)) ∪ {[py "Start"]}.

(** What a link says about a flow, read through the node list. *)
Definition link_of (nodes_list : list str) (flow : (str * str) * nat) (l : link)
    : Prop :=
  nodes_list !! source l = Some flow.1.1
  ∧ nodes_list !! target l = Some flow.1.2
  ∧ link_value l = flow.2.

(** The node reached from the dictionary [d] along the labels [p]. *)
Fixpoint find_path (p : list str) (d : dict) : option node :=
  match p with
  | [] => None
  | k :: p' =>
      match dict_get k d with
      | None => None
      | Some n =>
          match p' with
          | [] => Some n
          | _ :: _ => find_path p' (node_children n)
          end
      end
  end.

(** The sum of the counts of the nodes of a dictionary. *)
Fixpoint forest_sum (d : dict) : nat :=
  match d with
  | [] => 0
  | (_, n) :: d' => node_value n + forest_sum d'
  end.

(** What one pass of the inner loop does to the node for [part], [rest]
    being the parts after it. *)
Definition bump (rest : list str) (part : str) (o : option node) : node :=
  let n := default (Node part 0 []) o in
  Node (node_name n) (S (node_value n)) (add_lineage rest (node_children n)).

(** Keys are distinct and every node is stored under its own name, all
    the way down. *)
#[warnings="-register-all"]
Inductive wf : dict → Prop :=
| wf_intro d :
    NoDup d.*1 →
    (∀ k n, (k, n) ∈ d → node_name n = k ∧ wf (node_children n)) →
    wf d.

(** The nodes of the result, with the labels that lead to them. *)
Inductive at_path : list str → hnode → list hnode → Prop :=
| at_here n ns : n ∈ ns → at_path [hname n] n ns
| at_below n ns ch p m :
    n ∈ ns → hchildren n = Some ch → at_path p m ch →
    at_path (hname n :: p) m ns.

(** The sum of the counts of the direct children; 0 for a leaf. *)
Definition hchildren_total (n : hnode) : nat :=
  sum_list (hvalue <$> default [] (hchildren n)).

(** The lineages of a collection, parsed. *)
Definition lineages (seqs : list sequence) : list (list str) :=
  parts_of <$> seqs.

(** The number of lineages that are exactly [p]. *)
Definition ending_at (p : list str) (ls : list (list str)) : nat :=
  length (filter (p =.) ls).

(** The children list of the result for a dictionary. *)
Definition out (d : dict) : list hnode := (dict_to_list ∘ snd) <$> d.

Definition top_level (r : result hierarchy) : list (str * nat * nat) :=
  match r with
  | OK h => (λ n, (hname n, hvalue n, length (default [] (hchildren n))))
              <$> h_children h
  | Raise _ => []
  end.

(** The entry of a matrix at row [i], column [j]. *)
Definition cell {A} (m : list (list A)) (i j : nat) : option A :=
  m !! i ≫= (.!! j).

(** The jobs of a request that are in the store, in the order of the
    request. *)
Definition present_jobs (db : store) (job_ids : list str) : list job :=
  omap (λ job_id, db !! job_id) job_ids.

(** [str(job.get("filename", "Unknown"))] *)
Definition sample_name (j : job) : str := default (py "Unknown") (filename j).

(** The last job of a list that has a given sample name. *)
Definition last_named (name : str) (jobs : list job) : option job :=
  last (filter (λ j, sample_name j = name) jobs).

(** The number of records of a job with a given label at a rank index. *)
Definition records_labelled (idx : nat) (t : str) (j : job) : nat :=
  length (filter (λ s, t = taxon_at idx (parts_of s)) (job_sequences j)).

(** The number of lineages that start with the labels [p]. *)
Definition passing_through (p : list str) (ls : list (list str)) : nat :=
  length (filter (λ l, p `prefix_of` l) ls).

(** The raw lineage strings of the records of a job. *)
Definition raw_lineages (j : job) : list str :=
  raw_lineage <$> job_sequences j.

(* ===================================================================== *)
(** ** Example stores *)
(* ===================================================================== *)

(** Sequence records with the given taxonomy strings. *)
Definition seqs_of (ls : list string) : list sequence :=
  (λ s, Sequence (Some (py s))) <$> ls.

(** The specification's example job: three records, two of one phylum. *)
Definition example_store : store :=
  {[ py "job-1" :=
       Job (Some (py "sample.fasta"))
           (Some (Analysis (Some (seqs_of
              ["Eukaryota;Alveolata;Dinoflagellata";
               "Eukaryota;Chlorophyta;Chlorophyceae";
               "Eukaryota;Alveolata;Ciliophora"]%string)))) ]}.

Definition empty_job_store : store :=
  {[ py "job-0" := Job (Some (py "empty.fasta")) (Some (Analysis (Some []))) ]}.

Definition two_domain_store : store :=
  {[ py "job-2" :=
       Job (Some (py "domains.fasta"))
           (Some (Analysis (Some (seqs_of ["Bacteria"; "Eukaryota"]%string)))) ]}.

Definition nested_store : store :=
  {[ py "job-4" :=
       Job (Some (py "nested.fasta"))
           (Some (Analysis (Some (seqs_of ["A"; "A;B"]%string)))) ]}.

(** The end-to-end scenario of the specification: five lineages over five
    phyla. *)
Definition five_phyla_store : store :=
  {[ py "job-5" :=
       Job (Some (py "test_sample.fasta"))
           (Some (Analysis (Some (seqs_of
              ["Eukaryota; Alveolata; Dinoflagellata; Gymnodiniales";
               "Eukaryota; Chlorophyta; Chlorophyceae; Chlamydomonadales";
               "Eukaryota; Metazoa; Arthropoda; Copepoda";
               "Eukaryota; Rhodophyta; Florideophyceae; Ceramiales";
               "Eukaryota; Fungi; Ascomycota; Saccharomycetales"]%string)))) ]}.

Definition sparse_store : store :=
  {[ py "a" := Job (Some (py "a.fasta")) (Some (Analysis (Some [])));
     py "b" := Job (Some (py "b.fasta")) (Some (Analysis (Some [])));
     py "c" := Job (Some (py "c.fasta"))
                   (Some (Analysis (Some (seqs_of ["X"; "Y"]%string)))) ]}.

Definition mixed_store : store :=
  {[ py "m" := Job (Some (py "m.fasta"))
                   (Some (Analysis (Some (seqs_of ["X"; "X"; "Y"]%string))));
     py "n" := Job (Some (py "n.fasta"))
                   (Some (Analysis (Some (seqs_of ["Y"; "Z"]%string)))) ]}.

(** A stand-in for a PCA call that returns. *)
Definition pca_returns (m : list (list nat))
    : result (list (list npfloat) * list npfloat) :=
  OK ((λ _, [Fin 0; Fin 0]) <$> m, [Fin 0; Fin 0]).

Definition two_empty_store : store :=
  {[ py "a" := Job (Some (py "a.fasta")) (Some (Analysis (Some [])));
     py "b" := Job (Some (py "b.fasta")) (Some (Analysis (Some []))) ]}.

(* ===================================================================== *)
(** * Properties *)

(* ===================================================================== *)

(** ** Strings: splitting and trimming *)

Lemma split_nonempty sep s : split sep s ≠ [].
Proof.
  destruct s as [|c s]; simpl; [done|].
  destruct (c =? sep)%N; [done|]. by destruct (split sep s).
Qed.

Lemma join_cons_cons sep seg seg' segs :
  join sep (seg :: seg' :: segs) = seg ++ sep :: join sep (seg' :: segs).
Proof. done. Qed.

Lemma join_split sep s : join sep (split sep s) = s.
Proof.
  induction s as [|c s IH]; [done|].
  pose proof (split_nonempty sep s) as Hs.
  cbn [split]. destruct (N.eqb_spec c sep) as [->|Hne].
  - destruct (split sep s) as [|seg segs]; [done|].
    rewrite join_cons_cons, IH. done.
  - destruct (split sep s) as [|seg segs]; [done|].
    destruct segs as [|seg' segs].
    + cbn [join] in *. by rewrite IH.
    + rewrite join_cons_cons in *. rewrite <- IH. done.
Qed.

Lemma split_no_sep sep s : Forall (λ seg, sep ∉ seg) (split sep s).
Proof.
  induction s as [|c s IH]; simpl.
  - repeat constructor. apply not_elem_of_nil.
  - destruct (N.eqb_spec c sep) as [->|Hne].
    + constructor; [apply not_elem_of_nil | done].
    + destruct (split sep s) as [|seg segs].
      * repeat constructor. set_solver.
      * apply Forall_cons in IH as [Hseg Hsegs].
        constructor; [|done]. set_solver.
Qed.

Lemma lstrip_spec s :
  ∃ l, s = l ++ lstrip s ∧ forallb is_space l = true
       ∧ from_option is_space false (head (lstrip s)) = false.
Proof.
  induction s as [|c s (l & Hs & Hl & Hh)]; simpl.
  - by exists [].
  - destruct (is_space c) eqn:Hc.
    + exists (c :: l). simpl. rewrite Hc, Hl. split; [by f_equal | done].
    + exists []. simpl. by rewrite Hc.
Qed.

Lemma rstrip_spec s :
  ∃ r, s = rstrip s ++ r ∧ forallb is_space r = true
       ∧ from_option is_space false (last (rstrip s)) = false.
Proof.
  unfold rstrip. destruct (lstrip_spec (reverse s)) as (l & Hs & Hl & Hh).
  exists (reverse l). split_and!.
  - rewrite <- reverse_app, <- Hs. by rewrite reverse_involutive.
  - rewrite forallb_forall in *. intros c Hc. apply Hl.
    apply list_elem_of_In. apply list_elem_of_In in Hc.
    by rewrite elem_of_reverse in Hc.
  - by rewrite last_reverse.
Qed.

Lemma strip_spec s :
  ∃ l r, s = l ++ strip s ++ r
         ∧ forallb is_space l = true ∧ forallb is_space r = true
         ∧ from_option is_space false (head (strip s)) = false
         ∧ from_option is_space false (last (strip s)) = false.
Proof.
  unfold strip.
  destruct (lstrip_spec s) as (l & Hs & Hl & Hh).
  destruct (rstrip_spec (lstrip s)) as (r & Hs' & Hr & Hla).
  exists l, r. split_and!; try done.
  - by rewrite <- Hs'.
  - destruct (rstrip (lstrip s)) as [|c t] eqn:E; [done|].
    rewrite Hs' in Hh. done.
Qed.

(** ** The exception monad *)

Lemma for_each_OK {A B} (f : A → result B) l l' :
  for_each f l = OK l' ↔ Forall2 (λ a b, f a = OK b) l l'.
Proof.
  revert l'. induction l as [|a l IH]; intros l'; simpl.
  - split; [intros [= <-]; constructor | by inversion 1].
  - destruct (f a) as [b|e] eqn:Ha; simpl.
    + destruct (for_each f l) as [bs|e] eqn:Hl; simpl.
      * split.
        -- intros [= <-]. constructor; [done|]. by apply IH.
        -- inversion 1 as [|? b' ? bs' Hb Hbs]; subst.
           apply IH in Hbs. congruence.
      * split; [done|]. inversion 1 as [|? b' ? bs' Hb Hbs]; subst.
        apply IH in Hbs. done.
    + split; [done|]. inversion 1; congruence.
Qed.

Lemma for_each_total {A B} (f : A → result B) l :
  Forall (λ a, ∃ b, f a = OK b) l → ∃ l', for_each f l = OK l'.
Proof.
  induction 1 as [|a l [b Hb] _ [bs Hbs]]; simpl; [by eexists|].
  rewrite Hb. simpl. rewrite Hbs. by eexists.
Qed.

(** ** Counters *)

Section CounterFacts.
Context {K : Type} `{EqDecision K}.
Implicit Types (k : K) (c : counter K) (ks : list K).

Lemma count_of_incr k k' c :
  count_of k' (incr k c) =
    if decide (k' = k) then S (count_of k' c) else count_of k' c.
Proof.
  induction c as [|[k0 n] c IH]; simpl.
  - repeat case_decide; congruence.
  - repeat (case_decide; simpl; subst); try congruence.
Qed.

Lemma keys_incr k c :
  (incr k c).*1 = if decide (k ∈ c.*1) then c.*1 else c.*1 ++ [k].
Proof.
  induction c as [|[k0 n] c IH]; [done|].
  cbn [incr]. rewrite fmap_cons. cbn [fst].
  destruct (decide (k = k0)) as [->|Hne]; rewrite fmap_cons; cbn [fst].
  - rewrite decide_True; [done | by left].
  - rewrite IH. destruct (decide (k ∈ c.*1)) as [Hin|Hnin].
    + rewrite decide_True; [done | by right].
    + rewrite decide_False; [done|]. by intros [?|?]%elem_of_cons.
Qed.

Lemma NoDup_keys_incr k c : NoDup c.*1 → NoDup (incr k c).*1.
Proof.
  intros Hnd. rewrite keys_incr. case_decide as Hin; [done|].
  apply NoDup_app. split_and!; [done| |apply NoDup_singleton].
  intros x Hx ->%list_elem_of_singleton. done.
Qed.

Lemma sum_incr k c : sum_list (incr k c).*2 = S (sum_list c.*2).
Proof.
  induction c as [|[k0 n] c IH]; [done|].
  cbn [incr]. case_decide; rewrite !fmap_cons; cbn [snd sum_list]; [done|].
  rewrite IH. lia.
Qed.

Lemma count_of_notin k c : k ∉ c.*1 → count_of k c = 0.
Proof.
  induction c as [|[k0 n] c IH]; [done|].
  rewrite fmap_cons, not_elem_of_cons. cbn [fst count_of]. intros [Hne Hnin].
  rewrite decide_False; [by apply IH | done].
Qed.

Lemma count_of_lookup k n c : NoDup c.*1 → (k, n) ∈ c → count_of k c = n.
Proof.
  induction c as [|[k0 n0] c IH]; [by intros _ ?%elem_of_nil|].
  rewrite fmap_cons. cbn [fst count_of].
  intros [Hnin Hnd]%NoDup_cons [[= -> ->]|Hin]%elem_of_cons.
  - by rewrite decide_True.
  - rewrite decide_False; [by apply IH|].
    intros ->. apply Hnin. apply list_elem_of_fmap. by exists (k0, n).
Qed.

(** The counter a loop leaves behind, from any starting counter. *)
Lemma foldl_incr_count k ks c :
  count_of k (foldl (λ c k, incr k c) c ks) =
    count_of k c + length (filter (k =.) ks).
Proof.
  revert c. induction ks as [|k0 ks IH]; intros c; simpl; [lia|].
  rewrite IH, count_of_incr. rewrite filter_cons.
  repeat case_decide; simpl; try congruence; lia.
Qed.

Lemma foldl_incr_keys k ks c :
  k ∈ (foldl (λ c k, incr k c) c ks).*1 ↔ k ∈ c.*1 ∨ k ∈ ks.
Proof.
  revert c. induction ks as [|k0 ks IH]; intros c; simpl; [set_solver|].
  rewrite IH, keys_incr. case_decide; set_solver.
Qed.

Lemma foldl_incr_NoDup ks c :
  NoDup c.*1 → NoDup (foldl (λ c k, incr k c) c ks).*1.
Proof.
  revert c. induction ks as [|k0 ks IH]; intros c Hc; simpl; [done|].
  by apply IH, NoDup_keys_incr.
Qed.

Lemma foldl_incr_sum ks c :
  sum_list (foldl (λ c k, incr k c) c ks).*2 = sum_list c.*2 + length ks.
Proof.
  revert c. induction ks as [|k0 ks IH]; intros c; simpl; [lia|].
  rewrite IH, sum_incr. lia.
Qed.

Lemma count_all_count k ks :
  count_of k (count_all ks) = length (filter (k =.) ks).
Proof. unfold count_all. by rewrite foldl_incr_count. Qed.

Lemma count_all_keys k ks : k ∈ (count_all ks).*1 ↔ k ∈ ks.
Proof. unfold count_all. rewrite foldl_incr_keys. set_solver. Qed.

Lemma count_all_NoDup ks : NoDup (count_all ks).*1.
Proof. apply foldl_incr_NoDup. constructor. Qed.

Lemma count_all_sum ks : sum_list (count_all ks).*2 = length ks.
Proof. unfold count_all. by rewrite foldl_incr_sum. Qed.

Lemma count_all_bounds ks k n : (k, n) ∈ count_all ks → 0 < n ≤ length ks.
Proof.
  intros Hin.
  rewrite <- (count_of_lookup k n (count_all ks)); [|apply count_all_NoDup|done].
  rewrite count_all_count. split; [|apply length_filter].
  assert (k ∈ ks) as Hk.
  { apply count_all_keys, list_elem_of_fmap. by exists (k, n). }
  assert (k ∈ filter (k =.) ks) as Hf by (by apply list_elem_of_filter).
  destruct (filter _ ks); [by apply elem_of_nil in Hf | simpl; lia].
Qed.

Lemma count_all_app ks ks' :
  count_all (ks ++ ks') = foldl (λ c k, incr k c) (count_all ks) ks'.
Proof. unfold count_all. by rewrite foldl_app. Qed.

Lemma insert_desc_perm (x : K * nat) l : insert_desc x l ≡ₚ x :: l.
Proof.
  induction l as [|y l IH]; simpl; [done|].
  destruct (y.2 <=? x.2); [done|]. rewrite IH. apply Permutation_swap.
Qed.

Lemma most_common_perm c : most_common c ≡ₚ c.
Proof.
  induction c as [|x c IH]; simpl; [done|].
  by rewrite insert_desc_perm, IH.
Qed.

Lemma insert_desc_sorted (x : K * nat) l :
  StronglySorted by_count_desc l → StronglySorted by_count_desc (insert_desc x l).
Proof.
  induction 1 as [|y l Hl IH Hy]; simpl; [repeat constructor|].
  destruct (Nat.leb_spec (y.2) (x.2)) as [Hle|Hgt].
  - constructor; [by constructor|]. constructor; [done|].
    eapply Forall_impl; [exact Hy|]. unfold by_count_desc. simpl. lia.
  - constructor; [done|]. rewrite insert_desc_perm.
    constructor; [unfold by_count_desc; lia | done].
Qed.

Lemma most_common_sorted c : StronglySorted by_count_desc (most_common c).
Proof.
  induction c as [|x c IH]; simpl; [constructor|].
  by apply insert_desc_sorted.
Qed.

End CounterFacts.

Lemma length_filter_fmap {A B} (P : B → Prop) `{∀ b, Decision (P b)}
    (f : A → B) (l : list A) :
  length (filter P (f <$> l)) = length (filter (P ∘ f) l).
Proof.
  induction l as [|a l IH]; [done|].
  rewrite fmap_cons, !filter_cons. simpl.
  destruct (decide (P (f a))); simpl; by rewrite IH.
Qed.

Lemma snd_imap_pair {A} (l : list A) : snd <$> imap pair l = l.
Proof.
  apply list_eq. intros i. rewrite list_lookup_fmap, list_lookup_imap.
  by destruct (l !! i).
Qed.

Lemma fst_imap_pair {A} (l : list A) : fst <$> imap pair l = seq 0 (length l).
Proof.
  apply list_eq. intros i. rewrite list_lookup_fmap, list_lookup_imap.
  destruct (l !! i) as [x|] eqn:Hi; simpl.
  - symmetry. apply lookup_seq. split; [done|]. by apply lookup_lt_Some in Hi.
  - symmetry. apply lookup_ge_None. rewrite length_seq.
    by apply lookup_ge_None in Hi.
Qed.

(** ** Rounding *)

Lemma round_half_even_bound (x : Q) :
  (Qabs (inject_Z (round_half_even x) - x) <= 1 # 2)%Q.
Proof.
  destruct x as [n d]. unfold round_half_even. cbn [Qnum Qden].
  pose proof (Z.div_mod n (Z.pos d) ltac:(lia)) as Hdm.
  pose proof (Z.mod_pos_bound n (Z.pos d) ltac:(lia)) as Hr.
  set (f := (n / Z.pos d)%Z) in *. set (r := (n mod Z.pos d)%Z) in *.
  apply Qabs_Qle_condition.
  unfold Qle, Qminus, Qplus, Qopp, inject_Z. cbn [Qnum Qden].
  destruct (Z.compare_spec (2 * r) (Z.pos d)) as [He|Hl|Hg];
    [destruct (Z.even f)|..]; split; nia.
Qed.

(** ** Binary64 arithmetic

    [binary_round_aux] is followed through its two shifts: what it returns
    for a number below [2 ^ E] is within four units of [2 ^ fexp E] of that
    number.  The bound is coarser than the half unit that rounding to
    nearest achieves, and all that the percentages need. *)

Section Binary64.
Local Open Scope Z_scope.

Lemma pow2_pos (e : Z) : (0 < 2 ^ e)%Q.
Proof. apply Qpower_0_lt. reflexivity. Qed.

Lemma pow2_add (a b : Z) : (2 ^ (a + b) == 2 ^ a * 2 ^ b)%Q.
Proof. apply Qpower_plus. discriminate. Qed.

Lemma pow2_succ (e : Z) : (2 ^ (e + 1) == 2 * 2 ^ e)%Q.
Proof. rewrite pow2_add. change (2 ^ 1)%Q with 2%Q. ring. Qed.

Lemma pow2_nonneg_ge1 (n : Z) : 0 ≤ n → (1 <= 2 ^ n)%Q.
Proof.
  intros Hn. rewrite <- (Z2Nat.id n) by done.
  induction (Z.to_nat n) as [|k IH]; [by vm_compute|].
  rewrite Nat2Z.inj_succ, <- Z.add_1_r, pow2_succ. lra.
Qed.

Lemma pow2_le (a b : Z) : a ≤ b → (2 ^ a <= 2 ^ b)%Q.
Proof.
  intros Hab. replace b with (a + (b - a)) by lia. rewrite pow2_add.
  pose proof (pow2_pos a). pose proof (pow2_nonneg_ge1 (b - a) ltac:(lia)).
  nra.
Qed.

Lemma pow2_lt_inv (a b : Z) : (2 ^ a < 2 ^ b)%Q → a < b.
Proof.
  intros Hlt. destruct (Z.lt_ge_cases a b) as [|Hge]; [done|].
  apply pow2_le in Hge. lra.
Qed.

Lemma pow2_inject (n : Z) : 0 ≤ n → (inject_Z (2 ^ n) == 2 ^ n)%Q.
Proof. intros Hn. by rewrite Zpower_Qpower. Qed.

Lemma shr_1_truncated x e mrs :
  truncated x e (shr_m mrs) → truncated x (e + 1) (shr_m (shr_1 mrs)).
Proof.
  destruct mrs as [m r s]. cbn [shr_m]. intros (Hm & Hlo & Hhi).
  pose proof (pow2_pos e) as Hp.
  unfold truncated. rewrite pow2_succ.
  destruct m as [|[p|p|]|p]; cbn [shr_1 shr_m]; try lia.
  - change (inject_Z (0 + 1)) with 1%Q in *.
    change (inject_Z 0) with 0%Q in *.
    split; [lia|]. split; lra.
  - split; [lia|]. revert Hlo Hhi.
    replace (Z.pos p~1 + 1) with (2 * (Z.pos p + 1)) by lia.
    replace (Z.pos p~1) with (2 * Z.pos p + 1) by lia.
    repeat (rewrite inject_Z_plus || rewrite inject_Z_mult).
    change (inject_Z 2) with 2%Q. change (inject_Z 1) with 1%Q.
    generalize (inject_Z (Z.pos p)), (2 ^ e)%Q, Hp. intros a P HP; split; nra.
  - split; [lia|]. revert Hlo Hhi.
    replace (Z.pos p~0 + 1) with (2 * Z.pos p + 1) by lia.
    replace (Z.pos p~0) with (2 * Z.pos p) by lia.
    repeat (rewrite inject_Z_plus || rewrite inject_Z_mult).
    change (inject_Z 2) with 2%Q. change (inject_Z 1) with 1%Q.
    generalize (inject_Z (Z.pos p)), (2 ^ e)%Q, Hp. intros a P HP; split; nra.
  - split; [lia|]. revert Hlo Hhi.
    change (inject_Z (1 + 1)) with 2%Q. change (inject_Z (0 + 1)) with 1%Q.
    change (inject_Z 1) with 1%Q. change (inject_Z 0) with 0%Q.
    intros; split; nra.
Qed.

Lemma iter_shr_1_truncated x p : ∀ e mrs,
  truncated x e (shr_m mrs) →
  truncated x (e + Z.pos p) (shr_m (SpecFloat.iter_pos shr_1 p mrs)).
Proof.
  induction p as [p IH|p IH|]; intros e mrs Hx; cbn [SpecFloat.iter_pos].
  - replace (e + Z.pos p~1) with (e + 1 + Z.pos p + Z.pos p) by lia.
    by apply IH, IH, shr_1_truncated.
  - replace (e + Z.pos p~0) with (e + Z.pos p + Z.pos p) by lia.
    by apply IH, IH.
  - by apply shr_1_truncated.
Qed.

Lemma shr_fexp_truncated x e m l :
  truncated x e m →
  ∃ mrs',
    shr_fexp prec emax m e l
    = (mrs', Z.max e (fexp prec emax (Zdigits2 m + e)))
    ∧ truncated x (Z.max e (fexp prec emax (Zdigits2 m + e))) (shr_m mrs').
Proof.
  intros Hx. unfold shr_fexp, shr.
  assert (shr_m (shr_record_of_loc m l) = m) as Hm
    by (by destruct l as [|[]]).
  destruct (fexp prec emax (Zdigits2 m + e) - e) as [|n|n] eqn:Hn.
  - eexists. split; [f_equal; lia|]. rewrite Hm.
    by replace (Z.max e _) with e by lia.
  - eexists. split; [f_equal; lia|].
    replace (Z.max e _) with (e + Z.pos n) by lia.
    apply iter_shr_1_truncated. by rewrite Hm.
  - eexists. split; [f_equal; lia|]. rewrite Hm.
    by replace (Z.max e _) with e by lia.
Qed.

Lemma digits2_pos_bound (p : positive) :
  2 ^ (Z.pos (digits2_pos p) - 1) ≤ Z.pos p < 2 ^ Z.pos (digits2_pos p).
Proof.
  induction p as [p IH|p IH|]; cbn [digits2_pos]; [| |by vm_compute].
  - rewrite Pos2Z.inj_succ. replace (Z.succ (Z.pos (digits2_pos p)) - 1)
      with (Z.succ (Z.pos (digits2_pos p) - 1)) by lia.
    rewrite !Z.pow_succ_r by lia. lia.
  - rewrite Pos2Z.inj_succ. replace (Z.succ (Z.pos (digits2_pos p)) - 1)
      with (Z.succ (Z.pos (digits2_pos p) - 1)) by lia.
    rewrite !Z.pow_succ_r by lia. lia.
Qed.

Lemma inject_Z_pos_pow2 (p : positive) :
  (2 ^ (Z.pos (digits2_pos p) - 1) <= inject_Z (Z.pos p))%Q
  ∧ (inject_Z (Z.pos p) < 2 ^ Z.pos (digits2_pos p))%Q.
Proof.
  destruct (digits2_pos_bound p) as [Hlo Hhi].
  rewrite <- !pow2_inject by lia. rewrite <- Zle_Qle, <- Zlt_Qlt. done.
Qed.

(** The exponent that rounding gives a number below [2 ^ E]. *)
Lemma truncated_exponent x e m E :
  truncated x e m → (x < 2 ^ E)%Q → e ≤ fexp prec emax E →
  Z.max e (fexp prec emax (Zdigits2 m + e)) ≤ fexp prec emax E.
Proof.
  intros (Hm & Hlo & _) HE He.
  destruct m as [|p|p]; [| |lia]; cbn [Zdigits2].
  - revert He. unfold fexp, emin, prec, emax. lia.
  - assert (Z.pos (digits2_pos p) + e ≤ E) as Hd.
    { destruct (inject_Z_pos_pow2 p) as [Hp _].
      assert (2 ^ (Z.pos (digits2_pos p) - 1 + e) < 2 ^ E)%Q as Hlt.
      { rewrite pow2_add. pose proof (pow2_pos e). nra. }
      apply pow2_lt_inv in Hlt. lia. }
    revert He Hd. unfold fexp, emin, prec, emax. lia.
Qed.

Lemma round_nearest_even_near (m : Z) (l : location) :
  m ≤ round_nearest_even m l ≤ m + 1.
Proof. destruct l as [|[]]; cbn; [| destruct (Z.even m) |..]; lia. Qed.

Lemma binary_round_aux_near x mx ex lx E :
  truncated x ex mx → (x < 2 ^ E)%Q → ex ≤ fexp prec emax E →
  -1074 ≤ E < 1024 →
  near x E (binary_round_aux prec emax false mx ex lx).
Proof.
  intros Hx HE Hex HErange.
  destruct (shr_fexp_truncated x ex mx lx Hx) as (mrs' & Hshr & Hx').
  pose proof (truncated_exponent x ex mx E Hx HE Hex) as He'.
  set (e' := Z.max ex (fexp prec emax (Zdigits2 mx + ex))) in *.
  pose proof (round_nearest_even_near (shr_m mrs') (loc_of_shr_record mrs'))
    as Hm2.
  set (m2 := round_nearest_even (shr_m mrs') (loc_of_shr_record mrs')) in *.
  set (x2 := (inject_Z m2 * 2 ^ e')%Q).
  pose proof (pow2_pos e') as Hpe'.
  pose proof (pow2_le e' (fexp prec emax E) He') as Hle'.
  assert (fexp prec emax E ≤ E) as HfE
    by (unfold fexp, emin, prec, emax; lia).
  pose proof (pow2_le _ _ HfE) as HleE.
  destruct Hx' as (Hm' & Hlo' & Hhi').
  assert ((x2 - 2 ^ e' <= x)%Q ∧ (x <= x2 + 2 ^ e')%Q) as [Hx2lo Hx2hi].
  { unfold x2. revert Hlo' Hhi'. rewrite inject_Z_plus.
    change (inject_Z 1) with 1%Q.
    assert (m2 = shr_m mrs' ∨ m2 = shr_m mrs' + 1) as [->| ->] by lia.
    - intros; split; nra.
    - rewrite inject_Z_plus. change (inject_Z 1) with 1%Q. intros; split; nra. }
  assert (truncated x2 e' m2) as Hx2.
  { split; [lia|]. unfold x2. rewrite inject_Z_plus.
    change (inject_Z 1) with 1%Q. split; nra. }
  assert (x2 < 2 ^ (E + 1))%Q as HE2.
  { rewrite pow2_succ. nra. }
  assert (e' ≤ fexp prec emax (E + 1)) as He'2
    by (revert He'; unfold fexp, emin, prec, emax; lia).
  destruct (shr_fexp_truncated x2 e' m2 loc_Exact Hx2) as (mrs'' & Hshr2 & Hx'').
  pose proof (truncated_exponent x2 e' m2 (E + 1) Hx2 HE2 He'2) as He''.
  set (e'' := Z.max e' (fexp prec emax (Zdigits2 m2 + e'))) in *.
  assert (e'' ≤ fexp prec emax E + 1) as He''E
    by (revert He''; unfold fexp, emin, prec, emax; lia).
  pose proof (pow2_pos e'') as Hpe''.
  pose proof (pow2_le e'' _ He''E) as Hle''.
  assert (2 ^ e'' + 2 ^ e' <= 2 ^ (fexp prec emax E + 2))%Q as Hsum.
  { replace (fexp prec emax E + 2) with (fexp prec emax E + 1 + 1) by lia.
    rewrite (pow2_succ (fexp prec emax E + 1)).
    rewrite (pow2_succ (fexp prec emax E)) in *. nra. }
  unfold binary_round_aux. rewrite Hshr. fold m2. rewrite Hshr2.
  destruct Hx'' as (Hm'' & Hlo'' & Hhi'').
  destruct (shr_m mrs'') as [|m3|m3]; [| |lia].
  - split; [done|]. cbn [to_Q].
    revert Hlo'' Hhi''. change (inject_Z (0 + 1)) with 1%Q.
    change (inject_Z 0) with 0%Q. intros.
    apply Qabs_Qle_condition. split; nra.
  - assert ((e'' <=? emax - prec) = true) as ->.
    { apply Z.leb_le. revert He''. unfold fexp, emin, prec, emax. lia. }
    split; [done|]. cbn [to_Q].
    revert Hlo'' Hhi''. rewrite inject_Z_plus. change (inject_Z 1) with 1%Q.
    intros. apply Qabs_Qle_condition. split; nra.
Qed.

Lemma fdiv_near (c t : positive) (E : Z) :
  (inject_Z (Z.pos c) / inject_Z (Z.pos t) < 2 ^ E)%Q → -1074 ≤ E < 1024 →
  near (inject_Z (Z.pos c) / inject_Z (Z.pos t)) E (fdiv (Z.pos c) (Z.pos t)).
Proof.
  intros HE HErange.
  set (C := inject_Z (Z.pos c)) in *. set (T := inject_Z (Z.pos t)) in *.
  assert (0 < T)%Q as HT by (unfold T, Qlt; simpl; lia).
  destruct (inject_Z_pos_pow2 c) as [Hc _]. fold C in Hc.
  destruct (inject_Z_pos_pow2 t) as [_ Ht]. fold T in Ht.
  set (d1 := Z.pos (digits2_pos c)) in *. set (d2 := Z.pos (digits2_pos t)) in *.
  assert (d1 - d2 ≤ E) as Hd.
  { assert (C < T * 2 ^ E)%Q as Hlt.
    { assert (C == C / T * T)%Q as HC by (field; lra).
      rewrite HC. revert HE. generalize (C / T)%Q, (2 ^ E)%Q. intros; nra. }
    assert (2 ^ (d1 - 1) < 2 ^ (d2 + E))%Q as Hp.
    { rewrite (pow2_add d2). pose proof (pow2_pos E). nra. }
    apply pow2_lt_inv in Hp. lia. }
  unfold fdiv, of_int, SFdiv, SFdiv_core_binary. cbn [xorb Zdigits2].
  fold d1 d2.
  set (e' := Z.min (fexp prec emax (d1 + 0 - (d2 + 0))) (0 - 0)).
  assert (e' ≤ 0) as He'0 by (unfold e'; lia).
  assert (e' ≤ fexp prec emax E) as He'E.
  { revert Hd. unfold e', fexp, emin, prec, emax. lia. }
  set (m' := match 0 - 0 - e' with
             | 0 => Z.pos c
             | Z.pos _ => Z.shiftl (Z.pos c) (0 - 0 - e')
             | Z.neg _ => 0
             end).
  assert (m' = Z.pos c * 2 ^ (- e')) as Hm'.
  { unfold m'. destruct (0 - 0 - e') as [|s|s] eqn:Hs; [| |lia].
    - replace (- e') with 0 by lia. lia.
    - rewrite Z.shiftl_mul_pow2 by lia. f_equal. f_equal. lia. }
  pose proof (Z.div_eucl_eq m' (Z.pos t) ltac:(lia)) as Heq.
  pose proof (Z.mod_pos_bound m' (Z.pos t) ltac:(lia)) as Hr.
  unfold Z.modulo in Hr.
  destruct (Z.div_eucl m' (Z.pos t)) as [q r]. cbn [fst snd] in Heq.
  assert (0 ≤ q) as Hq by nia.
  apply binary_round_aux_near; [|done..].
  assert (inject_Z m' == C * 2 ^ (- e'))%Q as HmQ.
  { rewrite Hm', inject_Z_mult, pow2_inject by lia. done. }
  rewrite Heq, inject_Z_plus, inject_Z_mult in HmQ. fold T in HmQ.
  assert (2 ^ (- e') * 2 ^ e' == 1)%Q as Hinv.
  { rewrite <- pow2_add. by replace (- e' + e') with 0 by lia. }
  assert (C / T == inject_Z q * 2 ^ e' + inject_Z r / T * 2 ^ e')%Q as HCT.
  { assert (C == (T * inject_Z q + inject_Z r) * 2 ^ e')%Q as ->.
    { rewrite HmQ. rewrite <- Qmult_assoc, Hinv. ring. }
    field. lra. }
  assert (0 <= inject_Z r / T)%Q as Hr0.
  { apply Qle_shift_div_l; [done|]. rewrite Qmult_0_l.
    change 0%Q with (inject_Z 0). rewrite <- Zle_Qle. lia. }
  assert (inject_Z r / T < 1)%Q as Hr1.
  { apply Qlt_shift_div_r; [done|]. rewrite Qmult_1_l.
    unfold T. rewrite <- Zlt_Qlt. lia. }
  pose proof (pow2_pos e').
  split; [done|]. rewrite HCT, inject_Z_plus. change (inject_Z 1) with 1%Q.
  split; nra.
Qed.

Lemma fmul_near (m : positive) (e : Z) (k : positive) (E : Z) :
  (to_Q (S754_finite false m e) * inject_Z (Z.pos k) < 2 ^ E)%Q →
  e ≤ fexp prec emax E → -1074 ≤ E < 1024 →
  near (to_Q (S754_finite false m e) * inject_Z (Z.pos k)) E
       (fmul (S754_finite false m e) (of_int (Z.pos k))).
Proof.
  intros HE He HErange. unfold fmul, of_int, SFmul. cbn [xorb].
  apply binary_round_aux_near; [|done|lia|done].
  split; [lia|]. cbn [to_Q]. rewrite Z.add_0_r, Pos2Z.inj_mul.
  rewrite inject_Z_plus, inject_Z_mult. change (inject_Z 1) with 1%Q.
  pose proof (pow2_pos e). split; nra.
Qed.

Lemma percentage_of_two_decimals (total count : nat) :
  (0 < count ≤ total)%nat →
  ∃ k : Z,
    0 ≤ k ≤ 10000
    ∧ percentage_of total count = decimal k 2
    ∧ (Qabs (inject_Z k / 100
             - 100 * inject_Z (Z.of_nat count) / inject_Z (Z.of_nat total))
       <= (1 # 200) + (1 # 1000000000000))%Q.
Proof.
  intros [Hc Hct]. unfold percentage_of.
  destruct (Z.of_nat count) as [|c|c] eqn:Hcz; [lia| |lia].
  destruct (Z.of_nat total) as [|t|t] eqn:Htz; [lia| |lia].
  assert (Z.pos c ≤ Z.pos t) as Hle by lia.
  set (C := inject_Z (Z.pos c)). set (T := inject_Z (Z.pos t)).
  assert (0 < C)%Q as HC by (unfold C, Qlt; simpl; lia).
  assert (0 < T)%Q as HT by (unfold T, Qlt; simpl; lia).
  assert (C <= T)%Q as HCT by (unfold C, T; by rewrite <- Zle_Qle).
  assert (0 < C / T)%Q as Hpos by (by apply Qlt_shift_div_l; rewrite ?Qmult_0_l).
  assert (C / T <= 1)%Q as Hle1
    by (by apply Qle_shift_div_r; rewrite ?Qmult_1_l).
  assert (100 * C / T == 100 * (C / T))%Q as Hshare by (field; lra).
  destruct (fdiv_near c t 1) as [Hform1 Herr1]; [fold C T|lia|].
  { change (2 ^ 1)%Q with 2%Q. lra. }
  fold C T in Herr1. apply Qabs_Qle_condition in Herr1 as [Hlo1 Hhi1].
  change (2 ^ (fexp prec emax 1 + 2))%Q with (1 # 1125899906842624)%Q in *.
  set (r1 := fdiv (Z.pos c) (Z.pos t)) in *.
  assert (∃ r2, fmul r1 (of_int 100) = r2
               ∧ match r2 with
                 | S754_zero false | S754_finite false _ _ => True
                 | _ => False
                 end
               ∧ (Qabs (to_Q r2 - 100 * (C / T)) <= 1 # 4000000000000)%Q)
    as (r2 & -> & Hform2 & Herr2).
  { destruct r1 as [[|]|[|]| |[|] m1 e1]; try done.
    - eexists. split; [reflexivity|]. split; [done|].
      change (to_Q (fmul (S754_zero false) (of_int 100))) with 0%Q.
      cbn [to_Q] in *. apply Qabs_Qle_condition. split; lra.
    - destruct (fmul_near m1 e1 100 7) as [Hform2 Herr2].
      + change (2 ^ 7)%Q with 128%Q. change (inject_Z 100) with 100%Q. lra.
      + revert Hform1. unfold fexp, emin, prec, emax. lia.
      + lia.
      + eexists. split; [reflexivity|]. split.
        * by destruct (fmul _ _) as [[|]|[|]| |[|] ? ?].
        * apply Qabs_Qle_condition in Herr2 as [Hlo2 Hhi2].
          change (2 ^ (fexp prec emax 7 + 2))%Q
            with (1 # 17592186044416)%Q in *.
          change (inject_Z 100) with 100%Q in *.
          apply Qabs_Qle_condition. split; lra. }
  apply Qabs_Qle_condition in Herr2 as [Hlo2 Hhi2].
  assert (∃ k, round r2 2 = decimal k 2
               ∧ (Qabs (inject_Z k - to_Q r2 * 100) <= 1 # 2)%Q)
    as (k & -> & Hk).
  { destruct r2 as [[|]|[|]| |[|] m2 e2]; try done.
    - exists 0. split; [done|]. by vm_compute.
    - exists (round_half_even (to_Q (S754_finite false m2 e2) * 100)).
      split; [|apply round_half_even_bound].
      unfold round. change (323 <? 2)%nat with false. cbn iota.
      change (inject_Z (10 ^ Z.of_nat 2)) with 100%Q.
      by destruct (round_half_even _). }
  apply Qabs_Qle_condition in Hk as [Hklo Hkhi].
  assert (inject_Z k / 100 == inject_Z k * (1 # 100))%Q as Hdec
    by (field; done).
  exists k. split; [|split; [done|]].
  - assert (- (1) < inject_Z k)%Q as Hk0 by lra.
    assert (inject_Z k < 10001)%Q as Hk1 by lra.
    change (- (1))%Q with (inject_Z (- 1)) in Hk0.
    change 10001%Q with (inject_Z 10001) in Hk1.
    rewrite <- Zlt_Qlt in Hk0, Hk1. lia.
  - rewrite Hshare, Hdec. apply Qabs_Qle_condition. split; lra.
Qed.

Lemma int_truediv_OK (total count : nat) :
  (0 < count ≤ total)%nat →
  int_truediv (Z.of_nat count) (Z.of_nat total)
  = OK (fdiv (Z.of_nat count) (Z.of_nat total)).
Proof.
  intros [Hc Hct]. unfold int_truediv.
  destruct (Z.eqb_spec (Z.of_nat total) 0) as [|_]; [lia|].
  destruct (Z.of_nat count) as [|c|c] eqn:Hcz; [lia| |lia].
  destruct (Z.of_nat total) as [|t|t] eqn:Htz; [lia| |lia].
  destruct (fdiv_near c t 1) as [Hform _]; [|lia|].
  { change (2 ^ 1)%Q with 2%Q.
    apply Qlt_shift_div_r; [unfold Qlt; simpl; lia|].
    unfold Qlt, Qmult. simpl. lia. }
  by destruct (fdiv (Z.pos c) (Z.pos t)) as [[|]|[|]| |[|] ? ?].
Qed.

Lemma decimal_near (k : Z) :
  0 ≤ k ≤ 10000 →
  (Qabs (to_Q (decimal k 2) - inject_Z k / 100) <= 1 # 1000000000000)%Q.
Proof.
  intros Hk. destruct k as [|k|k]; [by vm_compute| |lia].
  unfold decimal. change (10 ^ Z.of_nat 2) with 100.
  destruct (fdiv_near k 100 7) as [_ Herr]; [|lia|].
  - change (2 ^ 7)%Q with 128%Q. change (inject_Z 100) with 100%Q.
    apply Qlt_shift_div_r; [done|]. unfold Qlt, Qmult. simpl. lia.
  - change (inject_Z 100) with 100%Q in Herr.
    change (2 ^ (fexp prec emax 7 + 2))%Q with (1 # 17592186044416)%Q in Herr.
    eapply Qle_trans; [exact Herr|]. by vm_compute.
Qed.

Lemma percentage_of_bound (total count : nat) :
  (0 < count ≤ total)%nat →
  (Qabs (to_Q (percentage_of total count)
         - 100 * inject_Z (Z.of_nat count) / inject_Z (Z.of_nat total))
   <= (1 # 200) + (1 # 100000000000))%Q.
Proof.
  intros Hc.
  destruct (percentage_of_two_decimals total count Hc) as (k & Hk & -> & Hb).
  pose proof (decimal_near k Hk) as Hd.
  apply Qabs_Qle_condition in Hb as [Hb1 Hb2].
  apply Qabs_Qle_condition in Hd as [Hd1 Hd2].
  apply Qabs_Qle_condition. split; lra.
Qed.
End Binary64.

Lemma sum_percentages_bound total (counts : list nat) :
  0 < total → Forall (λ c, 0 < c ≤ total) counts →
  (Qabs (sumQ ((λ c, to_Q (percentage_of total c)) <$> counts)
         - 100 * inject_Z (Z.of_nat (sum_list counts)) / inject_Z (Z.of_nat total))
   <= inject_Z (Z.of_nat (length counts))
      * ((1 # 200) + (1 # 100000000000)))%Q.
Proof.
  intros Htotal.
  assert (¬ inject_Z (Z.of_nat total) == 0)%Q as Hnz.
  { intros Hz. unfold Qeq in Hz. simpl in Hz. lia. }
  induction 1 as [|c counts Hc _ IH].
  - change (Qabs (0 - 100 * 0 / inject_Z (Z.of_nat total))
            <= 0 * ((1 # 200) + (1 # 100000000000)))%Q.
    assert (0 - 100 * 0 / inject_Z (Z.of_nat total) == 0)%Q as Hz
      by (field; done).
    rewrite Hz. by vm_compute.
  - rewrite fmap_cons. cbn [sumQ foldr sum_list length].
    change (id c) with c.
    fold (sumQ ((λ c, to_Q (percentage_of total c)) <$> counts)).
    pose proof (percentage_of_bound total c Hc) as Hb.
    apply Qabs_Qle_condition in Hb as [Hc1 Hc2].
    apply Qabs_Qle_condition in IH as [IH1 IH2].
    rewrite Nat2Z.inj_add, Nat2Z.inj_succ, <- Z.add_1_l, !inject_Z_plus.
    set (T := inject_Z (Z.of_nat total)) in *.
    set (a := inject_Z (Z.of_nat c)) in *.
    set (b := inject_Z (Z.of_nat (sum_list counts))) in *.
    set (n := inject_Z (Z.of_nat (length counts))) in *.
    assert (100 * (a + b) / T == 100 * a / T + 100 * b / T)%Q as Hsplit
      by (field; done).
    change (inject_Z 1) with 1%Q.
    apply Qabs_Qle_condition. split; rewrite Hsplit; lra.
Qed.

(** ** Composition *)

Lemma length_extend_colors fuel colors count :
  0 < length colors → count ≤ length colors + fuel →
  count ≤ length (extend_colors fuel colors count).
Proof.
  revert colors. induction fuel as [|fuel IH]; intros colors Hpos Hle; simpl.
  - lia.
  - destruct (Nat.ltb_spec (length colors) count); [|lia].
    apply IH; rewrite length_app; lia.
Qed.

(** More fuel than [count] changes nothing: the loop has stopped. *)
Lemma extend_colors_enough_fuel fuel extra colors count :
  0 < length colors → count ≤ length colors + fuel →
  extend_colors (fuel + extra) colors count = extend_colors fuel colors count.
Proof.
  revert colors. induction fuel as [|fuel IH]; intros colors Hpos Hle.
  - destruct extra as [|extra]; [done|]. cbn [Nat.add extend_colors].
    destruct (Nat.ltb_spec (length colors) count); [lia | done].
  - cbn [Nat.add extend_colors].
    destruct (Nat.ltb_spec (length colors) count); [|done].
    apply IH; rewrite length_app; lia.
Qed.

Lemma length_generate_colors count : length (_generate_colors count) = count.
Proof.
  unfold _generate_colors. rewrite length_take.
  pose proof (length_extend_colors count palette count) as Hlen.
  change (length palette) with 15 in Hlen. lia.
Qed.

Lemma composition_entry_OK total colors i tc e :
  composition_entry total colors i tc = OK e →
  name e = tc.1 ∧ value e = tc.2 ∧ percentage e = percentage_of total tc.2.
Proof.
  unfold composition_entry, int_truediv, percentage_of.
  destruct (Z.of_nat total =? 0)%Z; [done|].
  destruct (fdiv (Z.of_nat tc.2) (Z.of_nat total)) as [s|s| |s m ex];
    cbn [mbind result_bind]; try done;
    (destruct (colors !! i); [|done]); by intros [= <-].
Qed.

Lemma composition_of_OK rank seqs :
  ∃ comp, composition_of rank seqs = OK comp ∧
    Forall2 (λ tc e, name e = tc.1 ∧ value e = tc.2
                     ∧ percentage e = percentage_of (length seqs) tc.2)
            (most_common (count_all (labels_at (composition_idx rank) seqs)))
            comp.
Proof.
  unfold composition_of. fold (labels_at (composition_idx rank) seqs).
  set (rc := count_all (labels_at (composition_idx rank) seqs)).
  assert (sum_list rc.*2 = length seqs) as ->.
  { unfold rc. rewrite count_all_sum. unfold labels_at. by rewrite length_fmap. }
  set (f := λ it : nat * (str * nat),
              composition_entry (length seqs)
                (_generate_colors (length rc)) it.1 it.2).
  destruct (for_each_total f (imap pair (most_common rc))) as [comp Hcomp].
  { apply Forall_forall. intros it (i & tc & -> & Hj)%elem_of_lookup_imap.
    unfold f, composition_entry. cbn [fst snd].
    assert (i < length rc) as Hi.
    { apply lookup_lt_Some in Hj. by rewrite (most_common_perm rc) in Hj. }
    assert (0 < tc.2 ≤ length seqs) as Hcount.
    { assert (tc ∈ rc) as Hin.
      { rewrite <- (most_common_perm rc). by eapply list_elem_of_lookup_2. }
      destruct tc as [k n]. apply count_all_bounds in Hin.
      unfold labels_at in Hin. by rewrite length_fmap in Hin. }
    rewrite (int_truediv_OK _ _ Hcount). cbn [mbind result_bind].
    destruct (lookup_lt_is_Some_2 (_generate_colors (length rc)) i) as [c Hc].
    { by rewrite length_generate_colors. }
    rewrite Hc. by eexists. }
  exists comp. split; [done|].
  apply for_each_OK in Hcomp.
  rewrite <- (snd_imap_pair (most_common rc)).
  apply Forall2_fmap_l. eapply Forall2_impl; [exact Hcomp|].
  intros [i tc] e He. by apply composition_entry_OK in He.
Qed.

Lemma StronglySorted_lookup {A} (R : relation A) l i j x y :
  StronglySorted R l → i < j → l !! i = Some x → l !! j = Some y → R x y.
Proof.
  intros Hs. revert i j. induction Hs as [|a l Hl IH Ha]; intros i j Hij Hi Hj.
  - done.
  - destruct j as [|j]; [lia|]. destruct i as [|i]; simpl in *.
    + injection Hi as ->. rewrite Forall_forall in Ha. apply Ha.
      by eapply list_elem_of_lookup_2.
    + eapply IH; [|done..]. lia.
Qed.

Lemma sum_list_perm (l k : list nat) : l ≡ₚ k → sum_list l = sum_list k.
Proof. induction 1; simpl; lia. Qed.

Lemma taxon_at_short idx parts :
  length parts ≤ idx → taxon_at idx parts = py "Unknown".
Proof.
  intros Hlen. unfold taxon_at. by rewrite (lookup_ge_None_2 parts idx).
Qed.

(** C4.  For a stored job with at least one sequence record and a rank
    of the composition table, [get_taxonomic_composition] returns a list
    that is ordered by descending count; holds one entry per distinct
    label, whose count is the number of records with that label, a record
    whose lineage has no segment at the rank's index being counted under
    "Unknown"; and gives each entry the percentage
    [round((count / total) * 100, 2)], computed in binary64: a float with
    two decimals, that is the float nearest to [k / 100] for a whole
    number [k] from 0 to 10000, where [k / 100] is within 0.005 (and the
    error of the two float operations, below 1e-12) of the exact share.
    The percentages add up to 100 within 0.005 (and 1e-11) per entry. *)
Theorem composition_descending_percentages
    (db : store) (job_id rank : str) (j : job) (idx : nat) :
  db !! job_id = Some j →
  job_sequences j ≠ [] →
  composition_rank_index !! lower rank = Some idx →
  ∃ comp : list entry,
    get_taxonomic_composition db job_id rank = OK comp
    ∧ (∀ i i' e e', i < i' → comp !! i = Some e → comp !! i' = Some e' →
         value e' ≤ value e)
    ∧ NoDup (name <$> comp)
    ∧ (∀ e, e ∈ comp →
         0 < value e
         ∧ value e = length (filter (λ s, name e = taxon_at idx (parts_of s))
                                    (job_sequences j))
         ∧ percentage e =
             round (fmul (fdiv (Z.of_nat (value e))
                               (Z.of_nat (length (job_sequences j))))
                         (of_int 100)) 2
         ∧ ∃ k : Z,
             (0 ≤ k ≤ 10000)%Z
             ∧ percentage e = decimal k 2
             ∧ (Qabs (inject_Z k / 100
                      - 100 * inject_Z (Z.of_nat (value e))
                        / inject_Z (Z.of_nat (length (job_sequences j))))
                <= (1 # 200) + (1 # 1000000000000))%Q)
    ∧ (∀ s, s ∈ job_sequences j →
         taxon_at idx (parts_of s) ∈ name <$> comp
         ∧ (length (parts_of s) ≤ idx → taxon_at idx (parts_of s) = py "Unknown"))
    ∧ sum_list (value <$> comp) = length (job_sequences j)
    ∧ (Qabs (sumQ ((λ e, to_Q (percentage e)) <$> comp) - 100)
       <= inject_Z (Z.of_nat (length comp))
          * ((1 # 200) + (1 # 100000000000)))%Q.
Proof.
  intros Hjob Hne Hrank.
  unfold get_taxonomic_composition, fetch_sequences. rewrite Hjob. simpl.
  set (seqs := job_sequences j) in *.
  assert (0 < length seqs) as Hpos by (destruct seqs; [done | simpl; lia]).
  destruct (composition_of_OK rank seqs) as (comp & -> & Hcomp).
  unfold composition_idx in Hcomp. rewrite Hrank in Hcomp. simpl in Hcomp.
  set (labels := labels_at idx seqs) in *.
  set (rc := count_all labels) in *.
  assert (name <$> comp = (most_common rc).*1) as Hnames.
  { clear -Hcomp. induction Hcomp as [|tc e mc comp (Hn & _) _ IH]; [done|].
    rewrite !fmap_cons. by rewrite Hn, IH. }
  assert (value <$> comp = (most_common rc).*2) as Hvalues.
  { clear -Hcomp. induction Hcomp as [|tc e mc comp (_ & Hv & _) _ IH]; [done|].
    rewrite !fmap_cons. by rewrite Hv, IH. }
  assert ((λ e, to_Q (percentage e)) <$> comp
          = (λ c, to_Q (percentage_of (length seqs) c)) <$> (value <$> comp))
    as Hpcts.
  { clear -Hcomp. induction Hcomp as [|tc e mc comp (_ & Hv & Hp) _ IH]; [done|].
    rewrite !fmap_cons. by rewrite Hp, Hv, IH. }
  assert (∀ e, e ∈ comp → (name e, value e) ∈ rc) as Hin.
  { intros e [i Hi]%list_elem_of_lookup_1.
    destruct (Forall2_lookup_r _ _ _ _ _ Hcomp Hi) as ([k n] & Htc & Hk & Hv & _).
    simpl in *. subst. rewrite <- (most_common_perm rc).
    by eapply list_elem_of_lookup_2. }
  assert (∀ e, e ∈ comp → 0 < value e ≤ length seqs) as Hbounds.
  { intros e He. pose proof (count_all_bounds _ _ _ (Hin e He)) as Hb.
    unfold labels, labels_at in Hb. by rewrite length_fmap in Hb. }
  assert (sum_list (value <$> comp) = length seqs) as Hsum.
  { rewrite Hvalues, (sum_list_perm _ rc.*2).
    - unfold rc. rewrite count_all_sum. unfold labels, labels_at.
      by rewrite length_fmap.
    - by rewrite (most_common_perm rc). }
  exists comp. split_and!; [done|..].
  - intros i i' e e' Hlt Hi Hi'.
    destruct (Forall2_lookup_r _ _ _ _ _ Hcomp Hi) as (tc & Htc & _ & -> & _).
    destruct (Forall2_lookup_r _ _ _ _ _ Hcomp Hi') as (tc' & Htc' & _ & -> & _).
    exact (StronglySorted_lookup _ _ _ _ _ _ (most_common_sorted rc) Hlt Htc Htc').
  - rewrite Hnames, (most_common_perm rc). apply count_all_NoDup.
  - intros e He. pose proof (Hin e He) as Hrc.
    assert (value e = length (filter (λ s, name e = taxon_at idx (parts_of s)) seqs))
      as Hcount.
    { rewrite <- (count_of_lookup (name e) (value e) rc);
        [|apply count_all_NoDup|done].
      unfold rc. rewrite count_all_count. unfold labels, labels_at.
      by rewrite length_filter_fmap. }
    assert (percentage e = percentage_of (length seqs) (value e)) as Hpct.
    { destruct (list_elem_of_lookup_1 _ _ He) as [i Hi].
      by destruct (Forall2_lookup_r _ _ _ _ _ Hcomp Hi) as (tc & _ & _ & -> & ->). }
    split_and!; [by apply Hbounds|done|done|].
    destruct (percentage_of_two_decimals (length seqs) (value e) (Hbounds e He))
      as (k & Hk & Hdec & Hb).
    exists k. by rewrite Hpct.
  - intros s Hs. split; [|apply taxon_at_short].
    rewrite Hnames, (most_common_perm rc). apply count_all_keys.
    unfold labels, labels_at. apply list_elem_of_fmap. by exists s.
  - done.
  - pose proof (sum_percentages_bound (length seqs) (value <$> comp) Hpos) as Hb.
    rewrite <- Hpcts, Hsum, length_fmap in Hb.
    assert (100 * inject_Z (Z.of_nat (length seqs)) / inject_Z (Z.of_nat (length seqs))
            == 100)%Q as Hone.
    { field. intros Hz. unfold Qeq in Hz. simpl in Hz. lia. }
    rewrite Hone in Hb. apply Hb.
    apply Forall_forall. intros c (e & -> & He)%list_elem_of_fmap.
    by apply Hbounds.
Qed.

Example composition_example :
  get_taxonomic_composition example_store (py "job-1") (py "phylum") =
    OK [Entry (py "Alveolata") 2 (decimal 6667 2) (py "#22D3EE");
        Entry (py "Chlorophyta") 1 (decimal 3333 2) (py "#10B981")].
Proof. by vm_compute. Qed.

(** 23 records of 160: the exact share is 14.375, the product computed in
    binary64 lies just below it, and the percentage is 14.37. *)
Example composition_rounds_the_float :
  composition_of (py "domain")
    (replicate 23 (Sequence (Some (py "A")))
     ++ replicate 137 (Sequence (Some (py "B"))))
  = OK [Entry (py "B") 137 (decimal 8562 2) (py "#22D3EE");
        Entry (py "A") 23 (decimal 1437 2) (py "#10B981")]
  ∧ decimal 1437 2 = S754_finite false 8089590830664253 (-49).
Proof. split; by vm_compute. Qed.

Lemma composition_descending_percentages_witness :
  ∃ comp : list entry,
    get_taxonomic_composition example_store (py "job-1") (py "Phylum") = OK comp
    ∧ sum_list (value <$> comp) = 3.
Proof.
  destruct (composition_descending_percentages example_store
              (py "job-1") (py "Phylum")
              (Job (Some (py "sample.fasta"))
                 (Some (Analysis (Some (seqs_of
                    ["Eukaryota;Alveolata;Dinoflagellata";
                     "Eukaryota;Chlorophyta;Chlorophyceae";
                     "Eukaryota;Alveolata;Ciliophora"]%string))))) 1)
    as (comp & Hcomp & _ & _ & _ & _ & Hsum & _).
  - by vm_compute.
  - by vm_compute.
  - by vm_compute.
  - exists comp. split; [exact Hcomp | exact Hsum].
Defined.

(** ** Lineage parsing *)

(** C5.  [parse_lineage] cuts the string at every ";" (the segments,
    joined again by ";", give the string back, and no segment contains
    ";"), keeps the segments in order and strips each one: what is removed
    on either side is whitespace only and the result neither starts nor
    ends with whitespace.  "A; B ;C" parses to ["A","B","C"], and a record
    without a taxonomy field has the raw lineage "Unknown". *)
Theorem parse_lineage_split_strip :
  (∀ t : str,
     join semicolon (split semicolon t) = t
     ∧ Forall (λ seg, semicolon ∉ seg) (split semicolon t)
     ∧ parse_lineage t = strip <$> split semicolon t)
  ∧ (∀ seg : str, ∃ l r,
       seg = l ++ strip seg ++ r
       ∧ forallb is_space l = true ∧ forallb is_space r = true
       ∧ from_option is_space false (head (strip seg)) = false
       ∧ from_option is_space false (last (strip seg)) = false)
  ∧ parse_lineage (py "A; B ;C") = [py "A"; py "B"; py "C"]
  ∧ raw_lineage (Sequence None) = py "Unknown"
  ∧ parts_of (Sequence None) = [py "Unknown"].
Proof.
  split_and!; try by vm_compute.
  - intros t. split_and!; [apply join_split | apply split_no_sep | done].
  - apply strip_spec.
Qed.

(** ** Rank lookup *)

(** C10.  A rank whose lower-cased name is not a key of the component's
    table gets the component's default index: 1 in the composition, 2 in
    the heatmap.  "species" is a key of the composition table (index 6)
    and not of the heatmap table, where it falls back to 2. *)
Theorem unknown_rank_uses_default (rank : str) :
  (composition_rank_index !! lower rank = None → composition_idx rank = 1)
  ∧ (heatmap_rank_index !! lower rank = None → heatmap_idx rank = 2)
  ∧ heatmap_rank_index !! py "species" = None
  ∧ heatmap_idx (py "species") = 2
  ∧ heatmap_idx (py "Species") = 2
  ∧ composition_idx (py "species") = 6.
Proof.
  unfold composition_idx, heatmap_idx. split_and!; try by vm_compute.
  - by intros ->.
  - by intros ->.
Qed.

Lemma unknown_rank_uses_default_witness :
  composition_idx (py "kingdom") = 1 ∧ heatmap_idx (py "kingdom") = 2.
Proof.
  destruct (unknown_rank_uses_default (py "kingdom")) as (Hc & Hh & _).
  split; [apply Hc | apply Hh]; by vm_compute.
Defined.

(** ** Empty collections *)

Lemma composition_of_nil rank : composition_of rank [] = OK [].
Proof. done. Qed.

Lemma composition_of_no_zero_division rank seqs :
  composition_of rank seqs ≠ Raise ZeroDivisionError.
Proof. destruct (composition_of_OK rank seqs) as (comp & -> & _). done. Qed.

(** C7.  For a stored job without sequence records the composition is the
    empty list: the loop that divides by the total has nothing to run on.
    Whatever the records, the composition never fails with a division by
    zero. *)
Theorem composition_empty_no_division
    (db : store) (job_id rank : str) (j : job) :
  db !! job_id = Some j →
  job_sequences j = [] →
  get_taxonomic_composition db job_id rank = OK []
  ∧ ∀ db' job_id' rank',
      get_taxonomic_composition db' job_id' rank' ≠ Raise ZeroDivisionError.
Proof.
  intros Hjob Hnil. split.
  - unfold get_taxonomic_composition, fetch_sequences.
    rewrite Hjob. simpl. by rewrite Hnil.
  - intros db' job_id' rank'. unfold get_taxonomic_composition, fetch_sequences.
    destruct (db' !! job_id'); simpl; [apply composition_of_no_zero_division|done].
Qed.

Lemma composition_empty_no_division_witness :
  get_taxonomic_composition empty_job_store (py "job-0") (py "phylum") = OK [].
Proof.
  apply (composition_empty_no_division empty_job_store (py "job-0") (py "phylum")
           (Job (Some (py "empty.fasta")) (Some (Analysis (Some []))))).
  - by vm_compute.
  - by vm_compute.
Defined.

(** ** The order of [sorted] *)

Lemma str_leb_refl a : str_leb a a = true.
Proof.
  induction a as [|x a IH]; [done|]. simpl.
  by rewrite N.ltb_irrefl, N.eqb_refl.
Qed.

Lemma str_leb_total a b : str_leb a b = true ∨ str_leb b a = true.
Proof.
  revert b. induction a as [|x a IH]; intros [|y b]; simpl; auto.
  destruct (N.ltb_spec x y), (N.ltb_spec y x), (N.eqb_spec x y),
    (N.eqb_spec y x); auto; lia.
Qed.

Lemma str_leb_trans a b c :
  str_leb a b = true → str_leb b c = true → str_leb a c = true.
Proof.
  revert b c. induction a as [|x a IH]; intros [|y b] [|z c]; simpl; try done.
  destruct (N.ltb_spec x y), (N.ltb_spec y z), (N.ltb_spec x z),
    (N.eqb_spec x y), (N.eqb_spec y z), (N.eqb_spec x z);
    try done; try lia; eauto.
Qed.

Lemma str_leb_antisym a b :
  str_leb a b = true → str_leb b a = true → a = b.
Proof.
  revert b. induction a as [|x a IH]; intros [|y b]; simpl; try done.
  destruct (N.ltb_spec x y), (N.ltb_spec y x), (N.eqb_spec x y),
    (N.eqb_spec y x); try done; try lia.
  intros. subst. f_equal. by apply IH.
Qed.

#[export] Instance str_le_refl : Reflexive str_le.
Proof. intros a. apply str_leb_refl. Qed.

#[export] Instance str_le_total : Total str_le.
Proof. intros a b. apply str_leb_total. Qed.

#[export] Instance str_le_trans : Transitive str_le.
Proof. intros a b c. apply str_leb_trans. Qed.

#[export] Instance str_le_antisym : AntiSymm (=) str_le.
Proof. intros a b. apply str_leb_antisym. Qed.

Lemma sorted_perm xs : sorted xs ≡ₚ xs.
Proof. apply merge_sort_Permutation. Qed.

Lemma sorted_sorted xs : StronglySorted str_le (sorted xs).
Proof. apply StronglySorted_merge_sort; apply _. Qed.

(** [sorted] does not depend on the order its argument is listed in. *)
Lemma sorted_order_irrelevant xs ys : xs ≡ₚ ys → sorted xs = sorted ys.
Proof.
  intros Hperm. apply (StronglySorted_unique str_le); try apply sorted_sorted.
  by rewrite !sorted_perm.
Qed.

Lemma sorted_strict xs : NoDup xs → StronglySorted str_lt (sorted xs).
Proof.
  intros Hnd. rewrite <- (sorted_perm xs) in Hnd.
  induction (sorted_sorted xs) as [|x l Hl IH Hx]; [constructor|].
  apply NoDup_cons in Hnd as [Hnin Hnd]. constructor; [by apply IH|].
  rewrite Forall_forall in *. intros y Hy. split; [by apply Hx|].
  by intros ->.
Qed.

Lemma filter_none {A} (P : A → Prop) `{∀ x, Decision (P x)} (l : list A) :
  Forall (λ x, ¬ P x) l → filter P l = [].
Proof.
  induction 1 as [|x l Hx _ IH]; [done|]. by rewrite filter_cons_False.
Qed.

(** In a strictly sorted list the position of an element is the number of
    elements below it. *)
Lemma strictly_sorted_rank l i n :
  StronglySorted str_lt l → l !! i = Some n →
  i = length (filter (λ m, str_lt m n) l).
Proof.
  intros Hs. revert i. induction Hs as [|x l Hl IH Hx]; intros i Hi; [done|].
  rewrite filter_cons. destruct i as [|i]; simpl in Hi.
  - injection Hi as ->. rewrite decide_False; [|by intros [_ ?]].
    rewrite filter_none; [done|].
    rewrite Forall_forall in *. intros y Hy [Hle Hne].
    destruct (Hx y Hy) as [Hle' _]. by apply Hne, (anti_symm str_le).
  - rewrite decide_True.
    + simpl. f_equal. by apply IH.
    + rewrite Forall_forall in Hx. apply Hx. by eapply list_elem_of_lookup_2.
Qed.

(** ** Sankey flow *)

Lemma parts_of_nonempty s : parts_of s ≠ [].
Proof.
  unfold parts_of, parse_lineage.
  pose proof (split_nonempty semicolon (raw_lineage s)) as Hne.
  by destruct (split semicolon (raw_lineage s)).
Qed.

Lemma lineage_step_spec st s :
  lineage_step st s =
    FlowState (list_to_set (window s) ∪ nodes_set st)
              (foldl (λ c e, incr e c) (flows st) (edges_of s)).
Proof.
  unfold lineage_step, edges_of, window.
  pose proof (parts_of_nonempty s) as Hne.
  destruct (parts_of s) as [|p1 [|p2 [|p3 [|p4 rest]]]]; [done|..];
    cbn; unfold edge_step; cbn; f_equal; set_solver.
Qed.

Lemma foldl_lineage_step seqs st :
  foldl lineage_step st seqs =
    FlowState (list_to_set (mjoin (window <$> seqs)) ∪ nodes_set st)
              (foldl (λ c e, incr e c) (flows st) (all_edges seqs)).
Proof.
  revert st. induction seqs as [|s seqs IH]; intros st.
  - destruct st. cbn. f_equal. set_solver.
  - cbn [foldl]. rewrite IH, lineage_step_spec. cbn [nodes_set flows].
    unfold all_edges. rewrite !fmap_cons. cbn [mjoin list_join].
    rewrite foldl_app. f_equal. rewrite list_to_set_app_L. set_solver.
Qed.

Lemma collect_flows_spec seqs :
  collect_flows seqs = FlowState (label_set seqs) (count_all (all_edges seqs)).
Proof. unfold collect_flows. by rewrite foldl_lineage_step. Qed.

Lemma elem_of_consecutive {A} (l : list A) a b :
  (a, b) ∈ consecutive l → a ∈ l ∧ b ∈ l.
Proof.
  induction l as [|x l IH]; [by intros ?%elem_of_nil|].
  destruct l as [|y l]; [by intros ?%elem_of_nil|].
  cbn [consecutive]. intros [[= -> ->] | Hin]%elem_of_cons.
  - split; [left | right; left].
  - destruct (IH Hin). split; by right.
Qed.

Lemma length_consecutive {A} (l : list A) : length (consecutive l) = length l - 1.
Proof.
  induction l as [|x l IH]; [done|]. destruct l as [|y l]; [done|].
  cbn [consecutive length] in *. lia.
Qed.

Lemma length_edges_of s : 0 < length (edges_of s) ≤ 4.
Proof.
  unfold edges_of, window. rewrite length_consecutive. cbn [length].
  rewrite length_take. pose proof (parts_of_nonempty s).
  destruct (parts_of s); [done|]. cbn [length]. lia.
Qed.

Lemma elem_of_label_set seqs n :
  n ∈ label_set seqs ↔
    n = py "Start" ∨ ∃ s, s ∈ seqs ∧ n ∈ take 4 (parts_of s).
Proof.
  unfold label_set. rewrite elem_of_union, elem_of_list_to_set, elem_of_singleton.
  rewrite list_elem_of_join. split.
  - intros [(w & Hn & (s & -> & Hs)%list_elem_of_fmap) | ->]; [|by left].
    unfold window in Hn. apply elem_of_cons in Hn as [-> | Hn]; [by left|].
    right. by exists s.
  - intros [-> | (s & Hs & Hn)]; [by right|]. left. exists (window s). split.
    + unfold window. by right.
    + apply list_elem_of_fmap. by exists s.
Qed.

Lemma all_edges_in_label_set seqs a b :
  (a, b) ∈ all_edges seqs → a ∈ label_set seqs ∧ b ∈ label_set seqs.
Proof.
  unfold all_edges. rewrite list_elem_of_join.
  intros (es & Hab & (s & -> & Hs)%list_elem_of_fmap).
  apply elem_of_consecutive in Hab as [Ha Hb].
  unfold label_set. rewrite !elem_of_union, !elem_of_list_to_set, !list_elem_of_join.
  split; left; exists (window s); (split; [done|]);
    apply list_elem_of_fmap; by exists s.
Qed.

(** The index dictionary of a list without duplicates. *)
Lemma foldl_insert_lookup (l : list (nat * str)) (m : gmap str nat) n i :
  NoDup l.*2 →
  foldl add_index m l !! n = Some i ↔
    (i, n) ∈ l ∨ ((n ∉ l.*2) ∧ m !! n = Some i).
Proof.
  unfold add_index. revert m. induction l as [|[j k] l IH]; intros m.
  - intros _. cbn. split; [intros; right; split; [apply not_elem_of_nil|done]|].
    by intros [?%elem_of_nil|[_ ?]].
  - rewrite fmap_cons. cbn [snd foldl fst]. intros [Hk Hnd]%NoDup_cons.
    rewrite IH by done. rewrite elem_of_cons, not_elem_of_cons. split.
    + intros [Hin|[Hnin Hm]]; [by left; right|].
      destruct (decide (k = n)) as [->|Hne].
      * rewrite lookup_insert_eq in Hm. injection Hm as ->. by left; left.
      * rewrite lookup_insert_ne in Hm by done. right. by split.
    + intros [[[= -> ->]|Hin]|[[Hne Hnin] Hm]].
      * right. split; [done|]. by rewrite lookup_insert_eq.
      * by left.
      * right. split; [done|]. by rewrite lookup_insert_ne.
Qed.

Lemma node_indices_lookup (nodes_list : list str) n i :
  NoDup nodes_list →
  node_indices nodes_list !! n = Some i ↔ nodes_list !! i = Some n.
Proof.
  intros Hnd. unfold node_indices. rewrite foldl_insert_lookup.
  - rewrite lookup_empty. split.
    + intros [(j & x & [= -> ->] & Hj)%elem_of_lookup_imap|[_ ?]]; done.
    + intros Hi. left. apply elem_of_lookup_imap. by exists i, n.
  - by rewrite snd_imap_pair.
Qed.

Lemma imap_pair_lookup {A} (l : list A) i x :
  imap pair l !! i = Some (i, x) ↔ l !! i = Some x.
Proof.
  rewrite list_lookup_imap. destruct (l !! i); simpl; split; congruence.
Qed.

Lemma make_link_OK nodes_list flow l :
  NoDup nodes_list →
  make_link (node_indices nodes_list) flow = OK l → link_of nodes_list flow l.
Proof.
  intros Hnd. unfold make_link, index_of.
  destruct (node_indices nodes_list !! flow.1.1) as [i|] eqn:Hi; [|done].
  destruct (node_indices nodes_list !! flow.1.2) as [k|] eqn:Hk; [|done].
  cbn. intros [= <-]. apply node_indices_lookup in Hi, Hk; try done.
Qed.

Lemma make_link_total nodes_list flow :
  NoDup nodes_list → flow.1.1 ∈ nodes_list → flow.1.2 ∈ nodes_list →
  ∃ l, make_link (node_indices nodes_list) flow = OK l.
Proof.
  intros Hnd [i Hi]%list_elem_of_lookup_1 [k Hk]%list_elem_of_lookup_1.
  apply node_indices_lookup in Hi, Hk; try done.
  unfold make_link, index_of. rewrite Hi, Hk. by eexists.
Qed.

Lemma sankey_from_OK listed fl :
  NoDup listed →
  (∀ a b v, ((a, b), v) ∈ fl → a ∈ listed ∧ b ∈ listed) →
  ∃ links,
    sankey_from listed fl = OK (Sankey (imap pair (sorted listed)) links)
    ∧ Forall2 (link_of (sorted listed)) fl links.
Proof.
  intros Hnd Hkeys. unfold sankey_from.
  assert (NoDup (sorted listed)) as Hnd' by (by rewrite sorted_perm).
  destruct (for_each_total (make_link (node_indices (sorted listed))) fl)
    as [links Hlinks].
  { apply Forall_forall. intros [[a b] v] Hin.
    destruct (Hkeys a b v Hin) as [Ha Hb].
    apply make_link_total; [done|..]; by rewrite sorted_perm. }
  exists links. rewrite Hlinks. split; [done|].
  apply for_each_OK in Hlinks. eapply Forall2_impl; [exact Hlinks|].
  intros flow l. by apply make_link_OK.
Qed.

Lemma sankey_of_OK seqs :
  ∃ links,
    sankey_of seqs =
      OK (Sankey (imap pair (sorted (elements (label_set seqs)))) links)
    ∧ Forall2 (link_of (sorted (elements (label_set seqs))))
              (count_all (all_edges seqs)) links.
Proof.
  unfold sankey_of. rewrite collect_flows_spec. cbn [nodes_set flows].
  apply sankey_from_OK; [apply NoDup_elements|].
  intros a b v Hin. rewrite !elem_of_elements.
  apply all_edges_in_label_set, count_all_keys.
  apply list_elem_of_fmap. by exists ((a, b), v).
Qed.

Lemma get_sankey_data_found db job_id j :
  db !! job_id = Some j → get_sankey_data db job_id = sankey_of (job_sequences j).
Proof. intros Hj. unfold get_sankey_data, fetch_sequences. by rewrite Hj. Qed.

(** C1, as the code has it.  For a stored job, the nodes of the Sankey
    result are the distinct labels ("Start" and the first four levels of
    every lineage) in strictly increasing code-point order, numbered
    0, 1, 2, ...: the id of a node is the number of labels below its name.
    The ids do not depend on the order in which the label set is listed,
    and two jobs with the same label set get the same nodes.  For the
    label set {"Start", "Bacteria", "Eukaryota"} the ids are
    "Bacteria" 0, "Eukaryota" 1, "Start" 2. *)
Theorem sankey_node_ids_are_sorted_ranks (db : store) (job_id : str) (j : job) :
  db !! job_id = Some j →
  ∃ sk : sankey,
    get_sankey_data db job_id = OK sk
    ∧ (nodes sk).*1 = seq 0 (length (nodes sk))
    ∧ StronglySorted str_lt (nodes sk).*2
    ∧ (∀ n, n ∈ (nodes sk).*2 ↔ n ∈ label_set (job_sequences j))
    ∧ (∀ i n, (i, n) ∈ nodes sk →
         i = length (filter (λ m, str_lt m n) (nodes sk).*2))
    ∧ (∀ listed,
         listed ≡ₚ elements (nodes_set (collect_flows (job_sequences j))) →
         sankey_from listed (flows (collect_flows (job_sequences j))) = OK sk)
    ∧ (∀ seqs', label_set seqs' = label_set (job_sequences j) →
         ∃ sk', sankey_of seqs' = OK sk' ∧ nodes sk' = nodes sk)
    ∧ (label_set (job_sequences j)
         = {[py "Start"; py "Bacteria"; py "Eukaryota"]} →
       nodes sk = [(0, py "Bacteria"); (1, py "Eukaryota"); (2, py "Start")]).
Proof.
  intros Hj. rewrite (get_sankey_data_found _ _ _ Hj).
  set (seqs := job_sequences j).
  destruct (sankey_of_OK seqs) as (lks & Hsk & Hlinks).
  set (L := sorted (elements (label_set seqs))) in *.
  assert (StronglySorted str_lt L) as Hstrict
    by apply sorted_strict, NoDup_elements.
  eexists. split; [exact Hsk|]. cbn [nodes].
  rewrite snd_imap_pair, fst_imap_pair, length_imap. split_and!.
  - done.
  - done.
  - intros n. unfold L. by rewrite sorted_perm, elem_of_elements.
  - intros i n (k & x & [= -> ->] & Hk)%elem_of_lookup_imap.
    by apply strictly_sorted_rank.
  - intros listed Hperm. rewrite <- Hsk. unfold sankey_of, sankey_from.
    by rewrite (sorted_order_irrelevant _ _ Hperm).
  - intros seqs' Heq. destruct (sankey_of_OK seqs') as (lks' & Hsk' & _).
    eexists. split; [exact Hsk'|]. cbn [nodes]. by rewrite Heq.
  - intros Hset. unfold L. rewrite Hset. by vm_compute.
Qed.

Lemma sankey_node_ids_are_sorted_ranks_witness :
  ∃ sk : sankey,
    get_sankey_data two_domain_store (py "job-2") = OK sk
    ∧ nodes sk = [(0, py "Bacteria"); (1, py "Eukaryota"); (2, py "Start")].
Proof.
  destruct (sankey_node_ids_are_sorted_ranks two_domain_store (py "job-2")
              (Job (Some (py "domains.fasta"))
                 (Some (Analysis (Some (seqs_of ["Bacteria"; "Eukaryota"]%string))))))
    as (sk & Hsk & _ & _ & _ & _ & _ & _ & Hex).
  - by vm_compute.
  - exists sk. split; [exact Hsk|]. apply Hex. by vm_compute.
Defined.

(** C1 as stated fails: with the label set {"Start", "Bacteria",
    "Eukaryota"} the node "Start" has id 2, not 0, and "Bacteria" has
    id 0, not 1. *)
Lemma sankey_start_is_not_node_zero :
  label_set (seqs_of ["Bacteria"; "Eukaryota"]%string)
    = {[py "Start"; py "Bacteria"; py "Eukaryota"]}
  ∧ (nodes <$> get_sankey_data two_domain_store (py "job-2"))
    = OK [(0, py "Bacteria"); (1, py "Eukaryota"); (2, py "Start")]
  ∧ (nodes <$> get_sankey_data two_domain_store (py "job-2"))
    ≠ OK [(0, py "Start"); (1, py "Bacteria"); (2, py "Eukaryota")].
Proof. split_and!; by vm_compute. Qed.

(** C8.  For a stored job, the Sankey result has exactly the labels
    "Start" and the first four levels of the lineages as nodes, and one
    link per distinct pair of neighbours in "Start" followed by the first
    four levels of a lineage (at least one and at most four pairs per
    lineage), in order of first appearance; the value of a link is the
    number of times its pair occurs over all lineages.  A label that
    occurs only beyond the fourth level is therefore neither a node nor an
    end of a link. *)
Theorem sankey_edges_within_first_four_levels
    (db : store) (job_id : str) (j : job) :
  db !! job_id = Some j →
  ∃ sk : sankey,
    get_sankey_data db job_id = OK sk
    ∧ (∀ n, n ∈ (nodes sk).*2 ↔
         n = py "Start"
         ∨ ∃ s, s ∈ job_sequences j ∧ n ∈ take 4 (parts_of s))
    ∧ Forall2 (link_of (nodes sk).*2)
              (count_all (all_edges (job_sequences j))) (links sk)
    ∧ NoDup (count_all (all_edges (job_sequences j))).*1
    ∧ (∀ e, count_of e (count_all (all_edges (job_sequences j)))
            = length (filter (e =.) (all_edges (job_sequences j))))
    ∧ (∀ l, l ∈ links sk →
         ∃ a b s,
           s ∈ job_sequences j
           ∧ (a, b) ∈ consecutive (py "Start" :: take 4 (parts_of s))
           ∧ (nodes sk).*2 !! source l = Some a
           ∧ (nodes sk).*2 !! target l = Some b
           ∧ link_value l
             = length (filter ((a, b) =.) (all_edges (job_sequences j))))
    ∧ (∀ s, edges_of s = consecutive (py "Start" :: take 4 (parts_of s))
            ∧ 0 < length (edges_of s) ≤ 4).
Proof.
  intros Hj. rewrite (get_sankey_data_found _ _ _ Hj).
  set (seqs := job_sequences j).
  destruct (sankey_of_OK seqs) as (lks & Hsk & Hlinks).
  eexists. split; [exact Hsk|]. cbn [nodes links]. rewrite snd_imap_pair.
  split_and!.
  - intros n. rewrite sorted_perm, elem_of_elements. apply elem_of_label_set.
  - done.
  - apply count_all_NoDup.
  - intros e. apply count_all_count.
  - intros l [i Hi]%list_elem_of_lookup_1.
    destruct (Forall2_lookup_r _ _ _ _ _ Hlinks Hi)
      as ([[a b] v] & Hflow & Hs & Ht & Hv).
    cbn in Hs, Ht, Hv.
    assert (((a, b), v) ∈ count_all (all_edges seqs)) as Hin
      by (by eapply list_elem_of_lookup_2).
    assert ((a, b) ∈ all_edges seqs) as Hab.
    { apply count_all_keys, list_elem_of_fmap. by exists ((a, b), v). }
    unfold all_edges in Hab. apply list_elem_of_join in Hab
      as (es & Hab & (s & -> & Hsin)%list_elem_of_fmap).
    exists a, b, s. split_and!; try done.
    rewrite Hv, <- count_all_count.
    symmetry. apply count_of_lookup; [apply count_all_NoDup | done].
  - intros s. split; [done | apply length_edges_of].
Qed.

Lemma sankey_edges_within_first_four_levels_witness :
  ∃ sk : sankey,
    get_sankey_data two_domain_store (py "job-2") = OK sk
    ∧ NoDup (count_all (all_edges (seqs_of ["Bacteria"; "Eukaryota"]%string))).*1.
Proof.
  destruct (sankey_edges_within_first_four_levels two_domain_store (py "job-2")
              (Job (Some (py "domains.fasta"))
                 (Some (Analysis (Some (seqs_of ["Bacteria"; "Eukaryota"]%string))))))
    as (sk & Hsk & _ & _ & Hnd & _).
  - by vm_compute.
  - exists sk. split; [exact Hsk | exact Hnd].
Defined.

Example sankey_deep_lineage :
  get_sankey_data
    {[ py "job-3" :=
         Job None (Some (Analysis (Some (seqs_of
           ["Bacteria"; "Eukaryota; X;Y;Z;W;V"]%string)))) ]}
    (py "job-3")
  = OK (Sankey
          [(0, py "Bacteria"); (1, py "Eukaryota"); (2, py "Start");
           (3, py "X"); (4, py "Y"); (5, py "Z")]
          [Link 2 0 1; Link 2 1 1; Link 1 3 1; Link 3 4 1; Link 4 5 1]).
Proof. by vm_compute. Qed.

(** ** Hierarchy *)

Lemma add_lineage_step part rest d :
  add_lineage (part :: rest) d = dict_update part (bump rest part) d.
Proof. by destruct rest. Qed.

Lemma dict_get_update k k' f d :
  dict_get k' (dict_update k f d) =
    if decide (k' = k) then Some (f (dict_get k d)) else dict_get k' d.
Proof.
  induction d as [|[k0 n0] d IH]; cbn [dict_update dict_get].
  - by destruct (decide (k' = k)).
  - destruct (decide (k = k0)) as [->|Hne]; cbn [dict_get].
    + by destruct (decide (k' = k0)).
    + rewrite IH. destruct (decide (k' = k0)) as [->|Hne'].
      * by rewrite decide_False.
      * done.
Qed.

Lemma keys_dict_update k f d :
  (dict_update k f d).*1 = if decide (k ∈ d.*1) then d.*1 else d.*1 ++ [k].
Proof.
  induction d as [|[k0 n0] d IH]; [done|].
  cbn [dict_update]. rewrite fmap_cons. cbn [fst].
  destruct (decide (k = k0)) as [->|Hne]; rewrite fmap_cons; cbn [fst].
  - rewrite decide_True; [done | by left].
  - rewrite IH. destruct (decide (k ∈ d.*1)) as [Hin|Hnin].
    + rewrite decide_True; [done | by right].
    + rewrite decide_False; [done|]. by intros [?|?]%elem_of_cons.
Qed.

Lemma NoDup_dict_update k f d : NoDup d.*1 → NoDup (dict_update k f d).*1.
Proof.
  intros Hnd. rewrite keys_dict_update. case_decide as Hin; [done|].
  apply NoDup_app. split_and!; [done| |apply NoDup_singleton].
  intros x Hx ->%list_elem_of_singleton. done.
Qed.

Lemma dict_get_None k d : dict_get k d = None ↔ k ∉ d.*1.
Proof.
  induction d as [|[k0 n0] d IH]; cbn [dict_get].
  - split; [intros _; apply not_elem_of_nil | done].
  - rewrite fmap_cons, not_elem_of_cons. cbn [fst].
    destruct (decide (k = k0)) as [->|Hne]; [by split; [|intros []]|].
    rewrite IH. by split; [|intros []].
Qed.

Lemma dict_get_Some k n d : NoDup d.*1 → dict_get k d = Some n ↔ (k, n) ∈ d.
Proof.
  induction d as [|[k0 n0] d IH]; cbn [dict_get].
  - intros _. split; [done | by intros ?%elem_of_nil].
  - rewrite fmap_cons. cbn [fst]. intros [Hnin Hnd]%NoDup_cons.
    rewrite elem_of_cons. destruct (decide (k = k0)) as [->|Hne].
    + split; [intros [= ->]; by left|].
      intros [[= ->]|Hin]; [done|]. exfalso. apply Hnin.
      apply list_elem_of_fmap. by exists (k0, n).
    + rewrite IH by done. split; [by right|]. by intros [[= -> ->]|?].
Qed.

Lemma elem_of_dict_update k f d k' n' :
  NoDup d.*1 →
  (k', n') ∈ dict_update k f d →
  (k' = k ∧ n' = f (dict_get k d)) ∨ (k' ≠ k ∧ (k', n') ∈ d).
Proof.
  intros Hnd Hin.
  apply dict_get_Some in Hin; [|by apply NoDup_dict_update].
  rewrite dict_get_update in Hin. destruct (decide (k' = k)) as [->|Hne].
  - left. split; congruence.
  - right. split; [done|]. by apply dict_get_Some.
Qed.

Lemma find_path_nil_dict p : find_path p [] = None.
Proof. by destruct p. Qed.

Lemma find_path_cons k p' d :
  p' ≠ [] →
  find_path (k :: p') d =
    match dict_get k d with
    | None => None
    | Some n => find_path p' (node_children n)
    end.
Proof. intros Hne. cbn [find_path]. destruct (dict_get k d); by destruct p'. Qed.

Lemma find_path_singleton k d : find_path [k] d = dict_get k d.
Proof. cbn [find_path]. by destruct (dict_get k d). Qed.

(** Along the lineage being added, every node is bumped. *)
Lemma find_path_add_lineage_prefix q k r d :
  find_path (q ++ [k]) (add_lineage (q ++ k :: r) d) =
    Some (bump r k (find_path (q ++ [k]) d)).
Proof.
  revert d. induction q as [|k0 q IH]; intros d.
  - cbn [app]. rewrite add_lineage_step, !find_path_singleton.
    by rewrite dict_get_update, decide_True.
  - rewrite <- !app_comm_cons, add_lineage_step.
    rewrite !find_path_cons by (by destruct q).
    rewrite dict_get_update, decide_True by done.
    unfold bump at 1. cbn [node_children]. rewrite IH.
    destruct (dict_get k0 d) as [n0|]; [done|].
    cbn [default node_children]. by rewrite find_path_nil_dict.
Qed.

(** Away from the lineage being added, nothing changes. *)
Lemma find_path_add_lineage_other p l d :
  ¬ p `prefix_of` l → find_path p (add_lineage l d) = find_path p d.
Proof.
  revert l d. induction p as [|k p IH]; intros l d Hpre; [done|].
  destruct l as [|k0 rest]; [done|]. rewrite add_lineage_step.
  destruct (decide (k = k0)) as [->|Hne].
  - assert (¬ p `prefix_of` rest) as Hpre'.
    { intros Hp. apply Hpre. by apply prefix_cons. }
    assert (p ≠ []) as Hp by (intros ->; apply Hpre', prefix_nil).
    rewrite !find_path_cons by done.
    rewrite dict_get_update, decide_True by done.
    unfold bump. cbn [node_children]. rewrite IH by done.
    destruct (dict_get k0 d) as [n0|]; [done|].
    cbn [default node_children]. by rewrite find_path_nil_dict.
  - cbn [find_path]. by rewrite dict_get_update, decide_False.
Qed.

Lemma forest_sum_dict_update k f d :
  (∀ o, node_value (f o) = S (node_value (default (Node k 0 []) o))) →
  forest_sum (dict_update k f d) = S (forest_sum d).
Proof.
  intros Hf.
  induction d as [|[k0 n0] d IH]; cbn [dict_update forest_sum].
  - by rewrite Hf.
  - destruct (decide (k = k0)) as [->|Hne]; cbn [forest_sum].
    + by rewrite Hf.
    + rewrite IH. lia.
Qed.

Lemma forest_sum_add_lineage l d :
  l ≠ [] → forest_sum (add_lineage l d) = S (forest_sum d).
Proof.
  destruct l as [|k rest]; [done|]. intros _. rewrite add_lineage_step.
  by apply forest_sum_dict_update.
Qed.

Lemma add_lineage_nil d : add_lineage [] d = d.
Proof. done. Qed.

Lemma wf_nil : wf [].
Proof. constructor; [constructor|]. by intros k n ?%elem_of_nil. Qed.

Lemma wf_add_lineage l d : wf d → wf (add_lineage l d).
Proof.
  revert d. induction l as [|k rest IH]; intros d Hwf; [done|].
  rewrite add_lineage_step. destruct Hwf as [d Hnd Hall].
  constructor; [by apply NoDup_dict_update|].
  intros k' n' [[-> ->]|[Hne Hin]]%elem_of_dict_update; [|by apply Hall|done].
  unfold bump. cbn [node_name node_children].
  destruct (dict_get k d) as [n0|] eqn:Hget; cbn [default].
  - apply dict_get_Some in Hget; [|done]. destruct (Hall _ _ Hget) as [Hname Hch].
    split; [done | by apply IH].
  - cbn [node_name node_children]. split; [done | apply IH, wf_nil].
Qed.

Lemma dict_to_list_eq n :
  dict_to_list n =
    HNode (node_name n) (node_value n)
          (match out (node_children n) with
           | [] => None
           | _ :: _ => Some (out (node_children n))
           end).
Proof.
  destruct n as [nm v ch]. cbn [dict_to_list node_name node_value node_children].
  assert (∀ d : dict,
    (fix values (d : dict) : list hnode :=
       match d with
       | [] => []
       | (_, child) :: d' => dict_to_list child :: values d'
       end) d = out d) as ->; [|done].
  induction d as [|[k c] d IH]; [done|].
  unfold out. rewrite fmap_cons. by f_equal.
Qed.

Lemma hname_dict_to_list n : hname (dict_to_list n) = node_name n.
Proof. by rewrite dict_to_list_eq. Qed.

Lemma hvalue_dict_to_list n : hvalue (dict_to_list n) = node_value n.
Proof. by rewrite dict_to_list_eq. Qed.

Lemma hchildren_dict_to_list n ch :
  hchildren (dict_to_list n) = Some ch → ch = out (node_children n).
Proof.
  rewrite dict_to_list_eq. cbn [hchildren].
  destruct (out (node_children n)); [done|]. by intros [= <-].
Qed.

Lemma sum_out d : sum_list (hvalue <$> out d) = forest_sum d.
Proof.
  induction d as [|[k n] d IH]; [done|].
  unfold out in *. rewrite !fmap_cons. cbn [sum_list sum_list_with forest_sum].
  cbn [compose snd]. rewrite hvalue_dict_to_list.
  change (sum_list_with id ?l) with (sum_list l). by rewrite IH.
Qed.

Lemma hchildren_total_dict_to_list n :
  hchildren_total (dict_to_list n) = forest_sum (node_children n).
Proof.
  unfold hchildren_total. rewrite dict_to_list_eq. cbn [hchildren].
  rewrite <- sum_out. by destruct (out (node_children n)).
Qed.

Lemma at_path_nonempty p m ns : at_path p m ns → p ≠ [].
Proof. by destruct 1. Qed.

Lemma at_path_find p m ns :
  at_path p m ns →
  ∀ d, wf d → ns = out d → ∃ n, find_path p d = Some n ∧ m = dict_to_list n.
Proof.
  induction 1 as [m ns Hin | m' ns ch p m Hin Hch Hp IH]; intros d Hwf ->.
  - unfold out in Hin. apply list_elem_of_fmap in Hin as ([k n] & -> & Hin).
    destruct Hwf as [d Hnd Hall]. destruct (Hall _ _ Hin) as [Hname _].
    exists n. split; [|done]. cbn [compose snd].
    rewrite hname_dict_to_list, Hname, find_path_singleton.
    by apply dict_get_Some.
  - unfold out in Hin. apply list_elem_of_fmap in Hin as ([k n] & -> & Hin).
    destruct Hwf as [d Hnd Hall]. destruct (Hall _ _ Hin) as [Hname Hwfc].
    cbn [compose snd] in *. apply hchildren_dict_to_list in Hch.
    destruct (IH _ Hwfc Hch) as (n' & Hfind & ->).
    exists n'. split; [|done].
    rewrite hname_dict_to_list, Hname.
    rewrite find_path_cons by (by eapply at_path_nonempty).
    by rewrite (proj2 (dict_get_Some k n d Hnd) Hin).
Qed.

Lemma ending_at_snoc p ls l :
  ending_at p (ls ++ [l]) = ending_at p ls + (if decide (p = l) then 1 else 0).
Proof.
  unfold ending_at. rewrite filter_app, length_app, filter_cons, filter_nil.
  by destruct (decide (p = l)).
Qed.

Lemma ending_at_zero p ls : p ∉ ls → ending_at p ls = 0.
Proof.
  intros Hnin. unfold ending_at. rewrite filter_none; [done|].
  apply Forall_forall. by intros l Hl ->.
Qed.

(** What the tree looks like after the loop over the lineages [ls]. *)
Lemma build_invariant ls :
  Forall (λ l, l ≠ []) ls →
  let d := foldl (λ d l, add_lineage l d) [] ls in
  wf d
  ∧ forest_sum d = length ls
  ∧ (∀ l, l ∈ ls → is_Some (find_path l d))
  ∧ (∀ p n, find_path p d = Some n →
       node_value n = forest_sum (node_children n) + ending_at p ls).
Proof.
  induction ls as [|l ls IH] using rev_ind; intros Hne.
  - cbn. split_and!; [apply wf_nil | done | by intros l ?%elem_of_nil |].
    intros p n. by rewrite find_path_nil_dict.
  - apply Forall_app in Hne as [Hne Hl]. rewrite Forall_singleton in Hl.
    rewrite foldl_app. cbn [foldl]. cbn zeta in IH.
    destruct (IH Hne) as (Hwf & Hsum & Hfound & Hcount). clear IH.
    set (d := foldl (λ d l, add_lineage l d) [] ls) in *.
    cbn zeta. split_and!.
    + by apply wf_add_lineage.
    + rewrite forest_sum_add_lineage by exact Hl.
      rewrite Hsum, length_app. cbn. lia.
    + intros l' Hl'. destruct (decide (l' `prefix_of` l)) as [[r ->]|Hnp].
      * assert (l' ≠ []) as Hl'ne.
        { apply elem_of_app in Hl' as [Hl' | ->%list_elem_of_singleton].
          - rewrite Forall_forall in Hne. by apply Hne.
          - intros Heq. by rewrite Heq in Hl. }
        destruct l' as [|k q _] using rev_ind; [done|].
        rewrite <- app_assoc. cbn [app].
        by rewrite find_path_add_lineage_prefix.
      * rewrite find_path_add_lineage_other by done.
        apply elem_of_app in Hl' as [Hl' | ->%list_elem_of_singleton];
          [by apply Hfound|]. by destruct Hnp.
    + intros p n' Hfind. rewrite ending_at_snoc.
      destruct (decide (p `prefix_of` l)) as [[r ->]|Hnp].
      * assert (p ≠ []) as Hp by (by intros ->).
        destruct p as [|k q _] using rev_ind; [done|].
        rewrite <- app_assoc in Hfind. cbn [app] in Hfind.
        rewrite find_path_add_lineage_prefix in Hfind.
        injection Hfind as <-. unfold bump. cbn [node_value node_children].
        assert (forest_sum (add_lineage r (node_children
                  (default (Node k 0 []) (find_path (q ++ [k]) d))))
                = forest_sum (node_children
                    (default (Node k 0 []) (find_path (q ++ [k]) d)))
                  + (if decide (r = []) then 0 else 1)) as ->.
        { destruct (decide (r = [])) as [->|Hr]; [cbn; lia|].
          rewrite forest_sum_add_lineage by done. lia. }
        assert ((if decide (q ++ [k] = (q ++ [k]) ++ r) then 1 else 0)
                = (if decide (r = []) then 1 else 0)) as ->.
        { destruct (decide (r = [])) as [->|Hr].
          - by rewrite app_nil_r, decide_True.
          - rewrite decide_False; [done|]. intros Heq.
            apply Hr. rewrite <- (app_nil_r (q ++ [k])) in Heq at 1.
            by apply app_inv_head in Heq. }
        destruct (find_path (q ++ [k]) d) as [n0|] eqn:Hold;
          cbn [default from_option id].
        -- rewrite (Hcount _ _ Hold). destruct (decide (r = [])); lia.
        -- cbn [node_value node_children forest_sum].
           rewrite ending_at_zero.
           ++ destruct (decide (r = [])); lia.
           ++ intros Hin. destruct (Hfound _ Hin) as [? Hsome]. congruence.
      * rewrite find_path_add_lineage_other in Hfind by done.
        rewrite (Hcount _ _ Hfind), decide_False; [lia|].
        by intros ->.
Qed.

Lemma build_tree_lineages seqs :
  build_tree seqs = foldl (λ d l, add_lineage l d) [] (lineages seqs).
Proof.
  unfold build_tree, lineages. generalize (@nil (str * node)).
  induction seqs as [|s seqs IH]; intros d; [done|].
  rewrite fmap_cons. cbn [foldl]. apply IH.
Qed.

Lemma lineages_nonempty seqs : Forall (λ l, l ≠ []) (lineages seqs).
Proof.
  unfold lineages. apply Forall_fmap, Forall_forall. intros s _.
  apply parts_of_nonempty.
Qed.

(** C2, as the code has it.  For a stored job, the counts of the
    top-level nodes of the hierarchy add up to the number of sequence
    records, and the count of every node is the sum of the counts of its
    direct children plus the number of lineages that end exactly at that
    node; so a node at which no lineage ends has the sum of its
    children's counts as its count. *)
Theorem hierarchy_counts (db : store) (job_id : str) (j : job) :
  db !! job_id = Some j →
  ∃ h : hierarchy,
    get_hierarchical_data db job_id = OK h
    ∧ h_name h = py "Life"
    ∧ sum_list (hvalue <$> h_children h) = length (job_sequences j)
    ∧ ∀ p m, at_path p m (h_children h) →
        hvalue m
          = hchildren_total m + ending_at p (lineages (job_sequences j))
        ∧ (p ∉ lineages (job_sequences j) → hvalue m = hchildren_total m).
Proof.
  intros Hj. unfold get_hierarchical_data, fetch_sequences. rewrite Hj.
  set (seqs := job_sequences j). eexists. split; [done|].
  unfold hierarchy_of. cbn [h_name h_children]. fold (out (build_tree seqs)).
  rewrite build_tree_lineages.
  destruct (build_invariant (lineages seqs) (lineages_nonempty seqs))
    as (Hwf & Hsum & _ & Hcount).
  split_and!; [done|..].
  - rewrite sum_out, Hsum. unfold lineages. by rewrite length_fmap.
  - intros p m Hp.
    destruct (at_path_find _ _ _ Hp _ Hwf eq_refl) as (n & Hfind & ->).
    rewrite hvalue_dict_to_list, hchildren_total_dict_to_list.
    split; [by apply Hcount|]. intros Hnin.
    rewrite (Hcount _ _ Hfind), ending_at_zero by done. lia.
Qed.

Lemma hierarchy_counts_witness :
  ∃ h : hierarchy,
    get_hierarchical_data nested_store (py "job-4") = OK h
    ∧ sum_list (hvalue <$> h_children h) = 2.
Proof.
  destruct (hierarchy_counts nested_store (py "job-4")
              (Job (Some (py "nested.fasta"))
                 (Some (Analysis (Some (seqs_of ["A"; "A;B"]%string))))))
    as (h & Hh & _ & Hsum & _).
  - by vm_compute.
  - exists h. split; [exact Hh | exact Hsum].
Defined.

(** C2 as stated fails: with the lineages "A" and "A;B" the node "A" is
    not a leaf, its count is 2 and its only child counts 1. *)
Lemma hierarchy_nonleaf_count_exceeds_children :
  get_hierarchical_data nested_store (py "job-4")
    = OK (Hierarchy (py "Life")
            [HNode (py "A") 2 (Some [HNode (py "B") 1 None])])
  ∧ at_path [py "A"] (HNode (py "A") 2 (Some [HNode (py "B") 1 None]))
            [HNode (py "A") 2 (Some [HNode (py "B") 1 None])]
  ∧ hvalue (HNode (py "A") 2 (Some [HNode (py "B") 1 None])) = 2
  ∧ hchildren_total (HNode (py "A") 2 (Some [HNode (py "B") 1 None])) = 1
  ∧ hvalue (HNode (py "A") 2 (Some [HNode (py "B") 1 None]))
    ≠ hchildren_total (HNode (py "A") 2 (Some [HNode (py "B") 1 None])).
Proof.
  split_and!; try by vm_compute.
  apply (at_here (HNode (py "A") 2 (Some [HNode (py "B") 1 None]))).
  by left.
Qed.

Example five_phyla :
  get_taxonomic_composition five_phyla_store (py "job-5") (py "phylum")
  = OK [Entry (py "Alveolata") 1 (decimal 2000 2) (py "#22D3EE");
        Entry (py "Chlorophyta") 1 (decimal 2000 2) (py "#10B981");
        Entry (py "Metazoa") 1 (decimal 2000 2) (py "#F59E0B");
        Entry (py "Rhodophyta") 1 (decimal 2000 2) (py "#EC4899");
        Entry (py "Fungi") 1 (decimal 2000 2) (py "#A78BFA")]
  ∧ top_level (get_hierarchical_data five_phyla_store (py "job-5"))
    = [(py "Eukaryota", 5, 5)].
Proof. split; by vm_compute. Qed.

(** ** Jobs that are not in the store *)

Lemma heatmap_loop_skips db rank job_id before after st :
  db !! job_id = None →
  foldl (heatmap_step db rank) st (before ++ job_id :: after)
  = foldl (heatmap_step db rank) st (before ++ after).
Proof.
  intros Hmiss. rewrite !foldl_app. cbn [foldl]. f_equal.
  unfold heatmap_step. by rewrite Hmiss.
Qed.

Lemma heatmap_skips_missing db rank job_id before after :
  db !! job_id = None →
  get_heatmap_data db (before ++ job_id :: after) rank
  = get_heatmap_data db (before ++ after) rank.
Proof.
  intros Hmiss. unfold get_heatmap_data.
  by rewrite (heatmap_loop_skips _ _ _ _ _ _ Hmiss).
Qed.

Lemma collect_samples_skips db job_id before after :
  db !! job_id = None →
  collect_samples db (before ++ job_id :: after)
  = collect_samples db (before ++ after).
Proof.
  intros Hmiss. unfold collect_samples. rewrite !foldl_app. cbn [foldl].
  f_equal. unfold diversity_step. by rewrite Hmiss.
Qed.

Lemma diversity_skips_missing pca db job_id before after :
  db !! job_id = None →
  calculate_beta_diversity pca db (before ++ job_id :: after)
  = calculate_beta_diversity pca db (before ++ after).
Proof.
  intros Hmiss. unfold calculate_beta_diversity.
  by rewrite (collect_samples_skips _ _ _ _ Hmiss).
Qed.

Lemma heatmap_zero_records db rank job_id j :
  db !! job_id = Some j → job_sequences j = [] →
  get_heatmap_data db [job_id] rank
  = OK (Heatmap [default (py "Unknown") (filename j)] [] [[]]).
Proof.
  intros Hj Hnil. unfold get_heatmap_data. cbn [foldl].
  unfold heatmap_step. rewrite Hj, Hnil.
  cbn [fmap list_fmap count_all foldl hs_samples hs_taxa hs_counts app].
  rewrite list_to_set_nil, (left_id_L ∅ (∪)), elements_empty.
  cbn [for_each]. unfold heatmap_row. cbn [hs_counts].
  by rewrite lookup_insert_eq.
Qed.

Lemma heatmap_of_missing_jobs db rank job_ids :
  Forall (λ job_id, db !! job_id = None) job_ids →
  get_heatmap_data db job_ids rank = OK (Heatmap [] [] []).
Proof.
  induction 1 as [|job_id job_ids Hmiss _ IH].
  - unfold get_heatmap_data. cbn [foldl hs_taxa hs_samples].
    by rewrite elements_empty.
  - change (job_id :: job_ids) with ([] ++ job_id :: job_ids).
    by rewrite (heatmap_skips_missing db rank job_id [] job_ids Hmiss).
Qed.

(** C3, as the code has it.  For a job id that is not in the store, the
    composition, the hierarchy and the Sankey formatter raise
    [ValueError] at once; the heatmap and the diversity formatter skip
    the id and go on with the others, so a heatmap request for ids that
    are all missing returns empty lists without an error.  For a stored
    job without sequence records the composition is the empty list and
    the heatmap has the sample with no taxa and an empty row. *)
Theorem missing_job_raises_or_is_skipped
    (pca : list (list nat) → result (list (list npfloat) * list npfloat))
    (db : store) (rank : str) :
  (∀ job_id : str, db !! job_id = None →
     get_taxonomic_composition db job_id rank = Raise (not_found job_id)
     ∧ get_hierarchical_data db job_id = Raise (not_found job_id)
     ∧ get_sankey_data db job_id = Raise (not_found job_id)
     ∧ (∀ before after : list str,
          get_heatmap_data db (before ++ job_id :: after) rank
          = get_heatmap_data db (before ++ after) rank
          ∧ calculate_beta_diversity pca db (before ++ job_id :: after)
            = calculate_beta_diversity pca db (before ++ after)))
  ∧ (∀ job_ids : list str,
       Forall (λ job_id, db !! job_id = None) job_ids →
       get_heatmap_data db job_ids rank = OK (Heatmap [] [] []))
  ∧ (∀ (job_id : str) (j : job),
       db !! job_id = Some j → job_sequences j = [] →
       get_taxonomic_composition db job_id rank = OK []
       ∧ get_heatmap_data db [job_id] rank
         = OK (Heatmap [default (py "Unknown") (filename j)] [] [[]])).
Proof.
  split_and!.
  - intros job_id Hmiss. split_and!.
    + unfold get_taxonomic_composition, fetch_sequences. by rewrite Hmiss.
    + unfold get_hierarchical_data, fetch_sequences. by rewrite Hmiss.
    + unfold get_sankey_data, fetch_sequences. by rewrite Hmiss.
    + intros before after. split.
      * by apply heatmap_skips_missing.
      * by apply diversity_skips_missing.
  - apply heatmap_of_missing_jobs.
  - intros job_id j Hj Hnil. split.
    + unfold get_taxonomic_composition, fetch_sequences.
      rewrite Hj. cbn. by rewrite Hnil.
    + by apply heatmap_zero_records.
Qed.

Lemma missing_job_raises_or_is_skipped_witness :
  get_taxonomic_composition (∅ : store) (py "job-x") (py "class")
    = Raise (not_found (py "job-x"))
  ∧ get_heatmap_data (∅ : store) [py "job-x"; py "job-y"] (py "class")
    = OK (Heatmap [] [] [])
  ∧ get_taxonomic_composition empty_job_store (py "job-0") (py "class") = OK [].
Proof.
  destruct (missing_job_raises_or_is_skipped
              pca_returns (∅ : store) (py "class"))
    as (Hmiss & Hall & _).
  destruct (missing_job_raises_or_is_skipped
              pca_returns empty_job_store (py "class"))
    as (_ & _ & Hzero).
  split_and!.
  - by apply Hmiss.
  - apply Hall. by repeat constructor.
  - by apply (Hzero (py "job-0")
                (Job (Some (py "empty.fasta")) (Some (Analysis (Some []))))).
Defined.

(** C3 as stated fails: a heatmap request for a job id that is not in the
    store returns empty lists and raises nothing. *)
Lemma heatmap_missing_job_returns_empty :
  empty_job_store !! py "job-x" = None
  ∧ get_heatmap_data empty_job_store [py "job-x"] (py "class")
    = OK (Heatmap [] [] [])
  ∧ get_heatmap_data empty_job_store [py "job-x"; py "job-0"] (py "class")
    = OK (Heatmap [py "empty.fasta"] [] [[]]).
Proof. split_and!; by vm_compute. Qed.

(** ** Beta diversity *)

Lemma cell_fmap {A B} (f : A → B) (m : list (list A)) i j :
  cell ((λ row : list A, f <$> row) <$> m) i j = f <$> cell m i j.
Proof.
  unfold cell. rewrite list_lookup_fmap.
  destruct (m !! i) as [row|]; [|done]. cbn. by rewrite list_lookup_fmap.
Qed.

Lemma cell_dissimilarity n M i j :
  i < n → j < n →
  cell (dissimilarity_matrix n M) i j =
    Some (if decide (i ≠ j)
          then braycurtis (default [] (M !! i)) (default [] (M !! j))
          else Fin 0).
Proof.
  intros Hi Hj. unfold cell, dissimilarity_matrix.
  rewrite list_lookup_fmap, lookup_seq_lt by done. cbn.
  by rewrite list_lookup_fmap, lookup_seq_lt.
Qed.

Lemma braycurtis_comm u v : braycurtis u v = braycurtis v u.
Proof.
  unfold braycurtis. f_equal; f_equal.
  - revert v. induction u as [|a u IH]; intros [|b v]; cbn; try done.
    f_equal; [lia | apply IH].
  - revert v. induction u as [|a u IH]; intros [|b v]; cbn; try done.
    f_equal; [lia | apply IH].
Qed.

Lemma l1_diff_le_sum u v :
  (0 ≤ foldr Z.add 0 (zip_with (λ a b, Z.abs (Z.of_nat a - Z.of_nat b)) u v)
     ≤ foldr Z.add 0 (zip_with (λ a b, Z.abs (Z.of_nat a + Z.of_nat b)) u v))%Z.
Proof.
  revert v. induction u as [|a u IH]; intros [|b v]; cbn [zip_with foldr];
    try lia.
  specialize (IH v). lia.
Qed.

Lemma l1_sum_same_length u v :
  length u = length v →
  foldr Z.add 0%Z (zip_with (λ a b, Z.abs (Z.of_nat a + Z.of_nat b)) u v)
  = Z.of_nat (sum_list u + sum_list v).
Proof.
  revert v. induction u as [|a u IH]; intros [|b v] Hlen; try done.
  cbn [zip_with foldr sum_list sum_list_with]. rewrite IH by (by injection Hlen).
  unfold id. change (sum_list_with (λ x, x) ?l) with (sum_list l). lia.
Qed.

Lemma truediv_unit a b :
  (0 ≤ a ≤ b)%Z → (0 < b)%Z → (0 <= truediv a b)%Q ∧ (truediv a b <= 1)%Q.
Proof.
  intros [Ha Hab] Hb. unfold truediv. rewrite Qred_correct.
  assert (0 < inject_Z b)%Q as Hb'.
  { change 0%Q with (inject_Z 0). by rewrite <- Zlt_Qlt. }
  split.
  - apply Qle_shift_div_l; [done|]. rewrite Qmult_0_l.
    change 0%Q with (inject_Z 0). by rewrite <- Zle_Qle.
  - apply Qle_shift_div_r; [done|]. rewrite Qmult_1_l. by rewrite <- Zle_Qle.
Qed.

Lemma braycurtis_unit u v :
  length u = length v → 0 < sum_list u + sum_list v →
  in_unit_interval (braycurtis u v).
Proof.
  intros Hlen Hpos. unfold braycurtis.
  pose proof (l1_diff_le_sum u v) as Hle.
  rewrite (l1_sum_same_length u v Hlen) in *.
  unfold np_div. destruct (Z.eqb_spec (Z.of_nat (sum_list u + sum_list v)) 0);
    [lia|].
  cbn [in_unit_interval]. apply truediv_unit; lia.
Qed.

Lemma braycurtis_nan u v :
  length u = length v → sum_list u + sum_list v = 0 → braycurtis u v = NaN.
Proof.
  intros Hlen Hzero. unfold braycurtis.
  pose proof (l1_diff_le_sum u v) as Hle.
  rewrite (l1_sum_same_length u v Hlen) in *. rewrite Hzero in *.
  cbn [Z.of_nat] in *.
  assert (foldr Z.add 0%Z
            (zip_with (λ a b, Z.abs (Z.of_nat a - Z.of_nat b)) u v) = 0%Z)
    as -> by lia.
  done.
Qed.

Lemma foldl_diversity_lengths db job_ids st :
  length (ds_names st) = length (ds_vectors st) →
  length (ds_names (foldl (diversity_step db) st job_ids))
  = length (ds_vectors (foldl (diversity_step db) st job_ids)).
Proof.
  revert st. induction job_ids as [|job_id job_ids IH]; intros st Hlen; [done|].
  cbn [foldl]. apply IH. unfold diversity_step.
  destruct (db !! job_id); [|done].
  cbn [ds_names ds_vectors]. rewrite !length_app. cbn. lia.
Qed.

Lemma collect_samples_lengths db job_ids :
  length (ds_names (collect_samples db job_ids))
  = length (abundance_matrix (collect_samples db job_ids)).
Proof.
  unfold abundance_matrix. rewrite length_fmap.
  by apply foldl_diversity_lengths.
Qed.

Lemma abundance_rows_length st u :
  u ∈ abundance_matrix st →
  length u = length (sorted (elements (ds_taxa st))).
Proof.
  unfold abundance_matrix. intros (c & -> & _)%list_elem_of_fmap.
  by rewrite length_fmap.
Qed.

Lemma calculate_beta_diversity_OK pca db job_ids r :
  calculate_beta_diversity pca db job_ids = OK r →
  ∃ fitted,
    pca (abundance_matrix (collect_samples db job_ids)) = OK fitted
    ∧ r = Diversity
            (ds_names (collect_samples db job_ids))
            (dissimilarity_matrix
               (length (ds_names (collect_samples db job_ids)))
               (abundance_matrix (collect_samples db job_ids)))
            ((λ row : list npfloat, one_minus <$> row) <$>
               dissimilarity_matrix
                 (length (ds_names (collect_samples db job_ids)))
                 (abundance_matrix (collect_samples db job_ids)))
            fitted.1 fitted.2.
Proof.
  unfold calculate_beta_diversity.
  destruct (pca (abundance_matrix (collect_samples db job_ids))) as [fitted|e];
    [|done].
  cbn. intros [= <-]. by exists fitted.
Qed.

(** The entries of the reported matrices, for any two samples. *)
Lemma diversity_cells pca db job_ids r i j u v :
  calculate_beta_diversity pca db job_ids = OK r →
  abundance_matrix (collect_samples db job_ids) !! i = Some u →
  abundance_matrix (collect_samples db job_ids) !! j = Some v →
  ∃ dij,
    cell (d_dissimilarity r) i j = Some dij
    ∧ cell (d_dissimilarity r) j i = Some dij
    ∧ cell (d_similarity r) i j = Some (one_minus dij)
    ∧ (i = j → dij = Fin 0)
    ∧ (i = j ∨ 0 < sum_list u + sum_list v → in_unit_interval dij)
    ∧ (i ≠ j → sum_list u + sum_list v = 0 → dij = NaN).
Proof.
  intros (fitted & _ & ->)%calculate_beta_diversity_OK Hu Hv.
  cbn [d_dissimilarity d_similarity].
  set (st := collect_samples db job_ids) in *.
  set (M := abundance_matrix st) in *.
  assert (length (ds_names st) = length M) as Hn
    by apply collect_samples_lengths.
  assert (i < length (ds_names st)) as Hi
    by (rewrite Hn; by apply lookup_lt_Some in Hu).
  assert (j < length (ds_names st)) as Hj
    by (rewrite Hn; by apply lookup_lt_Some in Hv).
  assert (length u = length v) as Hlen.
  { rewrite (abundance_rows_length st u), (abundance_rows_length st v);
      [done|by eapply list_elem_of_lookup_2..]. }
  rewrite cell_fmap, !cell_dissimilarity by done. rewrite Hu, Hv.
  cbn [default from_option id].
  destruct (decide (i = j)) as [->|Hne].
  - rewrite !decide_False by (by intros ?). exists (Fin 0).
    split_and!; done.
  - rewrite (decide_True (P := i ≠ j)) by done.
    rewrite (decide_True (P := j ≠ i)) by (by intros ->).
    exists (braycurtis u v). split_and!; try done.
    + by rewrite (braycurtis_comm v u).
    + intros [?|Hpos]; [done|]. by apply braycurtis_unit.
    + intros _ Hzero. by apply braycurtis_nan.
Qed.

(** C6, as the code has it.  When the diversity calculator returns, its
    dissimilarity matrix has one row and one column per sample; the
    entry of a sample with itself is 0; the matrix is symmetric; every
    entry of the similarity matrix is 1 minus the dissimilarity; and the
    entry of two different samples is in [0,1] when at least one of them
    has a record.  The entry of two different samples that both have no
    record is NaN.  Floats are read as exact rationals. *)
Theorem dissimilarity_matrix_properties
    (pca : list (list nat) → result (list (list npfloat) * list npfloat))
    (db : store) (job_ids : list str) (r : diversity) :
  calculate_beta_diversity pca db job_ids = OK r →
  length (abundance_matrix (collect_samples db job_ids)) = length (d_samples r)
  ∧ ∀ i j u v,
      abundance_matrix (collect_samples db job_ids) !! i = Some u →
      abundance_matrix (collect_samples db job_ids) !! j = Some v →
      ∃ dij,
        cell (d_dissimilarity r) i j = Some dij
        ∧ cell (d_dissimilarity r) j i = Some dij
        ∧ cell (d_similarity r) i j = Some (one_minus dij)
        ∧ (i = j → dij = Fin 0)
        ∧ (i = j ∨ 0 < sum_list u + sum_list v → in_unit_interval dij)
        ∧ (i ≠ j → sum_list u + sum_list v = 0 → dij = NaN).
Proof.
  intros Hr. split.
  - destruct (calculate_beta_diversity_OK _ _ _ _ Hr) as (fitted & _ & ->).
    cbn [d_samples]. symmetry. apply collect_samples_lengths.
  - intros i j u v. by apply (diversity_cells pca).
Qed.

Lemma dissimilarity_matrix_properties_witness :
  ∃ r : diversity,
    calculate_beta_diversity pca_returns mixed_store [py "m"; py "n"] = OK r
    ∧ length (abundance_matrix (collect_samples mixed_store [py "m"; py "n"]))
      = length (d_samples r).
Proof.
  eexists. split.
  - by vm_compute.
  - apply (dissimilarity_matrix_properties pca_returns mixed_store
             [py "m"; py "n"]).
    by vm_compute.
Defined.

Example diversity_two_samples :
  d_dissimilarity
    <$> calculate_beta_diversity pca_returns mixed_store [py "m"; py "n"]
  = OK [[Fin 0; Fin (3 # 5)]; [Fin (3 # 5); Fin 0]].
Proof. by vm_compute. Qed.

(** C6 as stated fails: two samples without records have the
    dissimilarity NaN, which is not in [0,1]. *)
Lemma dissimilarity_of_two_empty_samples_is_nan :
  abundance_matrix (collect_samples sparse_store [py "a"; py "b"; py "c"])
    = [[0; 0]; [0; 0]; [1; 1]]
  ∧ dissimilarity_matrix 3
      (abundance_matrix (collect_samples sparse_store [py "a"; py "b"; py "c"]))
    = [[Fin 0; NaN; Fin 1]; [NaN; Fin 0; Fin 1]; [Fin 1; Fin 1; Fin 0]]
  ∧ ¬ in_unit_interval NaN
  ∧ ∀ pca fitted,
      pca [[0; 0]; [0; 0]; [1; 1]] = OK fitted →
      d_dissimilarity
        <$> calculate_beta_diversity pca sparse_store [py "a"; py "b"; py "c"]
      = OK [[Fin 0; NaN; Fin 1]; [NaN; Fin 0; Fin 1]; [Fin 1; Fin 1; Fin 0]].
Proof.
  split_and!; [by vm_compute | by vm_compute | by intros [] |].
  intros pca fitted Hfit. unfold calculate_beta_diversity.
  assert (abundance_matrix
            (collect_samples sparse_store [py "a"; py "b"; py "c"])
          = [[0; 0]; [0; 0]; [1; 1]]) as -> by (by vm_compute).
  rewrite Hfit. by vm_compute.
Qed.

(* ===================================================================== *)
(** * Further properties of the formatters *)
(* ===================================================================== *)

(** ** Lookups that cannot fail *)

(** X1.  Given the records of a job, the taxonomy of each a string or
    absent, the loop of the composition formatter never fails: the
    division neither divides by zero nor overflows and the colour list
    has an entry for every index, so there is one entry per distinct
    label.  The link construction of the Sankey formatter never looks up
    a label that is missing from the node index. *)
Theorem composition_and_sankey_lookups_succeed
    (rank : str) (seqs : list sequence) :
  (∃ comp : list entry,
     composition_of rank seqs = OK comp
     ∧ length comp
       = length (count_all (labels_at (composition_idx rank) seqs)))
  ∧ (∃ sk : sankey,
       sankey_of seqs = OK sk
       ∧ length (links sk) = length (count_all (all_edges seqs))).
Proof.
  split.
  - destruct (composition_of_OK rank seqs) as (comp & Hcomp & Hall).
    exists comp. split; [done|].
    rewrite <- (Forall2_length _ _ _ Hall).
    by rewrite (most_common_perm (count_all _)).
  - destruct (sankey_of_OK seqs) as (lks & Hsk & Hall).
    eexists. split; [exact Hsk|]. cbn [links].
    symmetry. by eapply Forall2_length.
Qed.

(** ** The colours of the composition *)

Lemma extend_colors_cycle fuel colors count :
  (∃ m, length colors = 15 * m) →
  (∀ i, i < length colors → colors !! i = palette !! (i mod 15)) →
  ∀ i, i < length (extend_colors fuel colors count) →
       extend_colors fuel colors count !! i = palette !! (i mod 15).
Proof.
  revert colors. induction fuel as [|fuel IH]; intros colors [m Hm] Hcyc;
    cbn [extend_colors]; [done|].
  destruct (length colors <? count); [|done].
  apply IH.
  - exists (2 * m). rewrite length_app. lia.
  - intros i Hi. rewrite length_app in Hi.
    destruct (decide (i < length colors)) as [Hlt|Hge].
    + rewrite lookup_app_l by done. by apply Hcyc.
    + rewrite lookup_app_r by lia. rewrite Hcyc by lia. f_equal.
      rewrite Hm. replace i with ((i - 15 * m) + m * 15) at 2 by lia.
      by rewrite Nat.Div0.mod_add.
Qed.

Lemma generate_colors_cycle count i :
  i < count → _generate_colors count !! i = palette !! (i mod 15).
Proof.
  intros Hi. unfold _generate_colors. rewrite lookup_take_lt by done.
  apply extend_colors_cycle.
  - by exists 1.
  - intros k Hk. rewrite Nat.mod_small; done.
  - pose proof (length_extend_colors count palette count) as Hlen.
    change (length palette) with 15 in Hlen. lia.
Qed.

(** X2.  The colours of a composition follow the 15-colour palette
    cyclically: the entry at position [i] has the colour at position
    [i mod 15] of the palette, so the 16th entry has the colour of the
    first one again. *)
Theorem composition_colors_cycle
    (db : store) (job_id rank : str) (comp : list entry) (i : nat) (e : entry) :
  get_taxonomic_composition db job_id rank = OK comp →
  comp !! i = Some e →
  palette !! (i mod 15) = Some (color e).
Proof.
  unfold get_taxonomic_composition, fetch_sequences.
  destruct (db !! job_id) as [j|]; [|done]. cbn.
  unfold composition_of. intros Hcomp%for_each_OK Hi.
  destruct (Forall2_lookup_r _ _ _ _ _ Hcomp Hi) as ([k tc] & Hk & He).
  apply list_lookup_imap_Some in Hk as (tc' & Htc & [= -> ->]).
  unfold composition_entry in He. cbn [fst snd] in He.
  destruct (int_truediv _ _) as [q|]; [|done]. cbn [mbind result_bind] in He.
  destruct (_generate_colors _ !! i) as [c|] eqn:Hc; [|done].
  injection He as <-. cbn [color].
  rewrite <- Hc. symmetry. apply generate_colors_cycle.
  apply lookup_lt_Some in Hc. by rewrite length_generate_colors in Hc.
Qed.

Lemma composition_colors_cycle_witness :
  palette !! (1 mod 15) = Some (py "#10B981").
Proof.
  apply (composition_colors_cycle example_store (py "job-1") (py "phylum")
           [Entry (py "Alveolata") 2 (decimal 6667 2) (py "#22D3EE");
            Entry (py "Chlorophyta") 1 (decimal 3333 2) (py "#10B981")]
           1 (Entry (py "Chlorophyta") 1 (decimal 3333 2) (py "#10B981"))).
  - by vm_compute.
  - done.
Defined.

(** ** The heatmap *)

Lemma count_all_keys_set (ks : list str) :
  list_to_set (C := gset str) (count_all ks).*1 = list_to_set ks.
Proof.
  apply set_eq. intros k. rewrite !elem_of_list_to_set. apply count_all_keys.
Qed.

Lemma heatmap_step_present db rank st job_id j :
  db !! job_id = Some j →
  heatmap_step db rank st job_id =
    HeatmapState
      (hs_samples st ++ [sample_name j])
      (hs_taxa st ∪ list_to_set (labels_at (heatmap_idx rank) (job_sequences j)))
      (<[sample_name j :=
           count_all (labels_at (heatmap_idx rank) (job_sequences j))]>
         (hs_counts st)).
Proof.
  intros Hj. unfold heatmap_step. rewrite Hj. fold (sample_name j).
  fold (labels_at (heatmap_idx rank) (job_sequences j)).
  by rewrite count_all_keys_set.
Qed.

Lemma heatmap_loop db rank job_ids st :
  foldl (heatmap_step db rank) st job_ids =
    HeatmapState
      (hs_samples st ++ (sample_name <$> present_jobs db job_ids))
      (hs_taxa st ∪
         list_to_set (mjoin (labels_at (heatmap_idx rank) ∘ job_sequences
                             <$> present_jobs db job_ids)))
      (foldl (λ m j, <[sample_name j :=
                         count_all (labels_at (heatmap_idx rank) (job_sequences j))]> m)
             (hs_counts st) (present_jobs db job_ids)).
Proof.
  revert st. induction job_ids as [|job_id job_ids IH]; intros st.
  - destruct st. cbn. f_equal; [by rewrite app_nil_r | set_solver].
  - cbn [foldl]. rewrite IH. unfold present_jobs.
    cbn [omap list_omap]. fold (present_jobs db job_ids).
    destruct (db !! job_id) as [j|] eqn:Hj.
    + rewrite (heatmap_step_present _ _ _ _ _ Hj).
      cbn [hs_samples hs_taxa hs_counts]. rewrite !fmap_cons.
      cbn [mjoin list_join foldl compose].
      f_equal; [by rewrite <- app_assoc|].
      rewrite list_to_set_app_L. set_solver.
    + unfold heatmap_step. by rewrite Hj.
Qed.

Lemma last_named_cons name j jobs :
  last_named name (j :: jobs) =
    match last_named name jobs with
    | Some j' => Some j'
    | None => if decide (sample_name j = name) then Some j else None
    end.
Proof.
  unfold last_named. rewrite filter_cons.
  destruct (decide (sample_name j = name)); [|by destruct (last _)].
  by rewrite last_cons.
Qed.

Lemma last_named_Some name j jobs :
  last_named name jobs = Some j → j ∈ jobs ∧ sample_name j = name.
Proof.
  unfold last_named. intros Hl%last_Some_elem_of.
  apply list_elem_of_filter in Hl as [? ?]. done.
Qed.

Lemma last_named_is_Some name jobs :
  name ∈ sample_name <$> jobs → is_Some (last_named name jobs).
Proof.
  intros (j & -> & Hj)%list_elem_of_fmap. unfold last_named.
  apply last_is_Some. intros Hnil.
  assert (j ∈ filter (λ j', sample_name j' = sample_name j) jobs) as Hin
    by (by apply list_elem_of_filter).
  rewrite Hnil in Hin. by apply elem_of_nil in Hin.
Qed.

(** With distinct sample names, the last job with the name of the
    [i]-th job is the [i]-th job. *)
Lemma last_named_NoDup jobs i j :
  NoDup (sample_name <$> jobs) → jobs !! i = Some j →
  last_named (sample_name j) jobs = Some j.
Proof.
  intros Hnd Hi.
  destruct (last_named_is_Some (sample_name j) jobs) as [j' Hj'].
  { apply list_elem_of_fmap. exists j. split; [done|].
    by eapply list_elem_of_lookup_2. }
  rewrite Hj'. f_equal.
  destruct (last_named_Some _ _ _ Hj') as [[i' Hi']%list_elem_of_lookup_1 Hname].
  assert (i' = i) as ->; [|congruence].
  eapply NoDup_lookup; [exact Hnd|..]; rewrite list_lookup_fmap.
  - by rewrite Hi'.
  - rewrite Hi. cbn. by rewrite Hname.
Qed.

Lemma sample_counts_lookup (f : job → counter str) (jobs : list job)
    (m : gmap str (counter str)) (name : str) :
  foldl (λ m j, <[sample_name j := f j]> m) m jobs !! name =
    match last_named name jobs with
    | Some j => Some (f j)
    | None => m !! name
    end.
Proof.
  revert m. induction jobs as [|j jobs IH]; intros m; [done|].
  cbn [foldl]. rewrite IH, last_named_cons.
  destruct (last_named name jobs); [done|].
  destruct (decide (sample_name j = name)) as [<-|Hne].
  - by rewrite lookup_insert_eq.
  - by rewrite lookup_insert_ne.
Qed.


Lemma get_heatmap_data_OK db job_ids rank :
  ∃ h : heatmap,
    get_heatmap_data db job_ids rank = OK h
    ∧ samples h = sample_name <$> present_jobs db job_ids
    ∧ taxa h = sorted (elements (list_to_set (C := gset str)
                 (mjoin (labels_at (heatmap_idx rank) ∘ job_sequences
                         <$> present_jobs db job_ids))))
    ∧ Forall2 (λ name row, ∃ j,
                 last_named name (present_jobs db job_ids) = Some j
                 ∧ row = (λ t, count_of t (count_all
                             (labels_at (heatmap_idx rank) (job_sequences j))))
                         <$> taxa h)
              (samples h) (matrix h).
Proof.
  unfold get_heatmap_data. rewrite heatmap_loop.
  cbn [hs_samples hs_taxa hs_counts app]. rewrite (left_id_L ∅ (∪)).
  set (jobs := present_jobs db job_ids).
  set (tx := sorted (elements _)).
  set (st := HeatmapState _ _ _).
  assert (∀ name, name ∈ sample_name <$> jobs →
            ∃ j, last_named name jobs = Some j
                 ∧ heatmap_row st tx name =
                   OK ((λ t, count_of t (count_all
                          (labels_at (heatmap_idx rank) (job_sequences j))))
                       <$> tx)) as Hrow.
  { intros name [j Hj]%last_named_is_Some. exists j. split; [done|].
    unfold heatmap_row, st. cbn [hs_counts].
    by rewrite sample_counts_lookup, Hj. }
  destruct (for_each_total (heatmap_row st tx) (sample_name <$> jobs))
    as [rows Hrows].
  { apply Forall_forall. intros name Hname.
    destruct (Hrow name Hname) as (j & _ & ->). by eexists. }
  rewrite Hrows. eexists. split; [done|]. cbn [samples taxa matrix].
  split_and!; [done..|].
  apply for_each_OK in Hrows.
  apply Forall2_same_length_lookup. split; [by eapply Forall2_length|].
  intros i name row Hname Hr.
  destruct (Hrow name) as (j & Hj & Hjrow); [by eapply list_elem_of_lookup_2|].
  exists j. split; [done|].
  pose proof (Forall2_lookup_lr _ _ _ _ _ _ Hrows Hname Hr) as Heq.
  cbn in Heq. congruence.
Qed.

(** X3.  When the heatmap formatter returns, its samples are the file
    names of the requested jobs that are in the store, in the order of the
    request; its taxa are the distinct labels of their records at the
    rank's index, in strictly increasing order; and its matrix is
    rectangular, with one row per sample and one column per taxon. *)
Theorem heatmap_returns_rectangular_matrix
    (db : store) (job_ids : list str) (rank : str) (h : heatmap) :
  get_heatmap_data db job_ids rank = OK h →
  samples h = sample_name <$> present_jobs db job_ids
  ∧ StronglySorted str_lt (taxa h)
  ∧ (∀ t, t ∈ taxa h ↔
       ∃ j s, j ∈ present_jobs db job_ids ∧ s ∈ job_sequences j
              ∧ t = taxon_at (heatmap_idx rank) (parts_of s))
  ∧ length (matrix h) = length (samples h)
  ∧ Forall (λ row, length row = length (taxa h)) (matrix h).
Proof.
  intros Hret.
  destruct (get_heatmap_data_OK db job_ids rank)
    as (h' & Hh & Hsamples & Htaxa & Hrows).
  rewrite Hret in Hh. injection Hh as <-.
  split_and!; [done|..].
  - rewrite Htaxa. apply sorted_strict, NoDup_elements.
  - intros t. rewrite Htaxa, sorted_perm, elem_of_elements, elem_of_list_to_set.
    rewrite list_elem_of_join. split.
    + intros (ls & Ht & (j & -> & Hj)%list_elem_of_fmap).
      cbn [compose] in Ht. unfold labels_at in Ht.
      apply list_elem_of_fmap in Ht as (s & -> & Hs). by exists j, s.
    + intros (j & s & Hj & Hs & ->).
      exists (labels_at (heatmap_idx rank) (job_sequences j)). split.
      * unfold labels_at. apply list_elem_of_fmap. by exists s.
      * apply list_elem_of_fmap. by exists j.
  - symmetry. by eapply Forall2_length.
  - apply Forall_forall. intros row [i Hi]%list_elem_of_lookup_1.
    destruct (Forall2_lookup_r _ _ _ _ _ Hrows Hi) as (name & _ & j & _ & ->).
    by rewrite length_fmap.
Qed.

Lemma heatmap_returns_rectangular_matrix_witness :
  StronglySorted str_lt [py "X"; py "Y"; py "Z"].
Proof.
  destruct (heatmap_returns_rectangular_matrix mixed_store [py "m"; py "n"]
              (py "domain")
              (Heatmap [py "m.fasta"; py "n.fasta"] [py "X"; py "Y"; py "Z"]
                       [[2; 1; 0]; [0; 1; 1]]))
    as (_ & Hsorted & _).
  - by vm_compute.
  - exact Hsorted.
Defined.

(** X4.  The entry of the heatmap for a sample and a taxon is the number
    of records with that taxon's label in the last requested job that
    has the sample's file name: rows are looked up by file name, so jobs
    that share a file name all show the counts of the last of them.  When
    the file names are distinct, row [i] counts the records of the
    [i]-th job found. *)
Theorem heatmap_cell_counts_records
    (db : store) (job_ids : list str) (rank : str) (h : heatmap)
    (i k : nat) (name t : str) :
  get_heatmap_data db job_ids rank = OK h →
  samples h !! i = Some name →
  taxa h !! k = Some t →
  ∃ j : job,
    last_named name (present_jobs db job_ids) = Some j
    ∧ cell (matrix h) i k = Some (records_labelled (heatmap_idx rank) t j)
    ∧ (NoDup (samples h) → present_jobs db job_ids !! i = Some j).
Proof.
  intros Hh Hname Ht.
  destruct (get_heatmap_data_OK db job_ids rank)
    as (h' & Hh' & Hsamples & _ & Hrows).
  assert (h' = h) as -> by congruence.
  destruct (Forall2_lookup_l _ _ _ _ _ Hrows Hname) as (row & Hrow & j & Hj & ->).
  exists j. split_and!; [done|..].
  - unfold cell. rewrite Hrow. cbn. rewrite list_lookup_fmap, Ht. cbn.
    f_equal. rewrite count_all_count. unfold labels_at, records_labelled.
    by rewrite length_filter_fmap.
  - intros Hnd. rewrite Hsamples in Hnd, Hname.
    rewrite list_lookup_fmap in Hname.
    destruct (present_jobs db job_ids !! i) as [j'|] eqn:Hj'; [|done].
    injection Hname as <-.
    rewrite (last_named_NoDup _ _ _ Hnd Hj') in Hj. congruence.
Qed.

Lemma heatmap_cell_counts_records_witness :
  ∃ j : job,
    last_named (py "m.fasta") (present_jobs mixed_store [py "m"; py "n"]) = Some j
    ∧ records_labelled (heatmap_idx (py "domain")) (py "X") j = 2.
Proof.
  destruct (heatmap_cell_counts_records mixed_store [py "m"; py "n"]
              (py "domain")
              (Heatmap [py "m.fasta"; py "n.fasta"] [py "X"; py "Y"; py "Z"]
                       [[2; 1; 0]; [0; 1; 1]])
              0 0 (py "m.fasta") (py "X"))
    as (j & Hj & Hcell & _).
  - by vm_compute.
  - done.
  - done.
  - exists j. split; [exact Hj|].
    change (Some 2 = Some (records_labelled (heatmap_idx (py "domain")) (py "X") j))
      in Hcell.
    by injection Hcell as <-.
Defined.

(** ** The heatmap and the composition of one job *)

Lemma heatmap_table_in_composition_table k idx :
  heatmap_rank_index !! k = Some idx → composition_rank_index !! k = Some idx.
Proof.
  assert (composition_rank_index = <[py "species" := 6]> heatmap_rank_index)
    as -> by (by vm_compute).
  intros Hk. destruct (decide (k = py "species")) as [->|Hne].
  - by vm_compute in Hk.
  - by rewrite lookup_insert_ne.
Qed.

Lemma composition_entries_of_counter rank seqs comp :
  composition_of rank seqs = OK comp →
  name <$> comp ≡ₚ (count_all (labels_at (composition_idx rank) seqs)).*1
  ∧ ∀ e, e ∈ comp →
      value e = length (filter (λ s, name e = taxon_at (composition_idx rank)
                                                (parts_of s)) seqs).
Proof.
  intros Hc. destruct (composition_of_OK rank seqs) as (comp' & Hc' & Hcomp).
  assert (comp' = comp) as -> by congruence. clear Hc Hc'.
  set (rc := count_all (labels_at (composition_idx rank) seqs)) in *.
  split.
  - rewrite <- (most_common_perm rc).
    assert (name <$> comp = (most_common rc).*1) as ->; [|done].
    clear -Hcomp. induction Hcomp as [|tc e mc comp (Hn & _) _ IH]; [done|].
    rewrite !fmap_cons. by rewrite Hn, IH.
  - intros e [i Hi]%list_elem_of_lookup_1.
    destruct (Forall2_lookup_r _ _ _ _ _ Hcomp Hi) as ([k n] & Htc & Hk & Hv & _).
    cbn in Hk, Hv. subst.
    assert ((name e, value e) ∈ rc) as Hin.
    { rewrite <- (most_common_perm rc). by eapply list_elem_of_lookup_2. }
    rewrite <- (count_of_lookup (name e) (value e) rc);
      [|apply count_all_NoDup|done].
    unfold rc. rewrite count_all_count. unfold labels_at.
    by rewrite length_filter_fmap.
Qed.

(** X5.  For one stored job and a rank of the heatmap's table, the
    heatmap and the composition agree: the taxa of the heatmap are the
    names of the composition in sorted order, and the single row of the
    matrix holds, under each taxon, the count of the composition entry of
    that name. *)
Theorem heatmap_row_agrees_with_composition
    (db : store) (job_id rank : str) (j : job) (idx : nat) :
  db !! job_id = Some j →
  heatmap_rank_index !! lower rank = Some idx →
  ∃ (h : heatmap) (comp : list entry) (row : list nat),
    get_heatmap_data db [job_id] rank = OK h
    ∧ get_taxonomic_composition db job_id rank = OK comp
    ∧ samples h = [sample_name j]
    ∧ matrix h = [row]
    ∧ taxa h = sorted (name <$> comp)
    ∧ ∀ e, e ∈ comp →
        ∃ k, taxa h !! k = Some (name e) ∧ row !! k = Some (value e).
Proof.
  intros Hj Hrank.
  pose proof (heatmap_table_in_composition_table _ _ Hrank) as Hrank'.
  assert (heatmap_idx rank = idx) as Hhi
    by (unfold heatmap_idx; by rewrite Hrank).
  assert (composition_idx rank = idx) as Hci
    by (unfold composition_idx; by rewrite Hrank').
  destruct (get_heatmap_data_OK db [job_id] rank)
    as (h & Hh & Hsamples & Htaxa & Hrows).
  assert (present_jobs db [job_id] = [j]) as Hpresent
    by (unfold present_jobs; cbn; by rewrite Hj).
  rewrite Hpresent, Hhi in *. cbn [fmap list_fmap] in Hsamples.
  destruct (composition_of_OK rank (job_sequences j)) as (comp & Hcomp & _).
  destruct (composition_entries_of_counter _ _ _ Hcomp) as [Hnames Hvalues].
  rewrite Hci in *.
  rewrite Hsamples in Hrows.
  destruct (matrix h) as [|row [|row' rows]] eqn:Hm;
    [by inversion Hrows| |by inversion Hrows as [|???? _ Hrest]; inversion Hrest].
  apply Forall2_cons_1 in Hrows as [(j' & Hj' & Hrow) _].
  assert (j' = j) as ->.
  { apply last_named_Some in Hj' as [Hin _].
    by apply list_elem_of_singleton in Hin. }
  assert (taxa h = sorted (name <$> comp)) as Htaxa'.
  { rewrite Htaxa. apply sorted_order_irrelevant. rewrite Hnames.
    cbn [fmap list_fmap mjoin list_join compose]. rewrite app_nil_r.
    apply NoDup_Permutation; [apply NoDup_elements | apply count_all_NoDup|].
    intros t. by rewrite elem_of_elements, elem_of_list_to_set, count_all_keys. }
  exists h, comp, row. split_and!; try done.
  - unfold get_taxonomic_composition, fetch_sequences. by rewrite Hj.
  - intros e He.
    assert (name e ∈ taxa h) as [k Hk]%list_elem_of_lookup_1.
    { rewrite Htaxa', sorted_perm. apply list_elem_of_fmap. by exists e. }
    exists k. split; [done|]. rewrite Hrow, list_lookup_fmap, Hk. cbn.
    f_equal. rewrite count_all_count, (Hvalues e He). unfold labels_at.
    by rewrite length_filter_fmap.
Qed.

Lemma heatmap_row_agrees_with_composition_witness :
  ∃ (h : heatmap) (comp : list entry),
    get_heatmap_data example_store [py "job-1"] (py "Phylum") = OK h
    ∧ get_taxonomic_composition example_store (py "job-1") (py "Phylum") = OK comp
    ∧ taxa h = sorted (name <$> comp).
Proof.
  destruct (heatmap_row_agrees_with_composition example_store (py "job-1")
              (py "Phylum")
              (Job (Some (py "sample.fasta"))
                 (Some (Analysis (Some (seqs_of
                    ["Eukaryota;Alveolata;Dinoflagellata";
                     "Eukaryota;Chlorophyta;Chlorophyceae";
                     "Eukaryota;Alveolata;Ciliophora"]%string))))) 1)
    as (h & comp & row & Hh & Hc & _ & _ & Ht & _).
  - by vm_compute.
  - by vm_compute.
  - exists h, comp. split_and!; [exact Hh | exact Hc | exact Ht].
Defined.

(** ** The nodes of the hierarchy *)

Lemma passing_through_snoc p ls l :
  passing_through p (ls ++ [l]) =
    passing_through p ls + (if decide (p `prefix_of` l) then 1 else 0).
Proof.
  unfold passing_through. rewrite filter_app, length_app, filter_cons, filter_nil.
  by destruct (decide (p `prefix_of` l)).
Qed.

Lemma passing_through_zero p ls :
  (∀ l, l ∈ ls → ¬ p `prefix_of` l) → passing_through p ls = 0.
Proof.
  intros Hnone. unfold passing_through. rewrite filter_none; [done|].
  apply Forall_forall. intros l Hl. by apply Hnone.
Qed.

Lemma passing_through_pos p ls l :
  l ∈ ls → p `prefix_of` l → 0 < passing_through p ls.
Proof.
  intros Hl Hp. unfold passing_through.
  assert (l ∈ filter (λ l, p `prefix_of` l) ls) as Hin
    by (by apply list_elem_of_filter).
  destruct (filter _ ls); [by apply elem_of_nil in Hin | simpl; lia].
Qed.

(** Every node of the tree counts the lineages that start with its
    labels, and every non-empty start of a lineage is a node. *)
Lemma build_prefix_invariant ls :
  (∀ l p, l ∈ ls → p ≠ [] → p `prefix_of` l →
     is_Some (find_path p (foldl (λ d l, add_lineage l d) [] ls)))
  ∧ (∀ p n, find_path p (foldl (λ d l, add_lineage l d) [] ls) = Some n →
       node_value n = passing_through p ls).
Proof.
  induction ls as [|l ls [Hfound Hcount]] using rev_ind.
  - split; [by intros l p ?%elem_of_nil|].
    intros p n. cbn. by rewrite find_path_nil_dict.
  - rewrite foldl_app. cbn [foldl].
    set (d := foldl (λ d l, add_lineage l d) [] ls) in *.
    split.
    + intros l' p Hl' Hp Hpre.
      destruct (decide (p `prefix_of` l)) as [[r ->]|Hnp].
      * destruct p as [|k q _] using rev_ind; [done|].
        rewrite <- app_assoc. cbn [app].
        by rewrite find_path_add_lineage_prefix.
      * rewrite find_path_add_lineage_other by done.
        apply elem_of_app in Hl' as [Hl' | ->%list_elem_of_singleton]; [|done].
        by eapply Hfound.
    + intros p n' Hfind. rewrite passing_through_snoc.
      destruct (decide (p `prefix_of` l)) as [[r ->]|Hnp].
      * assert (p ≠ []) as Hp by (by intros ->).
        destruct p as [|k q _] using rev_ind; [done|].
        rewrite <- app_assoc in Hfind. cbn [app] in Hfind.
        rewrite find_path_add_lineage_prefix in Hfind.
        injection Hfind as <-. unfold bump. cbn [node_value].
        destruct (find_path (q ++ [k]) d) as [n0|] eqn:Hold;
          cbn [default from_option id].
        -- rewrite (Hcount _ _ Hold). lia.
        -- cbn [node_value]. rewrite passing_through_zero; [done|].
           intros l' Hl' Hpre. destruct (Hfound l' (q ++ [k]) Hl' Hp Hpre).
           congruence.
      * rewrite find_path_add_lineage_other in Hfind by done.
        rewrite (Hcount _ _ Hfind). lia.
Qed.

Lemma out_nil d : out d = [] → d = [].
Proof. by destruct d. Qed.

Lemma find_path_at_path p d n :
  wf d → find_path p d = Some n → at_path p (dict_to_list n) (out d).
Proof.
  revert d. induction p as [|k p IH]; intros d Hwf Hfind; [done|].
  destruct Hwf as [d Hnd Hall].
  destruct (decide (p = [])) as [->|Hp].
  - rewrite find_path_singleton in Hfind.
    apply dict_get_Some in Hfind; [|done].
    destruct (Hall _ _ Hfind) as [<- _]. rewrite <- hname_dict_to_list.
    apply at_here. unfold out. apply list_elem_of_fmap. by exists (node_name n, n).
  - rewrite find_path_cons in Hfind by done.
    destruct (dict_get k d) as [n0|] eqn:Hget; [|done].
    apply dict_get_Some in Hget; [|done].
    destruct (Hall _ _ Hget) as [<- Hwfc].
    rewrite <- (hname_dict_to_list n0).
    apply (at_below _ _ (out (node_children n0))).
    + unfold out. apply list_elem_of_fmap. by exists (node_name n0, n0).
    + rewrite dict_to_list_eq. cbn [hchildren].
      destruct (out (node_children n0)) eqn:Hout; [|done].
      apply out_nil in Hout. rewrite Hout in Hfind.
      by rewrite find_path_nil_dict in Hfind.
    + by apply IH.
Qed.

Lemma at_path_last p m ns : at_path p m ns → last p = Some (hname m).
Proof.
  induction 1 as [m ns Hin | m' ns ch p m Hin Hch Hp IH]; [done|].
  destruct p; [by apply at_path_nonempty in Hp|]. by rewrite last_cons_cons.
Qed.

Lemma find_path_snoc p k d n c :
  find_path p d = Some n → dict_get k (node_children n) = Some c →
  find_path (p ++ [k]) d = Some c.
Proof.
  revert d. induction p as [|k0 p IH]; intros d Hfind Hget; [done|].
  destruct (decide (p = [])) as [->|Hp].
  - rewrite find_path_singleton in Hfind. cbn [app].
    rewrite find_path_cons by done. rewrite Hfind.
    by rewrite find_path_singleton.
  - rewrite find_path_cons in Hfind by done.
    rewrite <- app_comm_cons, find_path_cons by (by destruct p).
    destruct (dict_get k0 d); [|done]. by apply IH.
Qed.

Lemma build_values_positive ls p n :
  find_path p (foldl (λ d l, add_lineage l d) [] ls) = Some n →
  0 < node_value n.
Proof.
  revert p n. induction ls as [|l ls IH] using rev_ind; intros p n.
  - cbn. by rewrite find_path_nil_dict.
  - rewrite foldl_app. cbn [foldl].
    destruct (decide (p `prefix_of` l)) as [[r ->]|Hnp].
    + destruct p as [|k q _] using rev_ind; [done|].
      rewrite <- app_assoc. cbn [app].
      rewrite find_path_add_lineage_prefix. intros [= <-]. cbn. lia.
    + rewrite find_path_add_lineage_other by done. apply IH.
Qed.

Lemma length_filter_mono {A} (P Q : A → Prop)
    `{∀ x, Decision (P x), ∀ x, Decision (Q x)} (l : list A) :
  (∀ x, P x → Q x) → length (filter P l) ≤ length (filter Q l).
Proof.
  intros HPQ. induction l as [|x l IH]; [done|]. rewrite !filter_cons.
  destruct (decide (P x)) as [HP|HP].
  - rewrite decide_True by auto. simpl. lia.
  - destruct (decide (Q x)); simpl; lia.
Qed.

Lemma length_filter_eq {A} (P Q : A → Prop)
    `{∀ x, Decision (P x), ∀ x, Decision (Q x)} (l : list A) :
  (∀ x, P x → Q x) →
  length (filter P l) = length (filter Q l) ↔ ∀ x, x ∈ l → Q x → P x.
Proof.
  intros HPQ. induction l as [|x l IH].
  - split; [by intros _ x ?%elem_of_nil | done].
  - rewrite !filter_cons.
    pose proof (length_filter_mono P Q l HPQ) as Hle.
    destruct (decide (P x)) as [HP|HP].
    + rewrite decide_True by auto. cbn [length]. split.
      * intros Heq y [->|Hy]%elem_of_cons HQ; [done|].
        apply IH; [lia|done..].
      * intros Hall. f_equal. apply IH. intros y Hy. apply Hall. by right.
    + destruct (decide (Q x)) as [HQ|HQ]; cbn [length].
      * split; [lia|]. intros Hall. destruct HP. apply Hall; [by left|done].
      * split.
        -- intros Heq y [->|Hy]%elem_of_cons HQy; [done|]. by apply IH.
        -- intros Hall. apply IH. intros y Hy. apply Hall. by right.
Qed.

(** X6.  The nodes of the hierarchy are exactly the non-empty starts of
    the lineages: every node is reached by one path of labels, ends in
    its own name and counts the lineages that start with that path (at
    least one); every non-empty start of a lineage is the path of a node;
    and a node has no children exactly when no lineage goes on beyond its
    path. *)
Theorem hierarchy_nodes_are_lineage_prefixes
    (db : store) (job_id : str) (j : job) :
  db !! job_id = Some j →
  ∃ h : hierarchy,
    get_hierarchical_data db job_id = OK h
    ∧ (∀ p m, at_path p m (h_children h) →
         last p = Some (hname m)
         ∧ hvalue m = passing_through p (lineages (job_sequences j))
         ∧ 0 < hvalue m
         ∧ (hchildren m = None ↔
            ∀ l, l ∈ lineages (job_sequences j) → p `prefix_of` l → l = p)
         ∧ ∀ m', at_path p m' (h_children h) → m' = m)
    ∧ (∀ p l, p ≠ [] → l ∈ lineages (job_sequences j) → p `prefix_of` l →
         ∃ m, at_path p m (h_children h)).
Proof.
  intros Hj. unfold get_hierarchical_data, fetch_sequences. rewrite Hj.
  set (seqs := job_sequences j). eexists. split; [done|].
  unfold hierarchy_of. cbn [h_children]. fold (out (build_tree seqs)).
  rewrite build_tree_lineages.
  destruct (build_invariant (lineages seqs) (lineages_nonempty seqs))
    as (Hwf & _ & _ & Hend).
  destruct (build_prefix_invariant (lineages seqs)) as [Hfound Hcount].
  set (d := foldl (λ d l, add_lineage l d) [] (lineages seqs)) in *.
  split.
  - intros p m Hp.
    destruct (at_path_find _ _ _ Hp _ Hwf eq_refl) as (n & Hfind & ->).
    split_and!.
    + by eapply at_path_last.
    + rewrite hvalue_dict_to_list. by apply Hcount.
    + rewrite hvalue_dict_to_list. by eapply build_values_positive.
    + rewrite dict_to_list_eq. cbn [hchildren].
      pose proof (Hend _ _ Hfind) as He. pose proof (Hcount _ _ Hfind) as Hc.
      assert (∀ l : list str, p = l → p `prefix_of` l) as Himp
        by (by intros l ->).
      assert ((∀ l, l ∈ lineages seqs → p `prefix_of` l → l = p)
              ↔ ending_at p (lineages seqs) = passing_through p (lineages seqs))
        as ->.
      { unfold ending_at, passing_through.
        rewrite (length_filter_eq (p =.) (λ l, p `prefix_of` l) _ Himp).
        split; intros Hall l Hl Hpre; symmetry; by apply Hall. }
      destruct (node_children n) as [|[k c] rest] eqn:Hch.
      * cbn [out fmap list_fmap]. cbn [forest_sum] in He. split; [lia|done].
      * cbn [out fmap list_fmap]. split; [done|]. intros Heq. exfalso.
        assert (find_path (p ++ [k]) d = Some c) as Hchild.
        { eapply find_path_snoc; [done|]. rewrite Hch. cbn [dict_get].
          by rewrite decide_True. }
        apply build_values_positive in Hchild.
        cbn [forest_sum] in He. lia.
    + intros m' Hp'.
      destruct (at_path_find _ _ _ Hp' _ Hwf eq_refl) as (n' & Hfind' & ->).
      congruence.
  - intros p l Hp Hl Hpre.
    destruct (Hfound l p Hl Hp Hpre) as [n Hfind].
    exists (dict_to_list n). by apply find_path_at_path.
Qed.

Lemma hierarchy_nodes_are_lineage_prefixes_witness :
  ∃ h : hierarchy,
    get_hierarchical_data nested_store (py "job-4") = OK h
    ∧ ∃ m, at_path [py "A"; py "B"] m (h_children h).
Proof.
  destruct (hierarchy_nodes_are_lineage_prefixes nested_store (py "job-4")
              (Job (Some (py "nested.fasta"))
                 (Some (Analysis (Some (seqs_of ["A"; "A;B"]%string))))))
    as (h & Hh & _ & Hnodes).
  - by vm_compute.
  - exists h. split; [exact Hh|].
    apply (Hnodes [py "A"; py "B"] [py "A"; py "B"]).
    + done.
    + vm_compute. right. left.
    + done.
Defined.

(** ** The links of the Sankey result *)

Lemma sum_list_cons x l : sum_list (x :: l) = x + sum_list l.
Proof. done. Qed.

Lemma length_edges_of_min s : length (edges_of s) = 4 `min` length (parts_of s).
Proof.
  unfold edges_of, window. rewrite length_consecutive. cbn [length].
  rewrite length_take. lia.
Qed.

Lemma length_all_edges seqs :
  length (all_edges seqs) = sum_list ((λ s, 4 `min` length (parts_of s)) <$> seqs).
Proof.
  unfold all_edges. rewrite length_join, <- list_fmap_compose.
  f_equal. apply list_fmap_ext. intros _ s _. cbn. apply length_edges_of_min.
Qed.

Lemma count_all_positive {K} `{EqDecision K} (ks : list K) k n :
  (k, n) ∈ count_all ks → 0 < n.
Proof.
  intros Hin.
  rewrite <- (count_of_lookup k n (count_all ks)); [|apply count_all_NoDup|done].
  rewrite count_all_count.
  assert (k ∈ ks) as Hk.
  { apply count_all_keys, list_elem_of_fmap. by exists (k, n). }
  assert (k ∈ filter (k =.) ks) as Hf by (by apply list_elem_of_filter).
  destruct (filter _ ks); [by apply elem_of_nil in Hf | simpl; lia].
Qed.

(** X7.  For a stored job, the links of the Sankey result count every
    edge once: their values add up to the number of edges of all
    lineages, which is [min(4, levels)] per lineage; every link has a
    positive value and ends at two ids of the node list; and no two links
    join the same pair of nodes in the same direction. *)
Theorem sankey_links_count_every_edge (db : store) (job_id : str) (j : job) :
  db !! job_id = Some j →
  ∃ sk : sankey,
    get_sankey_data db job_id = OK sk
    ∧ sum_list (link_value <$> links sk)
      = sum_list ((λ s, 4 `min` length (parts_of s)) <$> job_sequences j)
    ∧ length (job_sequences j) ≤ sum_list (link_value <$> links sk)
    ∧ sum_list (link_value <$> links sk) ≤ 4 * length (job_sequences j)
    ∧ Forall (λ l, 0 < link_value l
                   ∧ source l < length (nodes sk)
                   ∧ target l < length (nodes sk)) (links sk)
    ∧ NoDup ((λ l, (source l, target l)) <$> links sk).
Proof.
  intros Hj. rewrite (get_sankey_data_found _ _ _ Hj).
  set (seqs := job_sequences j).
  destruct (sankey_of_OK seqs) as (lks & Hsk & Hlinks).
  set (L := sorted (elements (label_set seqs))) in *.
  set (fl := count_all (all_edges seqs)) in *.
  eexists. split; [exact Hsk|]. cbn [nodes links]. rewrite length_imap.
  assert (sum_list (link_value <$> lks)
          = sum_list ((λ s, 4 `min` length (parts_of s)) <$> seqs)) as Hsum.
  { rewrite <- length_all_edges, <- (count_all_sum (all_edges seqs)).
    fold fl. f_equal. clear -Hlinks.
    induction Hlinks as [|flow l fl lks (_ & _ & Hv) _ IH]; [done|].
    rewrite !fmap_cons. by rewrite Hv, IH. }
  split_and!.
  - done.
  - rewrite Hsum. clear. induction seqs as [|s seqs IH]; [done|].
    rewrite fmap_cons, sum_list_cons. cbn [length].
    pose proof (parts_of_nonempty s).
    destruct (parts_of s); [done|]. cbn [length]. lia.
  - rewrite Hsum. clear. induction seqs as [|s seqs IH]; [done|].
    rewrite fmap_cons, sum_list_cons. cbn [length]. lia.
  - apply Forall_forall. intros l [i Hi]%list_elem_of_lookup_1.
    destruct (Forall2_lookup_r _ _ _ _ _ Hlinks Hi)
      as ([[a b] v] & Hflow & Hs & Ht & Hv).
    cbn in Hs, Ht, Hv. split_and!.
    + rewrite Hv. eapply (count_all_positive (all_edges seqs) (a, b)).
      by eapply list_elem_of_lookup_2.
    + by apply lookup_lt_Some in Hs.
    + by apply lookup_lt_Some in Ht.
  - apply NoDup_alt. intros i1 i2 st. rewrite !list_lookup_fmap.
    destruct (lks !! i1) as [l1|] eqn:H1; [|done].
    destruct (lks !! i2) as [l2|] eqn:H2; [|done].
    cbn. intros [= <-] [= Hs Ht].
    destruct (Forall2_lookup_r _ _ _ _ _ Hlinks H1)
      as ([[a1 b1] v1] & Hf1 & Hs1 & Ht1 & _).
    destruct (Forall2_lookup_r _ _ _ _ _ Hlinks H2)
      as ([[a2 b2] v2] & Hf2 & Hs2 & Ht2 & _).
    cbn in Hs1, Ht1, Hs2, Ht2.
    assert (a1 = a2) as -> by congruence.
    assert (b1 = b2) as -> by congruence.
    eapply (NoDup_lookup (fl.*1)); [apply count_all_NoDup|..];
      rewrite list_lookup_fmap.
    + by rewrite Hf1.
    + by rewrite Hf2.
Qed.

Lemma sankey_links_count_every_edge_witness :
  ∃ sk : sankey,
    get_sankey_data two_domain_store (py "job-2") = OK sk
    ∧ sum_list (link_value <$> links sk) = 2.
Proof.
  destruct (sankey_links_count_every_edge two_domain_store (py "job-2")
              (Job (Some (py "domains.fasta"))
                 (Some (Analysis (Some (seqs_of ["Bacteria"; "Eukaryota"]%string))))))
    as (sk & Hsk & Hsum & _).
  - by vm_compute.
  - exists sk. split; [exact Hsk|]. rewrite Hsum. by vm_compute.
Defined.

(** ** The matrices of the diversity calculator *)

Lemma diversity_step_present db st job_id j :
  db !! job_id = Some j →
  diversity_step db st job_id =
    DiversityState (ds_names st ++ [sample_name j])
                   (ds_vectors st ++ [count_all (raw_lineages j)])
                   (ds_taxa st ∪ list_to_set (raw_lineages j)).
Proof.
  intros Hj. unfold diversity_step. rewrite Hj.
  fold (raw_lineages j) (sample_name j). by rewrite count_all_keys_set.
Qed.

Lemma diversity_loop db job_ids st :
  foldl (diversity_step db) st job_ids =
    DiversityState
      (ds_names st ++ (sample_name <$> present_jobs db job_ids))
      (ds_vectors st ++ (count_all ∘ raw_lineages <$> present_jobs db job_ids))
      (ds_taxa st ∪
         list_to_set (mjoin (raw_lineages <$> present_jobs db job_ids))).
Proof.
  revert st. induction job_ids as [|job_id job_ids IH]; intros st.
  - destruct st. cbn. f_equal; [by rewrite app_nil_r..|set_solver].
  - cbn [foldl]. rewrite IH. unfold present_jobs.
    cbn [omap list_omap]. fold (present_jobs db job_ids).
    destruct (db !! job_id) as [j|] eqn:Hj.
    + rewrite (diversity_step_present _ _ _ _ Hj).
      cbn [ds_names ds_vectors ds_taxa]. rewrite !fmap_cons.
      cbn [mjoin list_join compose].
      f_equal; [by rewrite <- app_assoc..|].
      rewrite list_to_set_app_L. set_solver.
    + unfold diversity_step. by rewrite Hj.
Qed.

Lemma collect_samples_spec db job_ids :
  collect_samples db job_ids =
    DiversityState
      (sample_name <$> present_jobs db job_ids)
      (count_all ∘ raw_lineages <$> present_jobs db job_ids)
      (list_to_set (mjoin (raw_lineages <$> present_jobs db job_ids))).
Proof.
  unfold collect_samples. rewrite diversity_loop.
  cbn [ds_names ds_vectors ds_taxa app]. f_equal. set_solver.
Qed.

(** Counting a list over distinct keys that cover it counts every
    element once. *)
Lemma sum_counts_over_keys (T ks : list str) :
  NoDup T → (∀ k, k ∈ ks → k ∈ T) →
  sum_list ((λ t, length (filter (t =.) ks)) <$> T) = length ks.
Proof.
  intros Hnd. induction ks as [|k ks IH]; intros Hcover.
  - clear. induction T as [|t T IH]; [done|].
    by rewrite fmap_cons, sum_list_cons, IH.
  - cbn [length]. rewrite <- IH by (intros k' Hk'; apply Hcover; by right).
    assert (k ∈ T) as Hk by (apply Hcover; by left).
    clear -Hnd Hk. induction T as [|t T IHT]; [by apply elem_of_nil in Hk|].
    apply NoDup_cons in Hnd as [Hnin Hnd].
    rewrite !fmap_cons, !sum_list_cons, filter_cons.
    apply elem_of_cons in Hk as [<-|Hk].
    + rewrite decide_True by done. cbn [length].
      assert (sum_list ((λ t, length (filter (t =.) (k :: ks))) <$> T)
              = sum_list ((λ t, length (filter (t =.) ks)) <$> T)) as ->; [|lia].
      f_equal. apply list_fmap_ext. intros _ t Ht%list_elem_of_lookup_2.
      rewrite filter_cons, decide_False; [done|]. by intros ->.
    + rewrite decide_False by (by intros ->). rewrite IHT by done. lia.
Qed.

Lemma abundance_row db job_ids i j :
  present_jobs db job_ids !! i = Some j →
  ∃ u,
    abundance_matrix (collect_samples db job_ids) !! i = Some u
    ∧ sum_list u = length (job_sequences j)
    ∧ u = (λ t, length (filter (t =.) (raw_lineages j)))
          <$> sorted (elements (list_to_set (C := gset str)
                (mjoin (raw_lineages <$> present_jobs db job_ids)))).
Proof.
  intros Hj. rewrite collect_samples_spec. unfold abundance_matrix.
  cbn [ds_vectors ds_taxa]. rewrite !list_lookup_fmap, Hj. cbn.
  eexists. split; [done|].
  set (T := sorted (elements _)).
  assert ((λ t, count_of t (count_all (raw_lineages j))) <$> T
          = (λ t, length (filter (t =.) (raw_lineages j))) <$> T) as ->.
  { apply list_fmap_ext. intros _ t _. apply count_all_count. }
  split; [|done].
  rewrite sum_counts_over_keys.
  - unfold raw_lineages. by rewrite length_fmap.
  - unfold T. rewrite sorted_perm. apply NoDup_elements.
  - intros k Hk. unfold T.
    rewrite sorted_perm, elem_of_elements, elem_of_list_to_set, list_elem_of_join.
    exists (raw_lineages j). split; [done|]. apply list_elem_of_fmap.
    exists j. split; [done|]. by eapply list_elem_of_lookup_2.
Qed.

Lemma dissimilarity_matrix_shape n M :
  length (dissimilarity_matrix n M) = n
  ∧ Forall (λ row, length row = n) (dissimilarity_matrix n M).
Proof.
  unfold dissimilarity_matrix. split.
  - by rewrite length_fmap, length_seq.
  - apply Forall_fmap, Forall_forall. intros i _. cbn.
    by rewrite length_fmap, length_seq.
Qed.

(** X8.  When the diversity calculator returns, its samples are the file
    names of the requested jobs that are in the store, in the order of the
    request, and both matrices are square with one row and one column per
    such job.  The abundance matrix they are computed from has one row
    per such job, which sums to the number of records of the job.  The
    dissimilarity of two different requested jobs is NaN when neither has
    a record, and lies in [0,1] as soon as one of them has a record. *)
Theorem diversity_matrices_by_job
    (pca : list (list nat) → result (list (list npfloat) * list npfloat))
    (db : store) (job_ids : list str) (r : diversity) :
  calculate_beta_diversity pca db job_ids = OK r →
  d_samples r = sample_name <$> present_jobs db job_ids
  ∧ length (d_dissimilarity r) = length (present_jobs db job_ids)
  ∧ Forall (λ row, length row = length (present_jobs db job_ids))
           (d_dissimilarity r)
  ∧ length (d_similarity r) = length (present_jobs db job_ids)
  ∧ Forall (λ row, length row = length (present_jobs db job_ids))
           (d_similarity r)
  ∧ Forall2 (λ j row, sum_list row = length (job_sequences j))
            (present_jobs db job_ids)
            (abundance_matrix (collect_samples db job_ids))
  ∧ ∀ i i' j j',
      present_jobs db job_ids !! i = Some j →
      present_jobs db job_ids !! i' = Some j' →
      i ≠ i' →
      ∃ d, cell (d_dissimilarity r) i i' = Some d
           ∧ (job_sequences j = [] → job_sequences j' = [] → d = NaN)
           ∧ (job_sequences j ≠ [] ∨ job_sequences j' ≠ [] →
              in_unit_interval d).
Proof.
  intros Hr.
  destruct (calculate_beta_diversity_OK _ _ _ _ Hr) as (fitted & _ & Heq).
  assert (length (ds_names (collect_samples db job_ids))
          = length (present_jobs db job_ids)) as Hn.
  { rewrite collect_samples_spec. cbn [ds_names]. by rewrite length_fmap. }
  rewrite Hn in Heq.
  destruct (dissimilarity_matrix_shape (length (present_jobs db job_ids))
              (abundance_matrix (collect_samples db job_ids))) as [Hlen Hrows].
  split_and!.
  - rewrite Heq. cbn [d_samples]. by rewrite collect_samples_spec.
  - by rewrite Heq.
  - by rewrite Heq.
  - rewrite Heq. cbn [d_similarity]. by rewrite length_fmap.
  - rewrite Heq. cbn [d_similarity]. apply Forall_fmap.
    eapply Forall_impl; [exact Hrows|]. intros row Hrow. cbn.
    by rewrite length_fmap.
  - apply Forall2_same_length_lookup_2.
    + by rewrite <- collect_samples_lengths.
    + intros i j row Hj Hrow.
      destruct (abundance_row _ _ _ _ Hj) as (u & Hu & Hsu & _).
      rewrite Hrow in Hu. by injection Hu as <-.
  - intros i i' j j' Hj Hj' Hne.
    destruct (abundance_row _ _ _ _ Hj) as (u & Hu & Hsu & _).
    destruct (abundance_row _ _ _ _ Hj') as (v & Hv & Hsv & _).
    destruct (diversity_cells pca _ _ _ _ _ _ _ Hr Hu Hv)
      as (d & Hd & _ & _ & _ & Hunit & Hnan).
    exists d. split_and!; [done|..].
    + intros Hnil Hnil'. apply Hnan; [done|].
      rewrite Hsu, Hsv, Hnil, Hnil'. done.
    + intros Hsome. apply Hunit. right. rewrite Hsu, Hsv.
      destruct Hsome as [Hs|Hs];
        [destruct (job_sequences j) | destruct (job_sequences j')];
        try done; cbn [length]; lia.
Qed.

Lemma diversity_matrices_by_job_witness :
  ∃ r : diversity,
    calculate_beta_diversity pca_returns mixed_store [py "m"; py "n"] = OK r
    ∧ d_samples r = [py "m.fasta"; py "n.fasta"].
Proof.
  destruct (calculate_beta_diversity pca_returns mixed_store [py "m"; py "n"])
    as [r|e] eqn:Hr; [|by vm_compute in Hr].
  exists r. split; [done|].
  destruct (diversity_matrices_by_job pca_returns mixed_store [py "m"; py "n"]
              r Hr) as (Hs & _).
  rewrite Hs. by vm_compute.
Defined.

Lemma diversity_cell_braycurtis pca db job_ids r i j u v :
  calculate_beta_diversity pca db job_ids = OK r →
  abundance_matrix (collect_samples db job_ids) !! i = Some u →
  abundance_matrix (collect_samples db job_ids) !! j = Some v →
  i ≠ j →
  cell (d_dissimilarity r) i j = Some (braycurtis u v)
  ∧ cell (d_similarity r) i j = Some (one_minus (braycurtis u v)).
Proof.
  intros (fitted & _ & ->)%calculate_beta_diversity_OK Hu Hv Hne.
  cbn [d_dissimilarity d_similarity].
  assert (length (ds_names (collect_samples db job_ids))
          = length (abundance_matrix (collect_samples db job_ids))) as Hn
    by apply collect_samples_lengths.
  assert (i < length (ds_names (collect_samples db job_ids))) as Hi
    by (rewrite Hn; by apply lookup_lt_Some in Hu).
  assert (j < length (ds_names (collect_samples db job_ids))) as Hj
    by (rewrite Hn; by apply lookup_lt_Some in Hv).
  rewrite cell_fmap, !cell_dissimilarity by done. rewrite Hu, Hv.
  cbn [default from_option id]. by rewrite decide_True.
Qed.

Lemma truediv_zero b : b ≠ 0%Z → truediv 0 b = 0%Q.
Proof.
  intros Hb. unfold truediv. change 0%Q with (Qred 0). apply Qred_complete.
  field. intros Hz. unfold Qeq in Hz. simpl in Hz. lia.
Qed.

Lemma truediv_same b : b ≠ 0%Z → truediv b b = 1%Q.
Proof.
  intros Hb. unfold truediv. change 1%Q with (Qred 1). apply Qred_complete.
  field. intros Hz. unfold Qeq in Hz. simpl in Hz. lia.
Qed.

Lemma braycurtis_same u : 0 < sum_list u → braycurtis u u = Fin 0.
Proof.
  intros Hpos. unfold braycurtis.
  rewrite (l1_sum_same_length u u eq_refl).
  assert (foldr Z.add 0%Z
            (zip_with (λ a b, Z.abs (Z.of_nat a - Z.of_nat b)) u u) = 0%Z) as ->.
  { clear. induction u as [|a u IH]; [done|]. cbn [zip_with foldr].
    rewrite IH. lia. }
  unfold np_div. destruct (Z.eqb_spec (Z.of_nat (sum_list u + sum_list u)) 0);
    [lia|].
  by rewrite truediv_zero.
Qed.

Lemma braycurtis_disjoint u v :
  Forall2 (λ a b, a = 0 ∨ b = 0) u v → 0 < sum_list u + sum_list v →
  braycurtis u v = Fin 1.
Proof.
  intros Hdisj Hpos. unfold braycurtis.
  assert (foldr Z.add 0%Z
            (zip_with (λ a b, Z.abs (Z.of_nat a - Z.of_nat b)) u v)
          = foldr Z.add 0%Z
              (zip_with (λ a b, Z.abs (Z.of_nat a + Z.of_nat b)) u v)) as ->.
  { clear Hpos. induction Hdisj as [|a b u v Hab _ IH]; [done|].
    cbn [zip_with foldr]. rewrite IH. lia. }
  rewrite (l1_sum_same_length u v) by (by eapply Forall2_length).
  unfold np_div. destruct (Z.eqb_spec (Z.of_nat (sum_list u + sum_list v)) 0);
    [lia|].
  by rewrite truediv_same.
Qed.

(** X9.  When the diversity calculator returns, two different requested
    jobs of which at least one has a record have dissimilarity 0 and
    similarity 1 if their records carry the same taxonomy strings with the
    same multiplicities (as when one job id is requested twice), and
    dissimilarity 1 and similarity 0 if no taxonomy string occurs in
    both.  Floats are read as exact rationals. *)
Theorem diversity_of_equal_and_disjoint_jobs
    (pca : list (list nat) → result (list (list npfloat) * list npfloat))
    (db : store) (job_ids : list str) (r : diversity)
    (i i' : nat) (j j' : job) :
  calculate_beta_diversity pca db job_ids = OK r →
  present_jobs db job_ids !! i = Some j →
  present_jobs db job_ids !! i' = Some j' →
  i ≠ i' →
  job_sequences j ≠ [] ∨ job_sequences j' ≠ [] →
  (raw_lineages j ≡ₚ raw_lineages j' →
     cell (d_dissimilarity r) i i' = Some (Fin 0)
     ∧ cell (d_similarity r) i i' = Some (Fin 1))
  ∧ ((∀ t, t ∈ raw_lineages j → t ∉ raw_lineages j') →
     cell (d_dissimilarity r) i i' = Some (Fin 1)
     ∧ cell (d_similarity r) i i' = Some (Fin 0)).
Proof.
  intros Hr Hj Hj' Hne Hsome.
  destruct (abundance_row _ _ _ _ Hj) as (u & Hu & Hsu & Hurow).
  destruct (abundance_row _ _ _ _ Hj') as (v & Hv & Hsv & Hvrow).
  destruct (diversity_cell_braycurtis pca _ _ _ _ _ _ _ Hr Hu Hv Hne)
    as [Hd Hs].
  assert (0 < sum_list u + sum_list v) as Hpos.
  { rewrite Hsu, Hsv.
    destruct Hsome as [Hn|Hn];
      [destruct (job_sequences j) | destruct (job_sequences j')];
      try done; cbn [length]; lia. }
  set (T := sorted (elements (list_to_set (C := gset str)
                (mjoin (raw_lineages <$> present_jobs db job_ids))))) in *.
  split.
  - intros Hperm.
    assert (u = v) as ->.
    { rewrite Hurow, Hvrow. apply list_fmap_ext. intros _ t _.
      by rewrite Hperm. }
    rewrite Hd, Hs, braycurtis_same by lia. done.
  - intros Hdisj.
    assert (braycurtis u v = Fin 1) as Hone.
    { apply braycurtis_disjoint; [|done]. rewrite Hurow, Hvrow.
      apply Forall2_fmap, Forall_Forall2_diag, Forall_forall. intros t _.
      destruct (decide (t ∈ raw_lineages j)) as [Hin|Hnin].
      - right. rewrite filter_none; [done|].
        apply Forall_forall. intros t' Ht' <-. by apply (Hdisj t).
      - left. rewrite filter_none; [done|].
        apply Forall_forall. by intros t' Ht' <-. }
    by rewrite Hd, Hs, Hone.
Qed.

Lemma diversity_of_equal_and_disjoint_jobs_witness :
  ∃ r : diversity,
    calculate_beta_diversity pca_returns mixed_store [py "m"; py "m"] = OK r
    ∧ cell (d_dissimilarity r) 0 1 = Some (Fin 0).
Proof.
  destruct (calculate_beta_diversity pca_returns mixed_store [py "m"; py "m"])
    as [r|e] eqn:Hr; [|by vm_compute in Hr].
  exists r. split; [done|].
  destruct (diversity_of_equal_and_disjoint_jobs pca_returns mixed_store
              [py "m"; py "m"] r 0 1
              (Job (Some (py "m.fasta"))
                 (Some (Analysis (Some (seqs_of ["X"; "X"; "Y"]%string)))))
              (Job (Some (py "m.fasta"))
                 (Some (Analysis (Some (seqs_of ["X"; "X"; "Y"]%string)))))
              Hr) as [Hsame _].
  - by vm_compute.
  - by vm_compute.
  - done.
  - by left.
  - by apply Hsame.
Defined.

(** ** Degenerate inputs of the diversity calculator *)

Lemma all_zero_matrix_has_no_column db job_ids row :
  Forall (Forall (λ c, c = 0)) (abundance_matrix (collect_samples db job_ids)) →
  row ∈ abundance_matrix (collect_samples db job_ids) →
  row = [].
Proof.
  intros Hzero [i Hi]%list_elem_of_lookup_1.
  assert (∀ j, j ∈ present_jobs db job_ids → raw_lineages j = []) as Hempty.
  { intros j [k Hk]%list_elem_of_lookup_1.
    destruct (abundance_row db job_ids k j Hk) as (u & Hu & Hsum & _).
    assert (sum_list u = 0) as Hu0.
    { apply list_elem_of_lookup_2 in Hu.
      rewrite Forall_forall in Hzero. specialize (Hzero u Hu).
      clear -Hzero. induction Hzero as [|c u -> _ IH]; [done|].
      by rewrite sum_list_cons. }
    rewrite Hu0 in Hsum. unfold raw_lineages.
    symmetry in Hsum. apply length_zero_iff_nil in Hsum. by rewrite Hsum. }
  assert (is_Some (present_jobs db job_ids !! i)) as [j Hj].
  { apply lookup_lt_is_Some. apply lookup_lt_Some in Hi.
    rewrite <- collect_samples_lengths, collect_samples_spec in Hi.
    cbn [ds_names] in Hi. by rewrite length_fmap in Hi. }
  destruct (abundance_row db job_ids i j Hj) as (u & Hu & _ & Hrow).
  rewrite Hi in Hu. injection Hu as <-. rewrite Hrow.
  destruct (sorted _) as [|t T] eqn:HT; [done|].
  assert (t ∈ sorted (elements (list_to_set (C := gset str)
            (mjoin (raw_lineages <$> present_jobs db job_ids))))) as Ht
    by (rewrite HT; left).
  rewrite sorted_perm, elem_of_elements, elem_of_list_to_set,
    list_elem_of_join in Ht.
  destruct Ht as (ls & Hls & (j' & -> & Hj')%list_elem_of_fmap).
  rewrite (Hempty j' Hj') in Hls. by apply elem_of_nil in Hls.
Qed.

Lemma PCA_rejects_degenerate decompose (X : list (list nat)) :
  length X < 2 ∨ Forall (λ row, row = []) X →
  ∃ msg : str, PCA_fit_transform decompose X = Raise (ValueError msg).
Proof.
  intros Hdeg. destruct X as [|row M]; cbn [PCA_fit_transform]; [by eexists|].
  destruct (Nat.eqb_spec (length row) 0) as [|Hfeat]; [by eexists|].
  destruct (Nat.ltb_spec (length (row :: M) `min` length row) 2) as [|Hcomp];
    [by eexists|].
  exfalso. destruct Hdeg as [Hfew|Hempty].
  - cbn [length] in *. lia.
  - apply Forall_cons_1 in Hempty as [-> _]. done.
Qed.

(** C9.  On a degenerate input, that is when fewer than two of the
    requested jobs are in the store or when the abundance matrix holds
    zeros only, the diversity calculator fails with a [ValueError] that
    carries a message: scikit-learn's check of the input of the PCA call
    rejects the matrix before the decomposition runs, so whatever the
    decomposition would do (return, return nan, raise a numeric error) does
    not reach the caller. *)
Theorem degenerate_diversity_input_raises_value_error
    (decompose : list (list nat) → result (list (list npfloat) * list npfloat))
    (db : store) (job_ids : list str) :
  length (present_jobs db job_ids) < 2
  ∨ Forall (Forall (λ c, c = 0)) (abundance_matrix (collect_samples db job_ids)) →
  ∃ msg : str,
    calculate_beta_diversity (PCA_fit_transform decompose) db job_ids
    = Raise (ValueError msg).
Proof.
  intros Hdeg. unfold calculate_beta_diversity.
  destruct (PCA_rejects_degenerate decompose
              (abundance_matrix (collect_samples db job_ids))) as [msg ->];
    [|by exists msg].
  destruct Hdeg as [Hfew|Hzero]; [left|right].
  - rewrite <- collect_samples_lengths, collect_samples_spec.
    cbn [ds_names]. by rewrite length_fmap.
  - apply Forall_forall. intros row Hrow.
    by eapply all_zero_matrix_has_no_column.
Qed.

Lemma degenerate_diversity_input_raises_value_error_witness :
  ∃ msg : str,
    calculate_beta_diversity (PCA_fit_transform pca_returns)
      mixed_store [py "m"]
    = Raise (ValueError msg).
Proof.
  apply degenerate_diversity_input_raises_value_error.
  left. vm_compute. lia.
Defined.

Example degenerate_diversity_inputs :
  calculate_beta_diversity (PCA_fit_transform pca_returns) ∅ [py "a"]
  = Raise (ValueError (py "Expected 2D array, got 1D array instead"))
  ∧ calculate_beta_diversity (PCA_fit_transform pca_returns)
      mixed_store [py "m"]
    = Raise (ValueError
        (py "n_components=2 must be between 0 and min(n_samples, n_features)"))
  ∧ calculate_beta_diversity (PCA_fit_transform pca_returns)
      two_empty_store [py "a"; py "b"]
    = Raise (ValueError (py "Found array with 0 feature(s)")).
Proof. split_and!; by vm_compute. Qed.

(** ** The HTTP endpoints *)

Lemma single_job_formatters_missing db job_id rank :
  db !! job_id = None →
  get_taxonomic_composition db job_id rank = Raise (not_found job_id)
  ∧ get_hierarchical_data db job_id = Raise (not_found job_id)
  ∧ get_sankey_data db job_id = Raise (not_found job_id).
Proof.
  intros Hj.
  unfold get_taxonomic_composition, get_hierarchical_data, get_sankey_data,
    fetch_sequences.
  by rewrite Hj.
Qed.

(** X10.  The local API and a job id.  For a job that is not in the
    store the job endpoint answers 404 with "Job not found", while the
    composition, hierarchy and Sankey endpoints answer 500 with the text
    of the [ValueError] that names the job id.  For a job that is in the
    store the job endpoint answers with the row. *)
Theorem local_api_job_endpoints
    (db : store) (job_id : str) (rank : option str) :
  (db !! job_id = None →
     LocalApi.get_composition db job_id rank
       = HTTPException 500 (StrOf (not_found job_id))
     ∧ LocalApi.get_hierarchy db job_id
       = HTTPException 500 (StrOf (not_found job_id))
     ∧ LocalApi.get_sankey db job_id
       = HTTPException 500 (StrOf (not_found job_id))
     ∧ LocalApi.get_job db job_id
       = HTTPException 404 (Message (py "Job not found")))
  ∧ (∀ j : job, db !! job_id = Some j →
       LocalApi.get_job db job_id = Respond j).
Proof.
  unfold LocalApi.get_composition, LocalApi.get_hierarchy,
    LocalApi.get_sankey, LocalApi.get_job, get_job_by_id.
  split.
  - intros Hj.
    destruct (single_job_formatters_missing db job_id
                (default (py "phylum") rank) Hj) as (-> & -> & ->).
    by rewrite Hj.
  - by intros j ->.
Qed.

Lemma local_api_job_endpoints_witness :
  LocalApi.get_sankey example_store (py "job-x")
    = HTTPException 500 (StrOf (not_found (py "job-x")))
  ∧ LocalApi.get_job example_store (py "job-x")
    = HTTPException 404 (Message (py "Job not found")).
Proof.
  destruct (local_api_job_endpoints example_store (py "job-x") None)
    as [Hmiss _].
  destruct Hmiss as (_ & _ & Hsankey & Hjob); [by vm_compute|].
  split; [exact Hsankey | exact Hjob].
Defined.

Lemma length_present_jobs db job_ids :
  length (present_jobs db job_ids) ≤ length job_ids.
Proof.
  unfold present_jobs. induction job_ids as [|job_id job_ids IH]; [done|].
  cbn [omap list_omap length]. destruct (db !! job_id); cbn [length]; lia.
Qed.

(** X11.  The local API and a comma-separated list of job ids.  The ids
    that the heatmap and the diversity endpoint pass on are the segments
    of the query between commas, unstripped: joined by commas they give
    the query back.  When the heatmap handler returns, the samples are
    the file names of the segments that are ids of stored jobs.  When
    fewer than two segments are ids of stored jobs, the diversity
    endpoint answers 500 with the text of the [ValueError] that the PCA
    call raises. *)
Theorem local_api_list_endpoints
    (decompose : list (list nat) → result (list (list npfloat) * list npfloat))
    (db : store) (job_ids : str) (rank : option str) :
  join comma (split comma job_ids) = job_ids
  ∧ Forall (λ seg, comma ∉ seg) (split comma job_ids)
  ∧ (∀ h : heatmap,
       LocalApi.get_heatmap db job_ids rank = Respond h →
       samples h = sample_name <$> present_jobs db (split comma job_ids)
       ∧ length (samples h) ≤ length (split comma job_ids))
  ∧ (length (present_jobs db (split comma job_ids)) < 2 →
     ∃ msg : str,
       LocalApi.get_diversity (PCA_fit_transform decompose) db job_ids
       = HTTPException 500 (StrOf (ValueError msg))).
Proof.
  split_and!.
  - apply join_split.
  - apply split_no_sep.
  - intros h. unfold LocalApi.get_heatmap.
    destruct (get_heatmap_data_OK db (split comma job_ids)
                (default (py "class") rank)) as (h' & -> & Hs & _).
    cbn [LocalApi.or_500]. intros [= <-]. split; [done|].
    rewrite Hs, length_fmap. apply length_present_jobs.
  - intros Hfew. unfold LocalApi.get_diversity, calculate_beta_diversity.
    destruct (PCA_rejects_degenerate decompose
                (abundance_matrix (collect_samples db (split comma job_ids))))
      as [msg ->]; [|by exists msg].
    left. rewrite <- collect_samples_lengths, collect_samples_spec.
    cbn [ds_names]. by rewrite length_fmap.
Qed.

Lemma local_api_list_endpoints_witness :
  ∃ msg : str,
    LocalApi.get_diversity (PCA_fit_transform pca_returns) mixed_store
      (py "m,x")
    = HTTPException 500 (StrOf (ValueError msg)).
Proof.
  destruct (local_api_list_endpoints pca_returns mixed_store (py "m,x") None)
    as (_ & _ & _ & Hdiv).
  apply Hdiv. vm_compute. lia.
Defined.

(** X12.  The backend server, whose database object may be missing.  An
    endpoint answers 503 "Database not available" exactly when the
    database object is [None]; when it is there, every endpoint answers as
    the endpoint of the same name of the local API does on that
    database. *)
Theorem backend_endpoints_follow_local_api
    (pca : list (list nat) → result (list (list npfloat) * list npfloat))
    (db : option store) (job_id job_ids : str) (rank : option str) :
  let unavailable {T} (r : http T) :=
    r = HTTPException 503 (Message (py "Database not available")) in
  (unavailable (Backend.get_composition db job_id rank) ↔ db = None)
  ∧ (unavailable (Backend.get_hierarchy db job_id) ↔ db = None)
  ∧ (unavailable (Backend.get_sankey db job_id) ↔ db = None)
  ∧ (unavailable (Backend.get_heatmap db job_ids rank) ↔ db = None)
  ∧ (unavailable (Backend.get_diversity pca db job_ids) ↔ db = None)
  ∧ (unavailable (Backend.get_job db job_id) ↔ db = None)
  ∧ (∀ d, db = Some d →
       Backend.get_composition db job_id rank
         = LocalApi.get_composition d job_id rank
       ∧ Backend.get_hierarchy db job_id = LocalApi.get_hierarchy d job_id
       ∧ Backend.get_sankey db job_id = LocalApi.get_sankey d job_id
       ∧ Backend.get_heatmap db job_ids rank
         = LocalApi.get_heatmap d job_ids rank
       ∧ Backend.get_diversity pca db job_ids
         = LocalApi.get_diversity pca d job_ids
       ∧ Backend.get_job db job_id = LocalApi.get_job d job_id).
Proof.
  intros unavailable. subst unavailable. cbn beta.
  unfold Backend.get_composition, Backend.get_hierarchy, Backend.get_sankey,
    Backend.get_heatmap, Backend.get_diversity, Backend.get_job,
    Backend.with_db.
  destruct db as [d|].
  - split_and!; try (intros d' [= <-]; done).
    + split; [|done].
      destruct (get_taxonomic_composition d job_id _); by cbn.
    + split; [|done]. destruct (get_hierarchical_data d job_id); by cbn.
    + split; [|done]. destruct (get_sankey_data d job_id); by cbn.
    + split; [|done]. destruct (get_heatmap_data d _ _); by cbn.
    + split; [|done]. destruct (calculate_beta_diversity pca d _); by cbn.
    + split; [|done]. destruct (get_job_by_id d job_id); by cbn.
  - split_and!; try done. 
Qed.

Lemma backend_endpoints_follow_local_api_witness :
  Backend.get_job (Some example_store) (py "job-1")
  = LocalApi.get_job example_store (py "job-1").
Proof.
  destruct (backend_endpoints_follow_local_api pca_returns
              (Some example_store) (py "job-1") (py "job-1") None)
    as (_ & _ & _ & _ & _ & _ & Hsame).
  destruct (Hsame example_store eq_refl) as (_ & _ & _ & _ & _ & Hjob).
  exact Hjob.
Defined.
